(** * Hyper-Goliath: the Beal search engine, embedded and verified

    A shallow embedding of the C engine (hyper_goliath): the modular
    arithmetic primitives, the residue precomputer, the 20-prime sieve in its
    scalar and 8-lane forms, the GMP verifier, the parallel search driver,
    the COMPLETE record's integrity digest and the process exit code.

    Unsigned machine integers are values of [Z] with the wrap-around of every
    operation written out; arrays are lists read by index; the two words of a
    128-bit mask are a record; a loop whose index can wrap forever yields
    [None]. *)

From Stdlib Require Import String Ascii.
From Stdlib Require Import ZArith List Bool Lia Znumtheory Permutation.
Import ListNotations.
Local Open Scope Z_scope.

(** ** Unsigned 64-bit, 32-bit and 8-bit arithmetic *)

Module U64.
Definition modulus : Z := 2 ^ 64.
Definition max : Z := modulus - 1.
Definition wrap (v : Z) : Z := v mod modulus.
Definition add (a b : Z) : Z := wrap (a + b).
Definition sub (a b : Z) : Z := wrap (a - b).
Definition mul (a b : Z) : Z := wrap (a * b).
Definition shl (a n : Z) : Z := wrap (Z.shiftl a n).
Definition shr (a n : Z) : Z := Z.shiftr a n.
Definition in_range (v : Z) : Prop := 0 <= v < modulus.
End U64.

Module U32.
Definition modulus : Z := 2 ^ 32.
Definition wrap (v : Z) : Z := v mod modulus.
Definition in_range (v : Z) : Prop := 0 <= v < modulus.
End U32.

Module U8.
Definition modulus : Z := 2 ^ 8.
Definition wrap (v : Z) : Z := v mod modulus.
End U8.

(** ** Loops over an unsigned 64-bit index *)

(** [for (uint64_t i = lo; i <= hi; i += step) s = body i s;] run for at
    most [fuel] tests of the condition.  The index wraps modulo 2^64 as in
    C.  [None] means that the body did not return or that the condition
    still held when the fuel ran out. *)
Fixpoint for_u64_fuel {S : Type} (fuel : nat) (i hi step : Z)
    (body : Z -> S -> option S) (s : S) : option S :=
  match fuel with
  | O => None
  | Datatypes.S fuel' =>
      if i <=? hi then
        match body i s with
        | Some s' => for_u64_fuel fuel' (U64.add i step) hi step body s'
        | None => None
        end
      else Some s
  end.

(** The number of condition tests of a loop from [lo] to [hi] whose index
    never wraps: one per iteration and the final failing one.  A loop that
    needs more has wrapped its index and runs through the same values
    again, for ever. *)
Definition for_u64_tests (lo hi step : Z) : nat :=
  if lo <=? hi then Z.to_nat ((hi - lo) / step + 2) else 1%nat.

Definition for_u64 {S : Type} (lo hi step : Z) (body : Z -> S -> option S)
    (s : S) : option S :=
  for_u64_fuel (for_u64_tests lo hi step) lo hi step body s.

(** The values [lo, lo + step, ...] not above [hi], as integers. *)
Definition zrange_step (lo hi step : Z) : list Z :=
  if lo <=? hi
  then map (fun k => lo + step * Z.of_nat k)
           (seq 0 (Z.to_nat ((hi - lo) / step + 1)))
  else [].

Definition zrange (lo hi : Z) : list Z := zrange_step lo hi 1.

(** The loop body applied along a list of index values. *)
Fixpoint fold_opt {S : Type} (body : Z -> S -> option S) (l : list Z) (s : S)
    : option S :=
  match l with
  | [] => Some s
  | i :: rest =>
      match body i s with
      | Some s' => fold_opt body rest s'
      | None => None
      end
  end.

(** ** The sieve primes (hyper_goliath.h) *)

Definition NUM_SIEVE_PRIMES : nat := 20.

Definition SIEVE_PRIMES : list Z :=
  [2; 3; 5; 7; 11; 13; 17; 19; 23; 29; 31; 37; 41; 43; 47; 53; 59; 61; 67; 71].

Definition MAX_PRIME : Z := 71.

(** ** powmod (hyper_goliath.h) *)

(** The [while (exp > 0)] loop of [powmod].  Besides the running [result] it
    returns, oldest first, the exact integer value of every product the loop
    forms before the product is truncated to 64 bits. *)
Fixpoint powmod_loop (fuel : nat) (result base exp m : Z) (products : list Z)
    : Z * list Z :=
  match fuel with
  | O => (result, products)
  | Datatypes.S fuel' =>
      if 0 <? exp then
        let odd := negb (Z.land exp 1 =? 0) in
        let result' := if odd then U64.mul result base mod m else result in
        let products := if odd then products ++ [result * base] else products in
        let exp := Z.shiftr exp 1 in
        let products := products ++ [base * base] in
        let base := U64.mul base base mod m in
        powmod_loop fuel' result' base exp m products
      else (result, products)
  end.

(** [exp] is a [uint32_t]: the loop halves it, so 32 rounds end it. *)
Definition powmod_trace (base exp m : Z) : Z * list Z :=
  let result := 1 in
  let base := base mod m in
  powmod_loop 32 result base exp m [].

Definition powmod (base exp m : Z) : Z := fst (powmod_trace base exp m).

Definition powmod_products (base exp m : Z) : list Z :=
  snd (powmod_trace base exp m).

(** ** 128-bit masks (hyper_goliath.h) *)

Module Mask128.
  (** [uint64_t mask[2]] *)
Record t : Type := mk { word0 : Z; word1 : Z }.
Definition zero : t := mk 0 0.
End Mask128.

Definition get_bit128 (mask : Mask128.t) (bit : Z) : bool :=
  if bit <? 64
  then negb (Z.land (Mask128.word0 mask) (U64.shl 1 bit) =? 0)
  else negb (Z.land (Mask128.word1 mask) (U64.shl 1 (bit - 64)) =? 0).

Definition set_bit128 (mask : Mask128.t) (bit : Z) : Mask128.t :=
  if bit <? 64
  then Mask128.mk (Z.lor (Mask128.word0 mask) (U64.shl 1 bit))
                  (Mask128.word1 mask)
  else Mask128.mk (Mask128.word0 mask)
                  (Z.lor (Mask128.word1 mask) (U64.shl 1 (bit - 64))).

(** ** gcd64 (utility functions) *)

Fixpoint ctz_pos (p : positive) : Z :=
  match p with
  | xO q => 1 + ctz_pos q
  | _ => 0
  end.

(** [__builtin_ctzll]; its value at 0 is undefined in C and never asked for
    by [gcd64]. *)
Definition ctzll (v : Z) : Z :=
  match v with
  | Zpos p => ctz_pos p
  | _ => 64
  end.

(** The [do { ... } while (b)] loop of [gcd64]. *)
Fixpoint gcd64_loop (fuel : nat) (a b : Z) : Z :=
  match fuel with
  | O => a
  | Datatypes.S fuel' =>
      let b := U64.shr b (ctzll b) in
      let '(a, b) := if b <? a then (b, a) else (a, b) in
      let b := U64.sub b a in
      if b =? 0 then a else gcd64_loop fuel' a b
  end.

(** Every round after the first at least halves [b], and [a] never grows:
    128 rounds are enough for two 64-bit operands ([gcd64_loop_stable]). *)
Definition gcd64 (a b : Z) : Z :=
  if a =? 0 then b
  else if b =? 0 then a
  else
    let shift := ctzll (Z.lor a b) in
    let a := U64.shr a (ctzll a) in
    let a := gcd64_loop 128 a b in
    U64.shl a shift.

(** ** The residue precomputer *)

Definition compute_residue_mask128 (p z : Z) : Mask128.t :=
  fold_left (fun mask r =>
               let rz := powmod r z p in
               set_bit128 mask (U32.wrap rz))
            (zrange 0 (p - 1)) Mask128.zero.

Module PrecomputedData.
Record t : Type := mk {
    x : Z; y : Z; z : Z;
    residue_masks : list Mask128.t;
    ax_mod : list (list Z);      (* ax_mod[A][prime_idx] *)
    by_mod : list (list Z);      (* by_mod[prime_idx][B] *)
    A_max : Z; B_max : Z
  }.
End PrecomputedData.

(** Array reads.  The claims read the tables inside their bounds; outside
    them C gives no meaning to the read and the model answers 0. *)
Definition read (row : list Z) (i : Z) : Z := nth (Z.to_nat i) row 0.
Definition read_row (table : list (list Z)) (i : Z) : list Z :=
  nth (Z.to_nat i) table [].
Definition read_mask (masks : list Mask128.t) (i : nat) : Mask128.t :=
  nth i masks Mask128.zero.
Definition prime_at (i : nat) : Z := nth i SIEVE_PRIMES 0.

Definition prime_indices : list nat := seq 0 NUM_SIEVE_PRIMES.

(** The rows of [by_mod], one per prime, each filled by the loop over B. *)
Fixpoint by_mod_rows (idxs : list nat) (y B_max : Z) : option (list (list Z)) :=
  match idxs with
  | [] => Some []
  | i :: rest =>
      let p := prime_at i in
      match
        for_u64 0 B_max 1
          (fun B row => Some (row ++ [U8.wrap (powmod B y p)])) []
      with
      | None => None
      | Some row =>
          match by_mod_rows rest y B_max with
          | None => None
          | Some rows => Some (row :: rows)
          end
      end
  end.

(** [precompute_create].  [alloc_ok] says whether the three checked
    allocations succeed; when one fails the function returns NULL, here
    [Some None].  The outer [None] is a call that returns nothing: the loops
    [A <= A_max] and [B <= B_max] cannot end when the bound is 2^64 - 1.

    The rows are allocated without a check, and the size of the table of
    row pointers, A_max + 1 times the size of a pointer, is formed in [size_t]:
    a call in which a row allocation fails or that size wraps writes outside
    its storage and is not described here.  What is stated of
    [precompute_create] below is therefore stated of the calls that return,
    NULL or the tables. *)
Definition precompute_create (alloc_ok : bool) (x y z A_max B_max : Z)
    : option (option PrecomputedData.t) :=
  if negb alloc_ok then Some None
  else
    let masks :=
      map (fun i => compute_residue_mask128 (prime_at i) z) prime_indices in
    match
      for_u64 0 A_max 1
        (fun A tbl =>
           Some (tbl ++ [map (fun i => U8.wrap (powmod A x (prime_at i)))
                             prime_indices]))
        []
    with
    | None => None
    | Some ax =>
        match by_mod_rows prime_indices y B_max with
        | None => None
        | Some byt =>
            Some (Some (PrecomputedData.mk x y z masks ax byt A_max B_max))
        end
    end.

(** The contents of the three tables, entry by entry. *)
Definition tables_exact (x y z A_max B_max : Z) (data : PrecomputedData.t)
    : Prop :=
  PrecomputedData.x data = x /\ PrecomputedData.y data = y
  /\ PrecomputedData.z data = z
  /\ PrecomputedData.A_max data = A_max /\ PrecomputedData.B_max data = B_max
  /\ A_max < U64.max /\ B_max < U64.max
  /\ (forall i, (i < NUM_SIEVE_PRIMES)%nat ->
        read_mask (PrecomputedData.residue_masks data) i
        = compute_residue_mask128 (prime_at i) z)
  /\ (forall A i, 0 <= A <= A_max -> (i < NUM_SIEVE_PRIMES)%nat ->
        read (read_row (PrecomputedData.ax_mod data) A) (Z.of_nat i)
        = U8.wrap (powmod A x (prime_at i)))
  /\ (forall B i, 0 <= B <= B_max -> (i < NUM_SIEVE_PRIMES)%nat ->
        read (read_row (PrecomputedData.by_mod data) (Z.of_nat i)) B
        = U8.wrap (powmod B y (prime_at i))).

(** The bit that [get_bit128] reads, on the mask as two 64-bit numbers. *)
Definition mask_bit (mask : Mask128.t) (bit : Z) : bool :=
  if bit <? 64 then Z.testbit (Mask128.word0 mask) bit
  else Z.testbit (Mask128.word1 mask) (bit - 64).

(** ** The sieve (sieve.c) *)

(** One round of the loop over the primes of [sieve_survives_scalar]:
    [true] when prime [i] does not kill the pair. *)
Definition sieve_prime_admits (i : nat) (A B : Z) (data : PrecomputedData.t)
    : bool :=
  let p := prime_at i in
  let ax_mod := read (read_row (PrecomputedData.ax_mod data) A) (Z.of_nat i) in
  let by_mod := read (read_row (PrecomputedData.by_mod data) (Z.of_nat i)) B in
  let sum := ax_mod + by_mod in
  let sum := if p <=? sum then sum - p else sum in
  get_bit128 (read_mask (PrecomputedData.residue_masks data) i) sum.

Fixpoint sieve_scalar_from (idxs : list nat) (A B : Z) (data : PrecomputedData.t)
    : bool :=
  match idxs with
  | [] => true
  | i :: rest =>
      if negb (sieve_prime_admits i A B data) then false
      else sieve_scalar_from rest A B data
  end.

Definition sieve_survives_scalar (A B : Z) (data : PrecomputedData.t) : bool :=
  sieve_scalar_from prime_indices A B data.

(** [survivors &= ~(1 << l)] on a [uint8_t]. *)
Definition clear_lane (survivors l : Z) : Z :=
  U8.wrap (Z.land survivors (Z.lnot (Z.shiftl 1 l))).

(** The body of the loop over the lanes, for prime [i]. *)
Definition lane_step (i : nat) (A B_start : Z) (data : PrecomputedData.t)
    (survivors l : Z) : Z :=
  let p := prime_at i in
  let ax := read (read_row (PrecomputedData.ax_mod data) A) (Z.of_nat i) in
  let by_row := read_row (PrecomputedData.by_mod data) (Z.of_nat i) in
  let mask := read_mask (PrecomputedData.residue_masks data) i in
  if Z.land survivors (Z.shiftl 1 l) =? 0 then survivors
  else
    let B := U64.add B_start l in
    if PrecomputedData.B_max data <? B then clear_lane survivors l
    else
      let sum := ax + read by_row B in
      let sum := if p <=? sum then sum - p else sum in
      if negb (get_bit128 mask sum) then clear_lane survivors l
      else survivors.

(** What prime [i] decides for lane [l]: the lane is inside [B_max] and the
    prime admits its pair. *)
Definition lane_ok (i : nat) (A B_start : Z) (data : PrecomputedData.t)
    (l : Z) : bool :=
  (U64.add B_start l <=? PrecomputedData.B_max data)
  && sieve_prime_admits i A (U64.add B_start l) data.

Definition lanes : list Z := [0; 1; 2; 3; 4; 5; 6; 7].

Fixpoint sieve_avx2_from (idxs : list nat) (A B_start : Z)
    (data : PrecomputedData.t) (survivors : Z) : Z :=
  match idxs with
  | [] => survivors
  | i :: rest =>
      let survivors := fold_left (lane_step i A B_start data) lanes survivors in
      if survivors =? 0 then survivors
      else sieve_avx2_from rest A B_start data survivors
  end.

Definition sieve_survives_avx2_8 (A B_start : Z) (data : PrecomputedData.t)
    : Z :=
  sieve_avx2_from prime_indices A B_start data 255.

(** [None]: the loops do not end (a bound equal to 2^64 - 1). *)
Definition count_sieve_survivors (A_start A_end B_start B_end : Z)
    (data : PrecomputedData.t) : option Z :=
  for_u64 A_start A_end 1
    (fun A count =>
       for_u64 B_start B_end 1
         (fun B count =>
            Some (if (gcd64 A B =? 1) && sieve_survives_scalar A B data
                  then U64.add count 1
                  else count))
         count)
    0.

(** The pairs of a rectangle that are coprime by [gcd64] and survive the
    scalar sieve, counted over the integers. *)
Definition coprime_survivor (data : PrecomputedData.t) (AB : Z * Z) : bool :=
  (gcd64 (fst AB) (snd AB) =? 1)
  && sieve_survives_scalar (fst AB) (snd AB) data.

Definition coprime_survivors (A_start A_end B_start B_end : Z)
    (data : PrecomputedData.t) : Z :=
  Z.of_nat (List.length
              (filter (coprime_survivor data)
                      (list_prod (zrange A_start A_end)
                                 (zrange B_start B_end)))).

(** The tables of signature (3, 3, 4) for A_max = B_max = 2, a small
    instance on which the statements below are tried. *)
Definition sample_data : PrecomputedData.t :=
  Eval vm_compute in
    match precompute_create true 3 3 4 2 2 with
    | Some (Some data) => data
    | _ => PrecomputedData.mk 0 0 0 [] [] [] 0 0
    end.

(** ** The exact verifier (gmp_verify.c) *)

(** GMP is a library outside the repository; its functions are modelled on
    unbounded [Z] from their documentation.  [mpz_root rop op n] sets [rop]
    to the truncated integer part of the n-th root of [op] and returns
    non-zero exactly when the root is exact.  The root is built bit by bit,
    from the highest bit that it can have. *)
Fixpoint root_bits (k : nat) (op n r : Z) : Z :=
  match k with
  | O => r
  | Datatypes.S k' =>
      let c := r + 2 ^ Z.of_nat k' in
      root_bits k' op n (if c ^ n <=? op then c else r)
  end.

Definition mpz_root (op n : Z) : Z * bool :=
  let root := root_bits (Z.to_nat (Z.log2 op + 1)) op n 0 in
  (root, root ^ n =? op).

(** [unsigned long] has 64 bits (LP64). *)
Definition mpz_fits_ulong_p (v : Z) : bool := (0 <=? v) && (v <=? U64.max).

Module Outs.
  (** The two cells behind [out_C] and [out_gcd]. *)
Record t : Type := mk { out_C : Z; out_gcd : Z }.
End Outs.

Definition check_beal_hit_gmp (A B x y z C_max : Z) (out : Outs.t)
    : bool * Outs.t :=
  let ax := A ^ x in
  let by_ := B ^ y in
  let sum := ax + by_ in
  let '(root, is_perfect) := mpz_root sum z in
  if is_perfect then
    if mpz_fits_ulong_p root then
      let C := root in
      if (C <=? C_max) && (0 <? C) then
        let out := Outs.mk C (Outs.out_gcd out) in
        let g1 := gcd64 B C in
        let out := Outs.mk (Outs.out_C out) (gcd64 A g1) in
        (true, out)
      else (false, out)
    else (false, out)
  else (false, out).

(** [verify_beal_equation]: [mpz_cmp (sum, cz) == 0]. *)
Definition verify_beal_equation (A B C x y z : Z) : bool :=
  let ax := A ^ x in
  let by_ := B ^ y in
  let cz := C ^ z in
  let sum := ax + by_ in
  sum =? cz.

(** ** Results and hits (parallel search) *)

Module BealHit.
Record t : Type := mk {
    A : Z; B : Z; C : Z;
    gcd : Z;
    x : Z; y : Z; z : Z
  }.
End BealHit.

Module SearchResults.
  (** [hits] holds [hits[0 .. hits_count)].  The two timing fields are
      floating point and left out. *)
Record t : Type := mk {
    total_pairs : Z;
    gcd_filtered : Z;
    mod_filtered : Z;
    exact_checks : Z;
    power_hits : Z;
    primitive_hits : Z;
    hits : list BealHit.t;
    hits_capacity : Z
  }.
Definition hits_count (r : t) : Z := Z.of_nat (List.length (hits r)).
End SearchResults.

Module SearchParams.
Record t : Type := mk {
    x : Z; y : Z; z : Z;
    A_start : Z; A_max : Z;
    B_start : Z; B_max : Z;
    C_max : Z;
    num_threads : Z;
    progress_interval : Z;
    log_path : option string
  }.
End SearchParams.

Definition results_init : SearchResults.t :=
  SearchResults.mk 0 0 0 0 0 0 [] 64.

(** [results_add_hit], for a call whose [realloc] gives the block asked
    for: a failed [realloc] leaves [hits] NULL before the write and is not
    described here. *)
Definition results_add_hit (results : SearchResults.t) (hit : BealHit.t)
    : SearchResults.t :=
  let capacity :=
    if SearchResults.hits_capacity results <=? SearchResults.hits_count results
    then U64.mul (SearchResults.hits_capacity results) 2
    else SearchResults.hits_capacity results in
  SearchResults.mk
    (SearchResults.total_pairs results) (SearchResults.gcd_filtered results)
    (SearchResults.mod_filtered results) (SearchResults.exact_checks results)
    (SearchResults.power_hits results) (SearchResults.primitive_hits results)
    (SearchResults.hits results ++ [hit]) capacity.

(** ** The COMPLETE record and its digest (logging) *)

Definition FNV_OFFSET_BASIS : Z := 14695981039346656037.
Definition FNV_PRIME : Z := 1099511628211.

(** The hash computed by [log_complete], statement by statement. *)
Definition log_complete_hash (params : SearchParams.t)
    (results : SearchResults.t) : Z :=
  let hash := FNV_OFFSET_BASIS in
  let hash := Z.lxor hash (SearchParams.x params) in
  let hash := U64.mul hash FNV_PRIME in
  let hash := Z.lxor hash (SearchParams.y params) in
  let hash := U64.mul hash FNV_PRIME in
  let hash := Z.lxor hash (SearchParams.z params) in
  let hash := U64.mul hash FNV_PRIME in
  let hash := Z.lxor hash (SearchParams.A_start params) in
  let hash := U64.mul hash FNV_PRIME in
  let hash := Z.lxor hash (SearchParams.A_max params) in
  let hash := U64.mul hash FNV_PRIME in
  let hash := Z.lxor hash (SearchParams.B_start params) in
  let hash := U64.mul hash FNV_PRIME in
  let hash := Z.lxor hash (SearchParams.B_max params) in
  let hash := U64.mul hash FNV_PRIME in
  let hash := Z.lxor hash (SearchParams.C_max params) in
  let hash := U64.mul hash FNV_PRIME in
  let hash := Z.lxor hash (SearchResults.total_pairs results) in
  let hash := U64.mul hash FNV_PRIME in
  let hash := Z.lxor hash (SearchResults.gcd_filtered results) in
  let hash := U64.mul hash FNV_PRIME in
  let hash := Z.lxor hash (SearchResults.mod_filtered results) in
  let hash := U64.mul hash FNV_PRIME in
  let hash := Z.lxor hash (SearchResults.exact_checks results) in
  let hash := U64.mul hash FNV_PRIME in
  let hash := Z.lxor hash (SearchResults.power_hits results) in
  let hash := U64.mul hash FNV_PRIME in
  let hash := Z.lxor hash (SearchResults.primitive_hits results) in
  let hash := U64.mul hash FNV_PRIME in
  hash.

Definition hex_digit (d : Z) : ascii :=
  nth (Z.to_nat d)
      ["0"; "1"; "2"; "3"; "4"; "5"; "6"; "7"; "8"; "9";
       "a"; "b"; "c"; "d"; "e"; "f"]%char
      "0"%char.

Fixpoint hex_fixed (n : nat) (v : Z) : string :=
  match n with
  | O => EmptyString
  | Datatypes.S k =>
      String (hex_digit ((v / 16 ^ Z.of_nat k) mod 16)) (hex_fixed k v)
  end.

(** [printf("%016" PRIx64, v)]: lowercase hexadecimal, padded with zeros to
    16 digits; a 64-bit value never has more. *)
Definition fmt_016x (v : Z) : string := hex_fixed 16 v.

Module CompleteRecord.
  (** The fields of the COMPLETE line; the timestamp and the two floating
      point fields are left out. *)
Record t : Type := mk {
    run_id : Z;
    signature : list Z;
    search_bounds : list (Z * Z);
    total_pairs : Z;
    gcd_filtered : Z;
    mod_filtered : Z;
    exact_checks : Z;
    power_hits : Z;
    primitive_counterexamples : Z;
    workers_used : Z;
    status : string;
    integrity_hash : string
  }.
End CompleteRecord.

(** [log_complete]: nothing is written without a path or when [fopen]
    fails ([fopen_ok = false]). *)
Definition log_complete (fopen_ok : bool) (path : option string) (run_id : Z)
    (params : SearchParams.t) (results : SearchResults.t)
    : option CompleteRecord.t :=
  match path with
  | None => None
  | Some _ =>
      if negb fopen_ok then None
      else
        let hash := log_complete_hash params results in
        let status :=
          if 0 <? SearchResults.primitive_hits results
          then "COUNTEREXAMPLE_FOUND"%string else "CLEAR"%string in
        Some (CompleteRecord.mk run_id
                [SearchParams.x params; SearchParams.y params;
                 SearchParams.z params]
                [(SearchParams.A_start params, SearchParams.A_max params);
                 (SearchParams.B_start params, SearchParams.B_max params);
                 (1, SearchParams.C_max params)]
                (SearchResults.total_pairs results)
                (SearchResults.gcd_filtered results)
                (SearchResults.mod_filtered results)
                (SearchResults.exact_checks results)
                (SearchResults.power_hits results)
                (SearchResults.primitive_hits results)
                (if 0 <? SearchParams.num_threads params
                 then SearchParams.num_threads params else 1)
                status (fmt_016x hash))
  end.

(** The digest in the words of the specification: a 64-bit FNV-1a that
    absorbs each field as one 64-bit quantity, XOR then multiply. *)
Definition fnv1a64_absorb (hash field : Z) : Z :=
  (Z.lxor hash field * 1099511628211) mod 2 ^ 64.

Definition fnv1a64 (fields : list Z) : Z :=
  fold_left fnv1a64_absorb fields 14695981039346656037.

Definition digest_fields (params : SearchParams.t) (results : SearchResults.t)
    : list Z :=
  [SearchParams.x params; SearchParams.y params; SearchParams.z params;
   SearchParams.A_start params; SearchParams.A_max params;
   SearchParams.B_start params; SearchParams.B_max params;
   SearchParams.C_max params;
   SearchResults.total_pairs results; SearchResults.gcd_filtered results;
   SearchResults.mod_filtered results; SearchResults.exact_checks results;
   SearchResults.power_hits results; SearchResults.primitive_hits results].

Definition is_lower_hex (c : ascii) : bool :=
  let n := Z.of_nat (nat_of_ascii c) in
  ((48 <=? n) && (n <=? 57)) || ((97 <=? n) && (n <=? 102)).

Definition hex_value (c : ascii) : Z :=
  let n := Z.of_nat (nat_of_ascii c) in
  if n <=? 57 then n - 48 else n - 87.

Fixpoint hex_parse (s : string) (acc : Z) : Z :=
  match s with
  | EmptyString => acc
  | String c rest => hex_parse rest (16 * acc + hex_value c)
  end.

Fixpoint string_forallb (f : ascii -> bool) (s : string) : bool :=
  match s with
  | EmptyString => true
  | String c rest => f c && string_forallb f rest
  end.

(** ** The search driver (parallel search) *)

Module Env.
  (** What the build and the machine decide: whether the 8-lane path is
      compiled in ([HAVE_AVX2]), whether allocations and [fopen] succeed,
      the clock read for [run_id], and which values of A each worker takes
      from the dynamically scheduled loop, in the order it takes them
      (without OpenMP: one worker and every A from [A_start] to [A_max]). *)
Record t : Type := mk {
    have_avx2 : bool;
    alloc_ok : bool;
    fopen_ok : bool;
    clock : Z;
    schedule : list (list Z)
  }.
End Env.

(** A schedule that hands out every A of the range once. *)
Definition complete_schedule (params : SearchParams.t)
    (schedule : list (list Z)) : Prop :=
  Permutation (concat schedule)
              (zrange (SearchParams.A_start params) (SearchParams.A_max params)).

Module Iter.
  (** The state of one worker inside the loop over B: the four counters of
      the current A, the worker's hit buffer [local_hits[0 .. local_hit_count)]
      and the shared results. *)
Record t : Type := mk {
    a_tested : Z; a_gcd : Z; a_mod : Z; a_exact : Z;
    local_hits : list BealHit.t;
    results : SearchResults.t
  }.
End Iter.

Module Shared.
  (** The four atomic counters and the shared results. *)
Record t : Type := mk {
    global_tested : Z;
    global_gcd_skips : Z;
    global_mod_skips : Z;
    global_exact_checks : Z;
    results : SearchResults.t
  }.
End Shared.

(** The critical dump of a hit buffer: [results_add_hit] for each entry
    (each one is also logged). *)
Definition flush_hits (local_hits : list BealHit.t) (results : SearchResults.t)
    : SearchResults.t :=
  fold_left results_add_hit local_hits results.

(** What a worker does with a verified hit.  The 8-lane path dumps a full
    buffer and starts it again; the scalar path only stores the hit while the
    buffer has room. *)
Definition record_hit (have_avx2 : bool) (hit : BealHit.t) (st : Iter.t)
    : Iter.t :=
  if Z.of_nat (List.length (Iter.local_hits st)) <? 64 then
    Iter.mk (Iter.a_tested st) (Iter.a_gcd st) (Iter.a_mod st) (Iter.a_exact st)
            (Iter.local_hits st ++ [hit]) (Iter.results st)
  else if have_avx2 then
    Iter.mk (Iter.a_tested st) (Iter.a_gcd st) (Iter.a_mod st) (Iter.a_exact st)
            [hit] (flush_hits (Iter.local_hits st) (Iter.results st))
  else st.

(** The pipeline for one pair.  [survives] is the sieve's decision for the
    pair: the lane's bit of the 8-lane mask, or the scalar sieve. *)
Definition pair_body (have_avx2 : bool) (params : SearchParams.t)
    (survives : bool) (A B_val : Z) (st : Iter.t) : Iter.t :=
  let tested := U64.add (Iter.a_tested st) 1 in
  if 1 <? gcd64 A B_val then
    Iter.mk tested (U64.add (Iter.a_gcd st) 1) (Iter.a_mod st) (Iter.a_exact st)
            (Iter.local_hits st) (Iter.results st)
  else if negb survives then
    Iter.mk tested (Iter.a_gcd st) (U64.add (Iter.a_mod st) 1) (Iter.a_exact st)
            (Iter.local_hits st) (Iter.results st)
  else
    let st := Iter.mk tested (Iter.a_gcd st) (Iter.a_mod st)
                      (U64.add (Iter.a_exact st) 1)
                      (Iter.local_hits st) (Iter.results st) in
    let '(is_hit, out) :=
      check_beal_hit_gmp A B_val (SearchParams.x params) (SearchParams.y params)
                         (SearchParams.z params) (SearchParams.C_max params)
                         (Outs.mk 0 0) in
    if is_hit then
      let hit := BealHit.mk A B_val (Outs.out_C out) (Outs.out_gcd out)
                            (SearchParams.x params) (SearchParams.y params)
                            (SearchParams.z params) in
      record_hit have_avx2 hit st
    else st.

(** [for (int lane = 0; lane < 8 && B + lane <= B_max; lane++)] *)
Fixpoint lanes_loop (ls : list Z) (params : SearchParams.t) (survivors A B : Z)
    (st : Iter.t) : Iter.t :=
  match ls with
  | [] => st
  | lane :: rest =>
      if U64.add B lane <=? SearchParams.B_max params then
        let B_val := U64.add B lane in
        let survives := negb (Z.land survivors (Z.shiftl 1 lane) =? 0) in
        lanes_loop rest params survivors A B
                   (pair_body true params survives A B_val st)
      else st
  end.

(** The loop over B for one A, on the path the build selects. *)
Definition b_loop (have_avx2 : bool) (params : SearchParams.t)
    (data : PrecomputedData.t) (A : Z) (st : Iter.t) : option Iter.t :=
  if have_avx2 then
    for_u64 (SearchParams.B_start params) (SearchParams.B_max params) 8
      (fun B st =>
         let survivors := sieve_survives_avx2_8 A B data in
         Some (lanes_loop lanes params survivors A B st))
      st
  else
    for_u64 (SearchParams.B_start params) (SearchParams.B_max params) 1
      (fun B st =>
         Some (pair_body false params (sieve_survives_scalar A B data) A B st))
      st.

(** One iteration of the loop over A: the loop over B, then the four
    [atomic_fetch_add]. *)
Definition a_iteration (have_avx2 : bool) (params : SearchParams.t)
    (data : PrecomputedData.t) (A : Z)
    (w : list BealHit.t * Shared.t) : option (list BealHit.t * Shared.t) :=
  let '(local_hits, sh) := w in
  match b_loop have_avx2 params data A
               (Iter.mk 0 0 0 0 local_hits (Shared.results sh)) with
  | None => None
  | Some st =>
      Some (Iter.local_hits st,
            Shared.mk (U64.add (Shared.global_tested sh) (Iter.a_tested st))
                      (U64.add (Shared.global_gcd_skips sh) (Iter.a_gcd st))
                      (U64.add (Shared.global_mod_skips sh) (Iter.a_mod st))
                      (U64.add (Shared.global_exact_checks sh) (Iter.a_exact st))
                      (Iter.results st))
  end.

Fixpoint a_loop (have_avx2 : bool) (params : SearchParams.t)
    (data : PrecomputedData.t) (As : list Z)
    (w : list BealHit.t * Shared.t) : option (list BealHit.t * Shared.t) :=
  match As with
  | [] => Some w
  | A :: rest =>
      match a_iteration have_avx2 params data A w with
      | None => None
      | Some w' => a_loop have_avx2 params data rest w'
      end
  end.

(** One worker: an empty hit buffer, its share of the loop over A, and the
    merge of the hits that remain in the buffer. *)
Definition worker (have_avx2 : bool) (params : SearchParams.t)
    (data : PrecomputedData.t) (As : list Z) (sh : Shared.t)
    : option Shared.t :=
  match a_loop have_avx2 params data As ([], sh) with
  | None => None
  | Some (local_hits, sh) =>
      Some (Shared.mk (Shared.global_tested sh) (Shared.global_gcd_skips sh)
                      (Shared.global_mod_skips sh)
                      (Shared.global_exact_checks sh)
                      (flush_hits local_hits (Shared.results sh)))
  end.

(** The parallel region.  A worker touches the shared state only through
    atomic additions and critical sections, so the workers are run one after
    the other. *)
Fixpoint workers (have_avx2 : bool) (params : SearchParams.t)
    (data : PrecomputedData.t) (schedule : list (list Z)) (sh : Shared.t)
    : option Shared.t :=
  match schedule with
  | [] => Some sh
  | As :: rest =>
      match worker have_avx2 params data As sh with
      | None => None
      | Some sh' => workers have_avx2 params data rest sh'
      end
  end.

(** The loop that counts the hits with [gcd == 1]. *)
Definition count_primitive (hits : list BealHit.t) : Z :=
  fold_left (fun n h => if BealHit.gcd h =? 1 then U64.add n 1 else n) hits 0.

(** The statements after the parallel region, up to [log_complete]. *)
Definition finalize (sh : Shared.t) : SearchResults.t :=
  let results := Shared.results sh in
  SearchResults.mk
    (Shared.global_tested sh) (Shared.global_gcd_skips sh)
    (Shared.global_mod_skips sh) (Shared.global_exact_checks sh)
    (SearchResults.hits_count results)
    (count_primitive (SearchResults.hits results))
    (SearchResults.hits results) (SearchResults.hits_capacity results).

(** [search_parallel]: the results it leaves and the COMPLETE record it
    logs.  [None]: the call does not return. *)
Definition search_parallel (env : Env.t) (params : SearchParams.t)
    : option (SearchResults.t * option CompleteRecord.t) :=
  let results := results_init in
  match
    precompute_create (Env.alloc_ok env)
      (SearchParams.x params) (SearchParams.y params) (SearchParams.z params)
      (SearchParams.A_max params) (SearchParams.B_max params)
  with
  | None => None
  | Some None => Some (results, None)
  | Some (Some data) =>
      let run_id := Env.clock env in
      match
        workers (Env.have_avx2 env) params data (Env.schedule env)
                (Shared.mk 0 0 0 0 results)
      with
      | None => None
      | Some sh =>
          let results := finalize sh in
          Some (results,
                log_complete (Env.fopen_ok env) (SearchParams.log_path params)
                             run_id params results)
      end
  end.

(** ** The search as a run of events

    A run that returns is a sequence of three kinds of steps: the pipeline
    for a pair, the atomic additions that end an A, and the merge that ends
    a worker.  [pair_step] is the pipeline with the scalar sieve's decision;
    the 8-lane path takes the same decision ([b_loop_pairs]). *)

Definition pair_step (have_avx2 : bool) (params : SearchParams.t)
    (data : PrecomputedData.t) (A : Z) (st : Iter.t) (B : Z) : Iter.t :=
  pair_body have_avx2 params (sieve_survives_scalar A B data) A B st.

(** The hit that the pipeline builds from the verifier's outputs. *)
Definition hit_of (params : SearchParams.t) (A B : Z) : BealHit.t :=
  let out := snd (check_beal_hit_gmp A B (SearchParams.x params)
                    (SearchParams.y params) (SearchParams.z params)
                    (SearchParams.C_max params) (Outs.mk 0 0)) in
  BealHit.mk A B (Outs.out_C out) (Outs.out_gcd out)
             (SearchParams.x params) (SearchParams.y params)
             (SearchParams.z params).

Definition verifies (params : SearchParams.t) (A B : Z) : bool :=
  fst (check_beal_hit_gmp A B (SearchParams.x params) (SearchParams.y params)
         (SearchParams.z params) (SearchParams.C_max params) (Outs.mk 0 0)).

Inductive event : Type :=
| EvPair (A B : Z)
| EvEndA
| EvEndWorker.

Module Machine.
  (** A worker's loop state together with the four atomic counters. *)
Record t : Type := mk {
    iter : Iter.t;
    global_tested : Z;
    global_gcd_skips : Z;
    global_mod_skips : Z;
    global_exact_checks : Z
  }.
End Machine.

Definition ev_step (have_avx2 : bool) (params : SearchParams.t)
    (data : PrecomputedData.t) (m : Machine.t) (e : event) : Machine.t :=
  let it := Machine.iter m in
  match e with
  | EvPair A B =>
      Machine.mk (pair_step have_avx2 params data A it B)
                 (Machine.global_tested m) (Machine.global_gcd_skips m)
                 (Machine.global_mod_skips m) (Machine.global_exact_checks m)
  | EvEndA =>
      Machine.mk (Iter.mk 0 0 0 0 (Iter.local_hits it) (Iter.results it))
                 (U64.add (Machine.global_tested m) (Iter.a_tested it))
                 (U64.add (Machine.global_gcd_skips m) (Iter.a_gcd it))
                 (U64.add (Machine.global_mod_skips m) (Iter.a_mod it))
                 (U64.add (Machine.global_exact_checks m) (Iter.a_exact it))
  | EvEndWorker =>
      Machine.mk (Iter.mk (Iter.a_tested it) (Iter.a_gcd it) (Iter.a_mod it)
                          (Iter.a_exact it) []
                          (flush_hits (Iter.local_hits it) (Iter.results it)))
                 (Machine.global_tested m) (Machine.global_gcd_skips m)
                 (Machine.global_mod_skips m) (Machine.global_exact_checks m)
  end.

(** Counters that split a total, in 64-bit arithmetic. *)
Definition splits (t g m e : Z) : Prop :=
  0 <= t < U64.modulus /\ (g + m + e) mod U64.modulus = t.

Definition a_events (params : SearchParams.t) (A : Z) : list event :=
  map (EvPair A)
      (zrange (SearchParams.B_start params) (SearchParams.B_max params))
  ++ [EvEndA].

Definition worker_events (params : SearchParams.t) (As : list Z) : list event :=
  flat_map (a_events params) As ++ [EvEndWorker].

Definition events (params : SearchParams.t) (schedule : list (list Z))
    : list event :=
  flat_map (worker_events params) schedule.

Definition machine_of (w : list BealHit.t * Shared.t) : Machine.t :=
  Machine.mk (Iter.mk 0 0 0 0 (fst w) (Shared.results (snd w)))
             (Shared.global_tested (snd w)) (Shared.global_gcd_skips (snd w))
             (Shared.global_mod_skips (snd w))
             (Shared.global_exact_checks (snd w)).

Definition shared_of (m : Machine.t) : Shared.t :=
  Shared.mk (Machine.global_tested m) (Machine.global_gcd_skips m)
            (Machine.global_mod_skips m) (Machine.global_exact_checks m)
            (Iter.results (Machine.iter m)).

Definition machine_init : Machine.t :=
  Machine.mk (Iter.mk 0 0 0 0 [] results_init) 0 0 0 0.

(** The pairs of the As that are finished, and the pairs since the last
    end of an A. *)
Definition tally_step (dp : Z * Z) (e : event) : Z * Z :=
  match e with
  | EvPair _ _ => (fst dp, snd dp + 1)
  | EvEndA => (fst dp + snd dp, 0)
  | EvEndWorker => dp
  end.

Definition tally (l : list event) : Z * Z := fold_left tally_step l (0, 0).

(** The number of pairs in the rectangle that a schedule covers. *)
Definition scheduled_pairs (params : SearchParams.t)
    (schedule : list (list Z)) : Z :=
  Z.of_nat (List.length (concat schedule))
  * Z.max 0 (SearchParams.B_max params - SearchParams.B_start params + 1).

(** A pair that passes the gcd gate, the sieve and the verifier. *)
Definition accepted (params : SearchParams.t) (data : PrecomputedData.t)
    (A B : Z) : Prop :=
  gcd64 A B <= 1 /\ sieve_survives_scalar A B data = true
  /\ verifies params A B = true.

(** A hit that records a coprime solution of the equation inside the
    searched rectangle. *)
Definition genuine_hit (params : SearchParams.t) (h : BealHit.t) : Prop :=
  BealHit.x h = SearchParams.x params /\ BealHit.y h = SearchParams.y params
  /\ BealHit.z h = SearchParams.z params
  /\ SearchParams.A_start params <= BealHit.A h <= SearchParams.A_max params
  /\ SearchParams.B_start params <= BealHit.B h <= SearchParams.B_max params
  /\ 1 <= BealHit.C h <= SearchParams.C_max params
  /\ BealHit.A h ^ BealHit.x h + BealHit.B h ^ BealHit.y h
     = BealHit.C h ^ BealHit.z h
  /\ Z.gcd (BealHit.A h) (BealHit.B h) = 1
  /\ BealHit.gcd h = 1.

Definition good_event (params : SearchParams.t) (e : event) : Prop :=
  match e with
  | EvPair A B =>
      SearchParams.A_start params <= A <= SearchParams.A_max params
      /\ SearchParams.B_start params <= B <= SearchParams.B_max params
  | _ => True
  end.

(** Parameters that [main] lets through, within their C types. *)
Definition valid_params (params : SearchParams.t) : Prop :=
  3 <= SearchParams.x params < U32.modulus
  /\ 3 <= SearchParams.y params < U32.modulus
  /\ 3 <= SearchParams.z params < U32.modulus
  /\ 1 <= SearchParams.A_start params <= SearchParams.A_max params
  /\ SearchParams.A_max params < U64.modulus
  /\ 1 <= SearchParams.B_start params <= SearchParams.B_max params
  /\ SearchParams.B_max params < U64.modulus
  /\ U64.in_range (SearchParams.C_max params).

Definition a_splits (m : Machine.t) : Prop :=
  splits (Iter.a_tested (Machine.iter m)) (Iter.a_gcd (Machine.iter m))
         (Iter.a_mod (Machine.iter m)) (Iter.a_exact (Machine.iter m))
  /\ splits (Machine.global_tested m) (Machine.global_gcd_skips m)
            (Machine.global_mod_skips m) (Machine.global_exact_checks m).

Definition counts_exact (pre : list event) (m : Machine.t) : Prop :=
  let it := Machine.iter m in
  fst (tally pre) + snd (tally pre) < U64.modulus ->
  Iter.a_tested it = snd (tally pre)
  /\ Machine.global_tested m = fst (tally pre)
  /\ 0 <= Iter.a_gcd it /\ 0 <= Iter.a_mod it /\ 0 <= Iter.a_exact it
  /\ Iter.a_gcd it + Iter.a_mod it + Iter.a_exact it = Iter.a_tested it
  /\ 0 <= Machine.global_gcd_skips m /\ 0 <= Machine.global_mod_skips m
  /\ 0 <= Machine.global_exact_checks m
  /\ Machine.global_gcd_skips m + Machine.global_mod_skips m
     + Machine.global_exact_checks m = Machine.global_tested m
  /\ Z.of_nat (List.length (Iter.local_hits it))
     + Z.of_nat (List.length (SearchResults.hits (Iter.results it)))
     <= Iter.a_exact it + Machine.global_exact_checks m.

Definition hits_genuine (params : SearchParams.t) (m : Machine.t) : Prop :=
  Forall (genuine_hit params) (Iter.local_hits (Machine.iter m))
  /\ Forall (genuine_hit params)
            (SearchResults.hits (Iter.results (Machine.iter m))).

(** Once a pair has been accepted, a hit is held in the worker's buffer or
    in the results. *)
Definition hit_kept (params : SearchParams.t) (data : PrecomputedData.t)
    (pre : list event) (m : Machine.t) : Prop :=
  (exists A B, In (EvPair A B) pre /\ accepted params data A B) ->
  0 < Z.of_nat (List.length (Iter.local_hits (Machine.iter m)))
      + Z.of_nat (List.length
                    (SearchResults.hits (Iter.results (Machine.iter m)))).

(** A small search: signature (3, 3, 4) over A, B in 1..2, and a usage
    error (an exponent below 3). *)
Definition sample_params : SearchParams.t :=
  SearchParams.mk 3 3 4 1 2 1 2 1000 0 0 (Some "run.jsonl"%string).

Definition sample_bad_params : SearchParams.t :=
  SearchParams.mk 2 3 4 1 2 1 2 1000 0 0 None.

Definition sample_env : Env.t := Env.mk false true true 7 [[1; 2]].

(** The stage at which the pipeline leaves a pair: 0 at the gcd gate, 1 at
    the sieve, 2 at the verifier. *)
Definition pair_stage (data : PrecomputedData.t) (A B : Z) : Z :=
  if 1 <? gcd64 A B then 0
  else if sieve_survives_scalar A B data then 2 else 1.

Definition stage_tally_step (data : PrecomputedData.t) (c : Z) (dp : Z * Z)
    (e : event) : Z * Z :=
  match e with
  | EvPair A B => if pair_stage data A B =? c then (fst dp, snd dp + 1) else dp
  | EvEndA => (fst dp + snd dp, 0)
  | EvEndWorker => dp
  end.

Definition stage_tally (data : PrecomputedData.t) (c : Z) (l : list event)
    : Z * Z :=
  fold_left (stage_tally_step data c) l (0, 0).

(** The pairs of a rectangle that leave the pipeline at stage [c]. *)
Definition stage_count (data : PrecomputedData.t) (c : Z) (As Bs : list Z)
    : Z :=
  Z.of_nat (List.length
              (filter (fun AB => pair_stage data (fst AB) (snd AB) =? c)
                      (list_prod As Bs))).

Definition stages_exact (data : PrecomputedData.t) (pre : list event)
    (m : Machine.t) : Prop :=
  let it := Machine.iter m in
  fst (tally pre) + snd (tally pre) < U64.modulus ->
  Iter.a_gcd it = snd (stage_tally data 0 pre)
  /\ Machine.global_gcd_skips m = fst (stage_tally data 0 pre)
  /\ Iter.a_mod it = snd (stage_tally data 1 pre)
  /\ Machine.global_mod_skips m = fst (stage_tally data 1 pre)
  /\ Iter.a_exact it = snd (stage_tally data 2 pre)
  /\ Machine.global_exact_checks m = fst (stage_tally data 2 pre).

(** The shared hit array holds its count: the capacity has not fallen
    below the 64 entries it starts with, and it is between the count and
    twice the count. *)
Definition capacity_ok (r : SearchResults.t) : Prop :=
  SearchResults.hits_count r < 2 ^ 62 ->
  64 <= SearchResults.hits_capacity r
  /\ SearchResults.hits_count r <= SearchResults.hits_capacity r
  /\ SearchResults.hits_capacity r
     <= Z.max 64 (2 * SearchResults.hits_count r).

(** [sizeof(BealHit)] on LP64: four [uint64_t] and three [uint32_t], padded
    to the alignment of 8. *)
Definition sizeof_BealHit : Z := 48.

(** The size in bytes that [results_init] and [results_add_hit] ask for,
    [hits_capacity * sizeof(BealHit)] in [size_t]. *)
Definition hits_alloc_size (capacity : Z) : Z :=
  U64.mul capacity sizeof_BealHit.

Definition buffers_ok (m : Machine.t) : Prop :=
  Z.of_nat (List.length (Iter.local_hits (Machine.iter m))) <= 64
  /\ capacity_ok (Iter.results (Machine.iter m)).

(** ** The cross-validation tools (export of survivors, sieve test) *)

Module ExportOutput.
(** What [export_survivors] prints: the pairs, in the order printed, and the
    final count; with the exit code. *)
Record t : Type := mk {
  exit_code : Z;
  survivors : list (Z * Z);
  count : Z
}.
End ExportOutput.

(** [main] of the export tool after [atoi] and [strtoull]. *)
Definition export_survivors (alloc_ok : bool) (argc : Z)
    (x y z A_max B_max : Z) : option ExportOutput.t :=
  if argc <? 6 then Some (ExportOutput.mk 1 [] 0)
  else
    match precompute_create alloc_ok x y z A_max B_max with
    | None => None
    | Some None => Some (ExportOutput.mk 1 [] 0)
    | Some (Some data) =>
        match
          for_u64 1 A_max 1
            (fun A st =>
               for_u64 1 B_max 1
                 (fun B st =>
                    Some (if 1 <? gcd64 A B then st
                          else if negb (sieve_survives_scalar A B data) then st
                          else (fst st ++ [(A, B)], U64.add (snd st) 1)))
                 st)
            ([], 0)
        with
        | None => None
        | Some (pairs, count) => Some (ExportOutput.mk 0 pairs count)
        end
    end.

Module SieveTest.
(** The four counters that the sieve test prints. *)
Record t : Type := mk {
  tested : Z;
  gcd_filtered : Z;
  sieve_filtered : Z;
  survivors : Z
}.
End SieveTest.

Definition sieve_test_step (data : PrecomputedData.t) (st : SieveTest.t)
    (AB : Z * Z) : SieveTest.t :=
  let tested := U64.add (SieveTest.tested st) 1 in
  if 1 <? gcd64 (fst AB) (snd AB) then
    SieveTest.mk tested (U64.add (SieveTest.gcd_filtered st) 1)
                 (SieveTest.sieve_filtered st) (SieveTest.survivors st)
  else if negb (sieve_survives_scalar (fst AB) (snd AB) data) then
    SieveTest.mk tested (SieveTest.gcd_filtered st)
                 (U64.add (SieveTest.sieve_filtered st) 1)
                 (SieveTest.survivors st)
  else
    SieveTest.mk tested (SieveTest.gcd_filtered st)
                 (SieveTest.sieve_filtered st)
                 (U64.add (SieveTest.survivors st) 1).

(** [main] of the sieve test once the signature and the bounds are chosen
    (the defaults 4, 5, 6 and 1000, 1000, or the arguments): the exit code
    and the counters printed. *)
Definition test_sieve (alloc_ok : bool) (x y z A_max B_max : Z)
    : option (Z * option SieveTest.t) :=
  match precompute_create alloc_ok x y z A_max B_max with
  | None => None
  | Some None => Some (1, None)
  | Some (Some data) =>
      match
        for_u64 1 A_max 1
          (fun A st =>
             for_u64 1 B_max 1
               (fun B st => Some (sieve_test_step data st (A, B)))
               st)
          (SieveTest.mk 0 0 0 0)
      with
      | None => None
      | Some st => Some (0, Some st)
      end
  end.

(** ** The entry point (main.c) *)

Module MainResult.
  (** The exit code, and the results of the search when [search_parallel]
      was called. *)
Record t : Type := mk {
    exit_code : Z;
    searched : option SearchResults.t
  }.
End MainResult.

(** [main] after the options are parsed into [params], outside validation
    mode ([--validate] was not given). *)
Definition main (env : Env.t) (params : SearchParams.t) : option MainResult.t :=
  if (SearchParams.x params <? 3) || (SearchParams.y params <? 3)
     || (SearchParams.z params <? 3)
  then Some (MainResult.mk 1 None)
  else if (SearchParams.A_start params <? 1) || (SearchParams.B_start params <? 1)
  then Some (MainResult.mk 1 None)
  else if (SearchParams.A_max params <? SearchParams.A_start params)
          || (SearchParams.B_max params <? SearchParams.B_start params)
  then Some (MainResult.mk 1 None)
  else
    match search_parallel env params with
    | None => None
    | Some (results, _) =>
        Some (MainResult.mk
                (if 0 <? SearchResults.primitive_hits results then 42 else 0)
                (Some results))
    end.

Definition usage_error (params : SearchParams.t) : Prop :=
  SearchParams.x params < 3 \/ SearchParams.y params < 3
  \/ SearchParams.z params < 3
  \/ SearchParams.A_start params < 1 \/ SearchParams.B_start params < 1
  \/ SearchParams.A_max params < SearchParams.A_start params
  \/ SearchParams.B_max params < SearchParams.B_start params.
(** * Machine arithmetic *)

Lemma u64_modulus_eq : U64.modulus = 18446744073709551616.
Proof. reflexivity. Qed.

Lemma u64_wrap_small (v : Z) : 0 <= v < U64.modulus -> U64.wrap v = v.
Proof. intros H. unfold U64.wrap. apply Z.mod_small. exact H. Qed.

Lemma u64_wrap_range (v : Z) : 0 <= U64.wrap v < U64.modulus.
Proof. unfold U64.wrap. apply Z.mod_pos_bound. reflexivity. Qed.

Lemma u64_add_small (a b : Z) :
  0 <= a + b < U64.modulus -> U64.add a b = a + b.
Proof. intros H. unfold U64.add. now apply u64_wrap_small. Qed.

Lemma u64_mul_small (a b : Z) :
  0 <= a * b < U64.modulus -> U64.mul a b = a * b.
Proof. intros H. unfold U64.mul. now apply u64_wrap_small. Qed.

Lemma u64_shl_1 (n : Z) : 0 <= n < 64 -> U64.shl 1 n = 2 ^ n.
Proof.
  intros H. unfold U64.shl. rewrite Z.shiftl_1_l. apply u64_wrap_small.
  split; [apply Z.pow_nonneg; lia|].
  unfold U64.modulus. apply Z.pow_lt_mono_r; lia.
Qed.

(** * Loops *)

(** The monadic fold that a loop without wrap-around amounts to. *)
Lemma for_u64_fuel_S {S : Type} (body : Z -> S -> option S) (fuel : nat)
    (i hi step : Z) (s : S) :
  for_u64_fuel (Datatypes.S fuel) i hi step body s
  = if i <=? hi then
      match body i s with
      | Some s' => for_u64_fuel fuel (U64.add i step) hi step body s'
      | None => None
      end
    else Some s.
Proof. reflexivity. Qed.

Lemma for_u64_fuel_run {S : Type} (body : Z -> S -> option S) (hi step : Z) :
  0 < step ->
  forall (n : nat) (extra : nat) (i : Z) (s : S),
    0 <= i ->
    (forall k, (k < n)%nat -> i + step * Z.of_nat k <= hi) ->
    hi < i + step * Z.of_nat n ->
    i + step * Z.of_nat n < U64.modulus ->
    for_u64_fuel (Datatypes.S (n + extra)) i hi step body s
    = fold_opt body (map (fun k => i + step * Z.of_nat k) (seq 0 n)) s.
Proof.
  intros Hstep n. induction n as [|n IH]; intros extra i s Hi Hle Hgt Hmax;
    rewrite for_u64_fuel_S.
  - cbn [seq map fold_opt].
    destruct (Z.leb_spec i hi); [lia | reflexivity].
  - assert (H0 : i <= hi).
    { specialize (Hle 0%nat). rewrite Z.mul_0_r, Z.add_0_r in Hle. apply Hle. lia. }
    destruct (Z.leb_spec i hi); [|lia].
    cbn [seq map fold_opt]. rewrite Z.mul_0_r, Z.add_0_r.
    destruct (body i s) as [s'|]; [|reflexivity].
    rewrite u64_add_small by lia.
    cbn [Nat.add]. rewrite IH.
    + f_equal. rewrite <- seq_shift, map_map. apply map_ext. intros k. lia.
    + lia.
    + intros k Hk. specialize (Hle (Datatypes.S k)). lia.
    + lia.
    + lia.
Qed.

Lemma for_u64_spec {S : Type} (body : Z -> S -> option S) (lo hi step : Z)
    (s : S) :
  0 < step -> 0 <= lo ->
  (lo <= hi -> lo + step * ((hi - lo) / step + 1) < U64.modulus) ->
  for_u64 lo hi step body s = fold_opt body (zrange_step lo hi step) s.
Proof.
  intros Hstep Hlo Hmax. unfold for_u64, for_u64_tests, zrange_step.
  destruct (Z.leb_spec lo hi) as [Hle|Hgt].
  - specialize (Hmax Hle).
    assert (Hq : 0 <= (hi - lo) / step) by (apply Z.div_pos; lia).
    pose proof (Z.mul_div_le (hi - lo) step Hstep) as Hd1.
    pose proof (Z.mul_succ_div_gt (hi - lo) step Hstep) as Hd2.
    replace (Z.to_nat ((hi - lo) / step + 2))
      with (Datatypes.S (Z.to_nat ((hi - lo) / step + 1) + 0)) by lia.
    apply for_u64_fuel_run; try lia.
    intros k Hk.
    assert (Z.of_nat k <= (hi - lo) / step) by lia. nia.
  - cbn. destruct (Z.leb_spec lo hi); [lia | reflexivity].
Qed.

Lemma for_u64_unit_spec {S : Type} (body : Z -> S -> option S) (lo hi : Z)
    (s : S) :
  0 <= lo -> hi < U64.max ->
  for_u64 lo hi 1 body s = fold_opt body (zrange lo hi) s.
Proof.
  intros Hlo Hhi. apply for_u64_spec; try lia.
  intros Hle. rewrite Z.div_1_r. unfold U64.max in Hhi. lia.
Qed.

Lemma in_zrange (lo hi v : Z) : In v (zrange lo hi) <-> lo <= v <= hi.
Proof.
  unfold zrange, zrange_step. destruct (Z.leb_spec lo hi) as [Hle|Hgt].
  - rewrite Z.div_1_r, in_map_iff. split.
    + intros (k & <- & Hk). apply in_seq in Hk. lia.
    + intros Hv. exists (Z.to_nat (v - lo)). split; [lia|].
      apply in_seq. lia.
  - cbn. lia.
Qed.

Lemma fold_opt_pure {S : Type} (f : Z -> S -> S) (l : list Z) (s : S) :
  fold_opt (fun i s => Some (f i s)) l s
  = Some (fold_left (fun s i => f i s) l s).
Proof.
  revert s. induction l as [|i l IH]; intros s; cbn; [reflexivity | apply IH].
Qed.

(** * powmod *)

Lemma powmod_loop_S (fuel : nat) (result base exp m : Z) (products : list Z) :
  powmod_loop (Datatypes.S fuel) result base exp m products
  = if 0 <? exp then
      let odd := negb (Z.land exp 1 =? 0) in
      powmod_loop fuel
        (if odd then U64.mul result base mod m else result)
        (U64.mul base base mod m) (Z.shiftr exp 1) m
        ((if odd then products ++ [result * base] else products)
           ++ [base * base])
    else (result, products).
Proof. reflexivity. Qed.

Lemma land_1_mod2 (e : Z) : Z.land e 1 = e mod 2.
Proof. change 1 with (Z.ones 1) at 1. rewrite Z.land_ones by lia. reflexivity. Qed.

Lemma mod_mul_pow (a b q m : Z) :
  0 < m -> (a mod m * (b mod m) ^ q) mod m = (a * b ^ q) mod m.
Proof.
  intros Hm.
  rewrite (Z.mul_mod (a mod m)), Z.mod_mod, Z.mod_pow_l, <- Z.mul_mod; lia.
Qed.

Lemma small_product (a b : Z) :
  0 <= a < 2 ^ 32 -> 0 <= b < 2 ^ 32 -> 0 <= a * b < U64.modulus.
Proof. intros Ha Hb. rewrite u64_modulus_eq. nia. Qed.

Lemma pow_halves (b e : Z) :
  0 < e -> b ^ e = (b * b) ^ (e / 2) * b ^ (e mod 2).
Proof.
  intros He.
  rewrite (Z.div_mod e 2) at 1 by lia.
  pose proof (Z.mod_pos_bound e 2 ltac:(lia)).
  assert (0 <= e / 2) by (apply Z.div_pos; lia).
  rewrite Z.pow_add_r, Z.pow_mul_r by lia.
  f_equal. f_equal. lia.
Qed.

Lemma powmod_loop_result (fuel : nat) :
  forall result base exp m products,
    1 <= m <= 2 ^ 32 -> 0 <= base < m -> 0 <= result < 2 ^ 32 ->
    0 <= exp < 2 ^ Z.of_nat fuel ->
    fst (powmod_loop fuel result base exp m products)
    = if exp =? 0 then result else (result * base ^ exp) mod m.
Proof.
  induction fuel as [|fuel IH]; intros result base exp m products Hm Hb Hr He.
  - cbn in He. assert (exp = 0) by lia. subst exp. reflexivity.
  - rewrite powmod_loop_S. destruct (Z.ltb_spec 0 exp) as [Hpos|Hz].
    2:{ assert (exp = 0) by lia. subst exp. reflexivity. }
    destruct (Z.eqb_spec exp 0) as [?|_]; [lia|].
    cbv zeta. rewrite land_1_mod2, Z.shiftr_div_pow2, Z.pow_1_r by lia.
    pose proof (Z.mod_pos_bound exp 2 ltac:(lia)) as Hmod.
    pose proof (Z.div_mod exp 2 ltac:(lia)) as Hdm.
    assert (Hq : 0 <= exp / 2 < 2 ^ Z.of_nat fuel).
    { rewrite Nat2Z.inj_succ, Z.pow_succ_r in He by lia. lia. }
    assert (Hbb : 0 <= U64.mul base base mod m < m)
      by (apply Z.mod_pos_bound; lia).
    rewrite (u64_mul_small base base) in * by (apply small_product; lia).
    rewrite (pow_halves base exp Hpos).
    destruct (Z.eqb_spec (exp mod 2) 0) as [Hev|Hodd]; cbn [negb].
    + rewrite IH by lia. rewrite Hev, Z.pow_0_r, Z.mul_1_r.
      destruct (Z.eqb_spec (exp / 2) 0) as [Hq0|Hq0]; [lia|].
      rewrite <- (mod_mul_pow result (base * base)) by lia.
      rewrite (Z.mul_mod (result mod m)), Z.mod_mod by lia.
      rewrite <- Z.mul_mod by lia. reflexivity.
    + assert (Hone : exp mod 2 = 1) by lia.
      rewrite (u64_mul_small result base) by (apply small_product; lia).
      assert (Hrb : 0 <= (result * base) mod m < m)
        by (apply Z.mod_pos_bound; lia).
      rewrite IH by lia. rewrite Hone, Z.pow_1_r.
      destruct (Z.eqb_spec (exp / 2) 0) as [Hq0|Hq0].
      * rewrite Hq0, Z.pow_0_r, Z.mul_1_l. reflexivity.
      * rewrite mod_mul_pow by lia. f_equal. ring.
Qed.

Lemma powmod_loop_products (fuel : nat) :
  forall result base exp m products,
    1 <= m <= 2 ^ 32 -> 0 <= base < m -> 0 <= result < 2 ^ 32 ->
    Forall (fun q => 0 <= q < U64.modulus) products ->
    Forall (fun q => 0 <= q < U64.modulus)
           (snd (powmod_loop fuel result base exp m products)).
Proof.
  induction fuel as [|fuel IH]; intros result base exp m products Hm Hb Hr Hps.
  - exact Hps.
  - rewrite powmod_loop_S. destruct (Z.ltb_spec 0 exp) as [Hpos|Hz]; [|exact Hps].
    cbv zeta.
    assert (Hbb : 0 <= U64.mul base base mod m < m)
      by (apply Z.mod_pos_bound; lia).
    assert (Hrb : 0 <= U64.mul result base mod m < m)
      by (apply Z.mod_pos_bound; lia).
    apply IH; try lia.
    + destruct (negb (Z.land exp 1 =? 0)); lia.
    + apply Forall_app. split.
      * destruct (negb (Z.land exp 1 =? 0)); [|exact Hps].
        apply Forall_app. split; [exact Hps|].
        constructor; [apply small_product; lia | constructor].
      * constructor; [apply small_product; lia | constructor].
Qed.

(** [powmod] on the moduli whose residues multiply inside 64 bits. *)
Lemma powmod_spec (base exp m : Z) :
  1 <= m <= 2 ^ 32 -> 0 <= exp < 2 ^ 32 -> 2 <= m \/ 1 <= exp ->
  powmod base exp m = base ^ exp mod m.
Proof.
  intros Hm He Hne. unfold powmod, powmod_trace. cbv zeta.
  assert (Hb : 0 <= base mod m < m) by (apply Z.mod_pos_bound; lia).
  assert (He' : 0 <= exp < 2 ^ Z.of_nat 32) by (change (Z.of_nat 32) with 32; lia).
  rewrite (powmod_loop_result 32 1 (base mod m) exp m [] Hm Hb ltac:(lia) He').
  destruct (Z.eqb_spec exp 0) as [->|Hnz].
  - rewrite Z.pow_0_r, Z.mod_1_l by lia. reflexivity.
  - rewrite Z.mul_1_l. apply Z.mod_pow_l.
Qed.

Lemma powmod_range (base exp m : Z) :
  1 <= m <= 2 ^ 32 -> 0 <= exp < 2 ^ 32 -> 2 <= m \/ 1 <= exp ->
  0 <= powmod base exp m < m.
Proof.
  intros Hm He Hne. rewrite powmod_spec by assumption.
  apply Z.mod_pos_bound. lia.
Qed.

Lemma powmod_products_fit (base exp m : Z) :
  1 <= m <= 2 ^ 32 ->
  Forall (fun q => 0 <= q < U64.modulus) (powmod_products base exp m).
Proof.
  intros Hm. unfold powmod_products, powmod_trace. cbv zeta.
  apply powmod_loop_products; try lia.
  - apply Z.mod_pos_bound. lia.
  - constructor.
Qed.

Lemma powmod_reduces_base (base exp m : Z) :
  0 < m -> powmod base exp m = powmod (base mod m) exp m.
Proof.
  intros Hm. unfold powmod, powmod_trace. cbv zeta.
  rewrite Z.mod_mod by lia. reflexivity.
Qed.

(** * 128-bit masks *)

Lemma land_pow2_eqb (w b : Z) :
  0 <= b -> (Z.land w (2 ^ b) =? 0) = negb (Z.testbit w b).
Proof.
  intros Hb. destruct (Z.testbit w b) eqn:Hbit; cbn [negb].
  - apply Z.eqb_neq. intros H0.
    assert (Ht : Z.testbit (Z.land w (2 ^ b)) b = true).
    { rewrite Z.land_spec, Hbit, Z.pow2_bits_true by lia. reflexivity. }
    rewrite H0, Z.bits_0 in Ht. discriminate.
  - apply Z.eqb_eq. apply Z.bits_inj'. intros n Hn.
    rewrite Z.land_spec, Z.bits_0, Z.pow2_bits_eqb by lia.
    destruct (Z.eqb_spec b n) as [->|_];
      [rewrite Hbit; reflexivity | apply andb_false_r].
Qed.

Lemma get_bit128_testbit (mask : Mask128.t) (bit : Z) :
  0 <= bit < 128 -> get_bit128 mask bit = mask_bit mask bit.
Proof.
  intros Hb. unfold get_bit128, mask_bit.
  destruct (Z.ltb_spec bit 64).
  - rewrite u64_shl_1, land_pow2_eqb, negb_involutive by lia. reflexivity.
  - rewrite u64_shl_1, land_pow2_eqb, negb_involutive by lia. reflexivity.
Qed.

Lemma mask_bit_set (mask : Mask128.t) (b c : Z) :
  0 <= b < 128 -> 0 <= c < 128 ->
  mask_bit (set_bit128 mask b) c = (b =? c) || mask_bit mask c.
Proof.
  intros Hb Hc. unfold set_bit128, mask_bit.
  destruct (Z.ltb_spec b 64); destruct (Z.ltb_spec c 64); cbn [Mask128.word0 Mask128.word1].
  - rewrite u64_shl_1, Z.lor_spec, Z.pow2_bits_eqb by lia. apply orb_comm.
  - destruct (Z.eqb_spec b c); [lia | reflexivity].
  - destruct (Z.eqb_spec b c); [lia | reflexivity].
  - rewrite u64_shl_1, Z.lor_spec, Z.pow2_bits_eqb by lia.
    rewrite orb_comm. f_equal.
    destruct (Z.eqb_spec (b - 64) (c - 64)); destruct (Z.eqb_spec b c);
      try reflexivity; lia.
Qed.

Lemma get_bit128_set (mask : Mask128.t) (b c : Z) :
  0 <= b < 128 -> 0 <= c < 128 ->
  get_bit128 (set_bit128 mask b) c = (b =? c) || get_bit128 mask c.
Proof.
  intros Hb Hc. rewrite !get_bit128_testbit by assumption.
  now apply mask_bit_set.
Qed.

Lemma get_bit128_zero (c : Z) : get_bit128 Mask128.zero c = false.
Proof.
  unfold get_bit128, Mask128.zero. cbn [Mask128.word0 Mask128.word1].
  rewrite !Z.land_0_l. destruct (c <? 64); reflexivity.
Qed.

(** * The residue masks *)

Lemma residue_fold_bit (f : Z -> Z) (l : list Z) (c : Z) :
  0 <= c < 128 ->
  (forall r, In r l -> 0 <= f r < 128) ->
  forall mask,
    get_bit128 (fold_left (fun mask r => set_bit128 mask (f r)) l mask) c
    = get_bit128 mask c || existsb (fun r => f r =? c) l.
Proof.
  intros Hc. induction l as [|r l IH]; intros Hf mask.
  - cbn. now rewrite orb_false_r.
  - cbn [fold_left existsb]. rewrite IH by (intros; apply Hf; now right).
    rewrite get_bit128_set by (try apply Hf; try (now left); lia).
    destruct (f r =? c), (get_bit128 mask c); reflexivity.
Qed.

(** Bit [c] of the mask is set exactly for the z-th power residues. *)
Lemma residue_mask_bit (p z c : Z) :
  2 <= p <= 128 -> 0 <= z < 2 ^ 32 -> 0 <= c < 128 ->
  get_bit128 (compute_residue_mask128 p z) c = true
  <-> exists s, 0 <= s < p /\ s ^ z mod p = c.
Proof.
  intros Hp Hz Hc. unfold compute_residue_mask128.
  assert (Hpm : 1 <= p <= 2 ^ 32) by lia.
  assert (Hrange : forall r, 0 <= U32.wrap (powmod r z p) < 128
                             /\ U32.wrap (powmod r z p) = r ^ z mod p).
  { intros r.
    pose proof (powmod_range r z p Hpm Hz ltac:(lia)) as Hr.
    rewrite <- (powmod_spec r z p Hpm Hz ltac:(lia)).
    unfold U32.wrap, U32.modulus. rewrite Z.mod_small by lia. lia. }
  rewrite (residue_fold_bit (fun r => U32.wrap (powmod r z p)))
    by (try assumption; intros; apply Hrange).
  rewrite get_bit128_zero, orb_false_l, existsb_exists. split.
  - intros (s & Hin & Heq). apply in_zrange in Hin. apply Z.eqb_eq in Heq.
    exists s. split; [lia|]. now rewrite <- (proj2 (Hrange s)).
  - intros (s & Hs & Heq). exists s. split; [apply in_zrange; lia|].
    apply Z.eqb_eq. now rewrite (proj2 (Hrange s)).
Qed.

Lemma sieve_prime_bounds (p : Z) : In p SIEVE_PRIMES -> 2 <= p <= 71.
Proof.
  unfold SIEVE_PRIMES. cbn [In]. intros H.
  repeat (destruct H as [<-|H]; [lia|]). contradiction.
Qed.

Lemma prime_at_in (i : nat) :
  (i < NUM_SIEVE_PRIMES)%nat -> In (prime_at i) SIEVE_PRIMES.
Proof. intros Hi. unfold prime_at. apply nth_In. exact Hi. Qed.

(** * The precomputed tables *)

Lemma for_u64_fuel_endless {S : Type} (body : Z -> S -> option S) (step : Z)
    (fuel : nat) :
  forall i s, 0 <= i < U64.modulus ->
    for_u64_fuel fuel i U64.max step body s = None.
Proof.
  induction fuel as [|fuel IH]; intros i s Hi; [reflexivity|].
  rewrite for_u64_fuel_S. unfold U64.max.
  destruct (Z.leb_spec i (U64.modulus - 1)); [|lia].
  destruct (body i s); [|reflexivity].
  apply IH. apply u64_wrap_range.
Qed.

(** A unit-step loop that returns has a bound below 2^64 - 1, and then it
    is the fold over the range. *)
Lemma for_u64_unit_returns {S : Type} (body : Z -> S -> option S) (lo hi : Z)
    (s s' : S) :
  0 <= lo < U64.modulus -> hi < U64.modulus ->
  for_u64 lo hi 1 body s = Some s' ->
  hi < U64.max /\ fold_opt body (zrange lo hi) s = Some s'.
Proof.
  intros Hlo Hhi Hrun.
  assert (Hlt : hi < U64.max).
  { destruct (Z.eq_dec hi U64.max) as [->|Hne]; [|unfold U64.max in *; lia].
    unfold for_u64 in Hrun. rewrite for_u64_fuel_endless in Hrun by lia.
    discriminate. }
  split; [exact Hlt|]. rewrite <- Hrun. symmetry.
  apply for_u64_unit_spec; lia.
Qed.

Lemma some_inj {A : Type} (a b : A) : Some a = Some b -> a = b.
Proof. congruence. Qed.

Lemma fold_left_snoc {A B : Type} (f : B -> A) (l : list B) (acc : list A) :
  fold_left (fun acc i => acc ++ [f i]) l acc = acc ++ map f l.
Proof.
  revert acc. induction l as [|i l IH]; intros acc; cbn.
  - now rewrite app_nil_r.
  - rewrite IH, <- app_assoc. reflexivity.
Qed.

Lemma nth_zrange_map {A : Type} (f : Z -> A) (hi v : Z) (d : A) :
  0 <= v <= hi -> nth (Z.to_nat v) (map f (zrange 0 hi)) d = f v.
Proof.
  intros Hv. unfold zrange, zrange_step.
  destruct (Z.leb_spec 0 hi); [|lia].
  rewrite Z.div_1_r, map_map.
  set (g := fun k : nat => f (0 + 1 * Z.of_nat k)).
  assert (Hlt : (Z.to_nat v < Z.to_nat (hi - 0 + 1))%nat) by lia.
  rewrite (nth_indep _ d (g 0%nat)) by (rewrite length_map, length_seq; exact Hlt).
  rewrite (map_nth g), seq_nth by exact Hlt.
  unfold g. f_equal. lia.
Qed.

Lemma nth_prime_indices_map {A : Type} (f : nat -> A) (i : nat) (d : A) :
  (i < NUM_SIEVE_PRIMES)%nat -> nth i (map f prime_indices) d = f i.
Proof.
  intros Hi. unfold prime_indices.
  rewrite (nth_indep _ d (f 0%nat)) by (rewrite length_map, length_seq; exact Hi).
  rewrite (map_nth f), seq_nth by exact Hi. reflexivity.
Qed.

Lemma by_mod_rows_nth (y B_max : Z) :
  0 <= B_max < U64.modulus ->
  forall idxs rows,
    by_mod_rows idxs y B_max = Some rows ->
    B_max < U64.max
    \/ idxs = [].
Proof.
  intros HB idxs rows Hrows. destruct idxs as [|i rest]; [now right|left].
  cbn [by_mod_rows] in Hrows.
  destruct (for_u64 0 B_max 1 _ []) as [row|] eqn:Hrow; [|discriminate].
  apply for_u64_unit_returns in Hrow; [tauto | rewrite u64_modulus_eq; lia | lia].
Qed.

Lemma by_mod_rows_spec (y B_max : Z) :
  0 <= B_max < U64.max ->
  forall idxs,
    by_mod_rows idxs y B_max
    = Some (map (fun i =>
                   map (fun B => U8.wrap (powmod B y (prime_at i)))
                       (zrange 0 B_max))
                idxs).
Proof.
  intros HB idxs. induction idxs as [|i rest IH]; [reflexivity|].
  cbn [by_mod_rows map].
  rewrite for_u64_unit_spec, fold_opt_pure, IH by lia.
  rewrite (fold_left_snoc (fun B => U8.wrap (powmod B y (prime_at i)))).
  reflexivity.
Qed.

(** What the tables of a successful [precompute_create] hold. *)
Lemma precompute_create_tables (alloc_ok : bool) (x y z A_max B_max : Z)
    (data : PrecomputedData.t) :
  U64.in_range A_max -> U64.in_range B_max ->
  precompute_create alloc_ok x y z A_max B_max = Some (Some data) ->
  tables_exact x y z A_max B_max data.
Proof.
  intros HA HB Hpc. unfold U64.in_range in *. unfold precompute_create in Hpc.
  destruct alloc_ok; cbn [negb] in Hpc; [|discriminate].
  destruct (for_u64 0 A_max 1 _ []) as [ax|] eqn:Hax; [|discriminate].
  destruct (by_mod_rows prime_indices y B_max) as [byt|] eqn:Hby; [|discriminate].
  apply for_u64_unit_returns in Hax; [|rewrite u64_modulus_eq; lia | lia].
  destruct Hax as [HAlt Hax].
  destruct (by_mod_rows_nth y B_max HB _ _ Hby) as [HBlt|Hnil];
    [|discriminate Hnil].
  rewrite by_mod_rows_spec in Hby by lia.
  rewrite fold_opt_pure in Hax.
  rewrite (fold_left_snoc
             (fun A => map (fun i => U8.wrap (powmod A x (prime_at i)))
                           prime_indices)) in Hax.
  apply some_inj in Hax. apply some_inj in Hby.
  apply some_inj, some_inj in Hpc. subst ax byt data.
  unfold tables_exact.
  cbn [PrecomputedData.residue_masks PrecomputedData.ax_mod
       PrecomputedData.by_mod PrecomputedData.A_max PrecomputedData.B_max
       PrecomputedData.x PrecomputedData.y PrecomputedData.z app].
  repeat split; try lia.
  - intros i Hi. unfold read_mask. now rewrite nth_prime_indices_map.
  - intros A i HA' Hi. unfold read, read_row.
    rewrite nth_zrange_map by lia. rewrite Nat2Z.id.
    now rewrite nth_prime_indices_map.
  - intros B i HB' Hi. unfold read, read_row. rewrite Nat2Z.id.
    rewrite nth_prime_indices_map by exact Hi.
    now rewrite nth_zrange_map by lia.
Qed.

(** * The sieve *)

Lemma sieve_scalar_from_forallb (idxs : list nat) (A B : Z)
    (data : PrecomputedData.t) :
  sieve_scalar_from idxs A B data
  = forallb (fun i => sieve_prime_admits i A B data) idxs.
Proof.
  induction idxs as [|i rest IH]; [reflexivity|].
  cbn [sieve_scalar_from forallb]. rewrite IH.
  destruct (sieve_prime_admits i A B data); reflexivity.
Qed.

Lemma in_prime_indices (i : nat) :
  In i prime_indices <-> (i < NUM_SIEVE_PRIMES)%nat.
Proof. unfold prime_indices. rewrite in_seq. lia. Qed.

Lemma u8_wrap_small (v : Z) : 0 <= v < 256 -> U8.wrap v = v.
Proof. intros H. unfold U8.wrap, U8.modulus. apply Z.mod_small. exact H. Qed.

(** With exact tables, prime [i] admits the pair exactly when the residue
    of A^x + B^y is a z-th power residue. *)
Lemma sieve_prime_admits_exact (x y z A_max B_max : Z)
    (data : PrecomputedData.t) (i : nat) (A B : Z) :
  tables_exact x y z A_max B_max data ->
  0 <= x < 2 ^ 32 -> 0 <= y < 2 ^ 32 -> 0 <= z < 2 ^ 32 ->
  0 <= A <= A_max -> 0 <= B <= B_max -> (i < NUM_SIEVE_PRIMES)%nat ->
  sieve_prime_admits i A B data = true
  <-> exists s, 0 <= s < prime_at i
                /\ s ^ z mod prime_at i = (A ^ x + B ^ y) mod prime_at i.
Proof.
  intros (_ & _ & _ & _ & _ & _ & _ & Hmask & Hax & Hby) Hx Hy Hz HA HB Hi.
  pose proof (sieve_prime_bounds _ (prime_at_in i Hi)) as Hp.
  unfold sieve_prime_admits. cbv zeta.
  rewrite Hmask, Hax, Hby by assumption.
  set (p := prime_at i) in *.
  assert (Hpm : 1 <= p <= 2 ^ 32) by lia.
  pose proof (powmod_range A x p Hpm Hx ltac:(lia)) as Hra.
  pose proof (powmod_range B y p Hpm Hy ltac:(lia)) as Hrb.
  rewrite !u8_wrap_small by lia.
  assert (Hsum : (if p <=? powmod A x p + powmod B y p
                  then powmod A x p + powmod B y p - p
                  else powmod A x p + powmod B y p)
                 = (A ^ x + B ^ y) mod p).
  { rewrite Z.add_mod by lia.
    rewrite <- (powmod_spec A x p), <- (powmod_spec B y p) by lia.
    destruct (Z.leb_spec p (powmod A x p + powmod B y p)).
    - apply Z.mod_unique with (q := 1); lia.
    - symmetry. apply Z.mod_small. lia. }
  rewrite Hsum.
  pose proof (Z.mod_pos_bound (A ^ x + B ^ y) p ltac:(lia)).
  apply residue_mask_bit; lia.
Qed.

(** The sieve keeps every pair whose sum of powers is a z-th power. *)
Lemma sieve_keeps_solutions (x y z A_max B_max : Z) (data : PrecomputedData.t)
    (A B C : Z) :
  tables_exact x y z A_max B_max data ->
  0 <= x < 2 ^ 32 -> 0 <= y < 2 ^ 32 -> 0 <= z < 2 ^ 32 ->
  0 <= A <= A_max -> 0 <= B <= B_max ->
  A ^ x + B ^ y = C ^ z ->
  sieve_survives_scalar A B data = true.
Proof.
  intros Ht Hx Hy Hz HA HB Heq.
  unfold sieve_survives_scalar. rewrite sieve_scalar_from_forallb.
  apply forallb_forall. intros i Hi. apply in_prime_indices in Hi.
  apply (sieve_prime_admits_exact x y z A_max B_max); try assumption.
  pose proof (sieve_prime_bounds _ (prime_at_in i Hi)) as Hp.
  exists (C mod prime_at i). split.
  - apply Z.mod_pos_bound. lia.
  - rewrite Heq. apply Z.mod_pow_l.
Qed.

(** * The 8-lane sieve *)

(** The decision of prime [i] for lane [l]. *)
Lemma clear_lane_bits (s l k : Z) :
  0 <= l -> 0 <= k < 8 ->
  Z.testbit (clear_lane s l) k = Z.testbit s k && negb (l =? k).
Proof.
  intros Hl Hk. unfold clear_lane, U8.wrap, U8.modulus.
  rewrite Z.testbit_mod_pow2, Z.land_spec, Z.lnot_spec by lia.
  rewrite Z.shiftl_1_l, Z.pow2_bits_eqb by lia.
  destruct (Z.ltb_spec k 8); [reflexivity | lia].
Qed.

Lemma lane_step_bits (i : nat) (A B_start : Z) (data : PrecomputedData.t)
    (s l k : Z) :
  0 <= l -> 0 <= k < 8 ->
  Z.testbit (lane_step i A B_start data s l) k
  = if l =? k then Z.testbit s k && lane_ok i A B_start data l
    else Z.testbit s k.
Proof.
  intros Hl Hk. unfold lane_step, lane_ok. cbv zeta.
  rewrite Z.shiftl_1_l, land_pow2_eqb by lia.
  fold (sieve_prime_admits i A (U64.add B_start l) data).
  destruct (Z.eqb_spec l k) as [->|Hne].
  - destruct (Z.testbit s k) eqn:Hs; cbn [negb andb]; [|exact Hs].
    rewrite Z.leb_antisym.
    destruct (PrecomputedData.B_max data <? U64.add B_start k); cbn [negb andb].
    + rewrite clear_lane_bits, Z.eqb_refl by lia. apply andb_false_r.
    + destruct (sieve_prime_admits i A (U64.add B_start k) data); cbn [negb].
      * exact Hs.
      * rewrite clear_lane_bits, Z.eqb_refl by lia. apply andb_false_r.
  - assert (Hclear : Z.testbit (clear_lane s l) k = Z.testbit s k).
    { rewrite clear_lane_bits by lia.
      destruct (Z.eqb_spec l k); [lia | apply andb_true_r]. }
    destruct (negb (Z.testbit s l)); [reflexivity|].
    destruct (PrecomputedData.B_max data <? U64.add B_start l); [exact Hclear|].
    destruct (sieve_prime_admits i A (U64.add B_start l) data); cbn [negb];
      [reflexivity | exact Hclear].
Qed.

Lemma lanes_fold_bits (i : nat) (A B_start : Z) (data : PrecomputedData.t)
    (k : Z) :
  0 <= k < 8 ->
  forall ls,
    NoDup ls -> (forall l, In l ls -> 0 <= l) ->
    forall s,
      Z.testbit (fold_left (lane_step i A B_start data) ls s) k
      = Z.testbit s k
        && (if existsb (fun l => l =? k) ls
            then lane_ok i A B_start data k else true).
Proof.
  intros Hk ls. induction ls as [|l ls IH]; intros Hnd Hpos s.
  - cbn. now rewrite andb_true_r.
  - cbn [fold_left existsb]. inversion Hnd as [|? ? Hnotin Hnd']; subst.
    rewrite IH by (try assumption; intros; apply Hpos; now right).
    rewrite lane_step_bits by (try lia; apply Hpos; now left).
    destruct (Z.eqb_spec l k) as [->|Hne]; cbn [orb].
    + assert (Hex : existsb (fun l => l =? k) ls = false).
      { apply not_true_is_false. intros Hex. apply existsb_exists in Hex.
        destruct Hex as (l' & Hin & Hl'). apply Z.eqb_eq in Hl'. now subst. }
      rewrite Hex. now rewrite andb_true_r.
    + reflexivity.
Qed.

Lemma lanes_nodup : NoDup lanes.
Proof.
  unfold lanes. repeat (constructor; [cbn; lia|]). constructor.
Qed.

Lemma lanes_round_bits (i : nat) (A B_start : Z) (data : PrecomputedData.t)
    (s k : Z) :
  0 <= k < 8 ->
  Z.testbit (fold_left (lane_step i A B_start data) lanes s) k
  = Z.testbit s k && lane_ok i A B_start data k.
Proof.
  intros Hk. rewrite lanes_fold_bits; try assumption.
  - assert (Hex : existsb (fun l => l =? k) lanes = true).
    { apply existsb_exists. exists k. split; [|apply Z.eqb_refl].
      unfold lanes. cbn [In]. lia. }
    now rewrite Hex.
  - apply lanes_nodup.
  - unfold lanes. cbn [In]. lia.
Qed.

Lemma sieve_avx2_from_bits (A B_start : Z) (data : PrecomputedData.t) (k : Z) :
  0 <= k < 8 ->
  forall idxs s,
    Z.testbit (sieve_avx2_from idxs A B_start data s) k
    = Z.testbit s k && forallb (fun i => lane_ok i A B_start data k) idxs.
Proof.
  intros Hk idxs. induction idxs as [|i rest IH]; intros s.
  - cbn. now rewrite andb_true_r.
  - cbn [sieve_avx2_from forallb]. cbv zeta.
    pose proof (lanes_round_bits i A B_start data s k Hk) as Hround.
    destruct (Z.eqb_spec (fold_left (lane_step i A B_start data) lanes s) 0)
      as [H0|_].
    + rewrite H0 in *. rewrite Z.bits_0 in *.
      rewrite andb_assoc, <- Hround. reflexivity.
    + rewrite IH, Hround, andb_assoc. reflexivity.
Qed.

(** Bit [l] of the 8-lane mask, for every lane. *)
Lemma sieve_avx2_lane (A B_start : Z) (data : PrecomputedData.t) (l : Z) :
  0 <= l < 8 ->
  Z.testbit (sieve_survives_avx2_8 A B_start data) l
  = (U64.add B_start l <=? PrecomputedData.B_max data)
    && sieve_survives_scalar A (U64.add B_start l) data.
Proof.
  intros Hl. unfold sieve_survives_avx2_8, sieve_survives_scalar.
  rewrite sieve_avx2_from_bits, sieve_scalar_from_forallb by assumption.
  assert (H255 : Z.testbit 255 l = true).
  { assert (Hc : l = 0 \/ l = 1 \/ l = 2 \/ l = 3 \/ l = 4 \/ l = 5 \/ l = 6
                 \/ l = 7) by lia.
    repeat (destruct Hc as [->|Hc]; [reflexivity|]). now subst. }
  rewrite H255, andb_true_l. unfold lane_ok.
  destruct (U64.add B_start l <=? PrecomputedData.B_max data);
    cbn [andb]; reflexivity.
Qed.

(** * gcd64 *)

Lemma ctz_pos_nonneg (p : positive) : 0 <= ctz_pos p.
Proof. induction p; cbn [ctz_pos]; lia. Qed.

Lemma ctz_pos_spec (p : positive) :
  exists q, 0 <= q /\ Zpos p = 2 ^ ctz_pos p * (2 * q + 1).
Proof.
  induction p as [p IH|p IH|].
  - exists (Zpos p). cbn [ctz_pos]. split; lia.
  - destruct IH as (q & Hq & IH). exists q. split; [exact Hq|].
    cbn [ctz_pos]. pose proof (ctz_pos_nonneg p).
    rewrite Z.pow_add_r, Z.pow_1_r by lia. rewrite Pos2Z.inj_xO, IH. ring.
  - exists 0. cbn [ctz_pos]. split; lia.
Qed.

(** Shifting out the trailing zeros leaves the odd part. *)
Lemma shr_ctzll (v : Z) :
  0 < v ->
  0 <= ctzll v
  /\ v = 2 ^ ctzll v * U64.shr v (ctzll v)
  /\ Z.odd (U64.shr v (ctzll v)) = true
  /\ 0 < U64.shr v (ctzll v) <= v.
Proof.
  intros Hv. destruct v as [|p|p]; try lia. cbn [ctzll].
  pose proof (ctz_pos_nonneg p) as Hc.
  destruct (ctz_pos_spec p) as (q & Hq & Hp).
  assert (Hpow : 0 < 2 ^ ctz_pos p) by (apply Z.pow_pos_nonneg; lia).
  assert (Hshr : U64.shr (Z.pos p) (ctz_pos p) = 2 * q + 1).
  { unfold U64.shr. rewrite Z.shiftr_div_pow2 by lia.
    rewrite Hp, Z.mul_comm, Z.div_mul by lia. reflexivity. }
  rewrite Hshr. repeat split; try lia.
  - rewrite Z.add_comm, Z.odd_add_mul_2. reflexivity.
  - rewrite Hp. nia.
Qed.

Lemma ctz_pos_lor (a b : positive) :
  ctz_pos (Pos.lor a b) = Z.min (ctz_pos a) (ctz_pos b).
Proof.
  revert b. induction a as [a IH|a IH|]; intros [b|b|]; cbn [Pos.lor ctz_pos];
    try rewrite IH;
    try (pose proof (ctz_pos_nonneg a)); try (pose proof (ctz_pos_nonneg b));
    lia.
Qed.

Lemma ctzll_lor (a b : Z) :
  0 < a -> 0 < b -> ctzll (Z.lor a b) = Z.min (ctzll a) (ctzll b).
Proof.
  intros Ha Hb. destruct a as [|a|a], b as [|b|b]; try lia.
  cbn [Z.lor ctzll]. apply ctz_pos_lor.
Qed.

Lemma gcd_coprime_mul (a c b : Z) :
  Z.gcd a c = 1 -> Z.gcd a (c * b) = Z.gcd a b.
Proof.
  intros Hac. apply Z.divide_antisym_nonneg; try apply Z.gcd_nonneg.
  - apply Z.gcd_greatest; [apply Z.gcd_divide_l|].
    apply Z.gauss with (m := c); [apply Z.gcd_divide_r|].
    apply Z.divide_1_r_nonneg; [apply Z.gcd_nonneg|].
    rewrite <- Hac. apply Z.gcd_greatest.
    + eapply Z.divide_trans; [apply Z.gcd_divide_l | apply Z.gcd_divide_l].
    + apply Z.gcd_divide_r.
  - apply Z.gcd_greatest; [apply Z.gcd_divide_l|].
    apply Z.divide_mul_r, Z.gcd_divide_r.
Qed.

Lemma gcd_odd_2 (a : Z) : Z.odd a = true -> Z.gcd a 2 = 1.
Proof.
  intros Hodd.
  pose proof (Z.gcd_nonneg a 2) as Hnn.
  pose proof (Z.gcd_divide_r a 2) as Hd2.
  pose proof (Z.gcd_divide_l a 2) as Hda.
  assert (Hle : Z.gcd a 2 <= 2) by (apply Z.divide_pos_le; [lia | exact Hd2]).
  assert (Hcases : Z.gcd a 2 = 0 \/ Z.gcd a 2 = 1 \/ Z.gcd a 2 = 2) by lia.
  destruct Hcases as [H0|[H1|H2]]; [|exact H1|].
  - rewrite H0 in Hd2. destruct Hd2 as [k Hk]. lia.
  - rewrite H2 in Hda. destruct Hda as [k Hk].
    rewrite Hk, Z.mul_comm, Z.odd_mul in Hodd. cbn in Hodd.
    discriminate.
Qed.

Lemma gcd_odd_pow2 (a k : Z) :
  Z.odd a = true -> 0 <= k -> Z.gcd a (2 ^ k) = 1.
Proof.
  intros Hodd Hk. pattern k. apply natlike_ind; [| |exact Hk].
  - rewrite Z.pow_0_r. apply Z.gcd_1_r.
  - intros n Hn IH. rewrite Z.pow_succ_r by exact Hn.
    rewrite gcd_coprime_mul by now apply gcd_odd_2. exact IH.
Qed.

Lemma gcd_odd_shift (a k b : Z) :
  Z.odd a = true -> 0 <= k -> Z.gcd a (2 ^ k * b) = Z.gcd a b.
Proof. intros Hodd Hk. apply gcd_coprime_mul. now apply gcd_odd_pow2. Qed.

Lemma gcd64_loop_S (fuel : nat) (a b : Z) :
  gcd64_loop (Datatypes.S fuel) a b
  = let b1 := U64.shr b (ctzll b) in
    let a2 := if b1 <? a then b1 else a in
    let b2 := if b1 <? a then a else b1 in
    let b3 := U64.sub b2 a2 in
    if b3 =? 0 then a2 else gcd64_loop fuel a2 b3.
Proof. cbn [gcd64_loop]. cbv zeta. destruct (_ <? a); reflexivity. Qed.

Lemma odd_sub_odd (a b : Z) :
  Z.odd a = true -> Z.odd b = true -> Z.odd (b - a) = false.
Proof.
  intros Ha Hb. rewrite Z.odd_sub, Ha, Hb. reflexivity.
Qed.

(** The loop ends within [fuel] rounds once [a] times the odd part of [b]
    is below [2 ^ fuel], and it ends on the gcd. *)
Lemma gcd64_loop_spec (fuel : nat) :
  forall a b,
    Z.odd a = true -> 0 < a < U64.modulus -> 0 < b < U64.modulus ->
    a * U64.shr b (ctzll b) < 2 ^ Z.of_nat fuel ->
    forall extra, gcd64_loop (fuel + extra) a b = Z.gcd a b.
Proof.
  induction fuel as [|fuel IH]; intros a b Hodd Ha Hb Hmeasure extra.
  - destruct (shr_ctzll b ltac:(lia)) as (_ & _ & _ & Ho).
    cbn in Hmeasure. nia.
  - cbn [Nat.add]. rewrite gcd64_loop_S. cbv zeta.
    destruct (shr_ctzll b ltac:(lia)) as (Hc & Hb1 & Hodd1 & Ho).
    set (b1 := U64.shr b (ctzll b)) in *.
    assert (Hg : Z.gcd a b = Z.gcd a b1).
    { rewrite Hb1. now apply gcd_odd_shift. }
    rewrite Hg.
    destruct (Z.ltb_spec b1 a) as [Hlt|Hge].
    + (* swap: the pair is (b1, a) *)
      unfold U64.sub. rewrite u64_wrap_small by lia.
      destruct (Z.eqb_spec (a - b1) 0) as [H0|Hnz]; [lia|].
      assert (Heven : Z.odd (a - b1) = false) by now apply odd_sub_odd.
      destruct (shr_ctzll (a - b1) ltac:(lia)) as (Hc3 & Hb3 & Hodd3 & Ho3).
      rewrite IH; try assumption; try lia.
      * rewrite Z.gcd_sub_diag_r. apply Z.gcd_comm.
      * assert (Hc3' : ctzll (a - b1) <> 0).
        { intros Hz. rewrite Hz, Z.pow_0_r, Z.mul_1_l in Hb3.
          rewrite Hz in Hodd3. rewrite <- Hb3, Heven in Hodd3. discriminate. }
        assert (Hp : 2 <= 2 ^ ctzll (a - b1)).
        { change 2 with (2 ^ 1) at 1. apply Z.pow_le_mono_r; lia. }
        rewrite Nat2Z.inj_succ, Z.pow_succ_r in Hmeasure by lia. nia.
    + unfold U64.sub. rewrite u64_wrap_small by lia.
      destruct (Z.eqb_spec (b1 - a) 0) as [H0|Hnz].
      * assert (b1 = a) by lia. subst a. rewrite Z.gcd_diag. lia.
      * assert (Heven : Z.odd (b1 - a) = false) by now apply odd_sub_odd.
        destruct (shr_ctzll (b1 - a) ltac:(lia)) as (Hc3 & Hb3 & Hodd3 & Ho3).
        rewrite IH; try assumption; try lia.
        -- apply Z.gcd_sub_diag_r.
        -- assert (Hc3' : ctzll (b1 - a) <> 0).
           { intros Hz. rewrite Hz, Z.pow_0_r, Z.mul_1_l in Hb3.
             rewrite Hz in Hodd3. rewrite <- Hb3, Heven in Hodd3. discriminate. }
           assert (Hp : 2 <= 2 ^ ctzll (b1 - a)).
           { change 2 with (2 ^ 1) at 1. apply Z.pow_le_mono_r; lia. }
           rewrite Nat2Z.inj_succ, Z.pow_succ_r in Hmeasure by lia. nia.
Qed.

Lemma gcd_pow2_parts (i j a b : Z) :
  0 <= i -> 0 <= j -> Z.odd a = true -> Z.odd b = true ->
  Z.gcd (2 ^ i * a) (2 ^ j * b) = 2 ^ Z.min i j * Z.gcd a b.
Proof.
  intros Hi Hj Ha Hb.
  assert (Hpi : 2 ^ i = 2 ^ Z.min i j * 2 ^ (i - Z.min i j))
    by (rewrite <- Z.pow_add_r by lia; f_equal; lia).
  assert (Hpj : 2 ^ j = 2 ^ Z.min i j * 2 ^ (j - Z.min i j))
    by (rewrite <- Z.pow_add_r by lia; f_equal; lia).
  rewrite Hpi, Hpj, <- !Z.mul_assoc.
  rewrite Z.gcd_mul_mono_l_nonneg by (apply Z.pow_nonneg; lia).
  f_equal.
  destruct (Z.le_ge_cases i j) as [Hle|Hle].
  - rewrite Z.min_l by lia. rewrite Z.sub_diag, Z.pow_0_r, Z.mul_1_l.
    apply gcd_odd_shift; [exact Ha | lia].
  - rewrite Z.min_r by lia. rewrite Z.sub_diag, Z.pow_0_r, Z.mul_1_l.
    rewrite Z.gcd_comm, gcd_odd_shift by (try assumption; lia).
    apply Z.gcd_comm.
Qed.

(** [gcd64] is the greatest common divisor on 64-bit operands. *)
Lemma gcd64_spec (a b : Z) :
  U64.in_range a -> U64.in_range b -> gcd64 a b = Z.gcd a b.
Proof.
  unfold U64.in_range. intros Ha Hb. unfold gcd64.
  destruct (Z.eqb_spec a 0) as [->|Hanz].
  { rewrite Z.gcd_0_l, Z.abs_eq; lia. }
  destruct (Z.eqb_spec b 0) as [->|Hbnz].
  { rewrite Z.gcd_0_r, Z.abs_eq; lia. }
  cbv zeta.
  destruct (shr_ctzll a ltac:(lia)) as (Hca & Ha1 & Hodda & Hoa).
  destruct (shr_ctzll b ltac:(lia)) as (Hcb & Hb1 & Hoddb & Hob).
  set (a1 := U64.shr a (ctzll a)) in *.
  set (b1 := U64.shr b (ctzll b)) in *.
  assert (Hloop : gcd64_loop 128 a1 b = Z.gcd a1 b).
  { apply (gcd64_loop_spec 128 a1 b Hodda ltac:(lia) ltac:(lia)) with (extra := 0%nat).
    fold b1. change (Z.of_nat 128) with 128.
    rewrite u64_modulus_eq in *. nia. }
  rewrite Hloop, ctzll_lor by lia.
  assert (Hgb : Z.gcd a1 b = Z.gcd a1 b1).
  { rewrite Hb1 at 1. now apply gcd_odd_shift. }
  assert (Hg : Z.gcd a b = 2 ^ Z.min (ctzll a) (ctzll b) * Z.gcd a1 b1).
  { rewrite Ha1 at 1. rewrite Hb1 at 1. now apply gcd_pow2_parts. }
  unfold U64.shl. rewrite Z.shiftl_mul_pow2 by lia.
  rewrite Hgb, Z.mul_comm, <- Hg. apply u64_wrap_small.
  split; [apply Z.gcd_nonneg|].
  assert (Z.gcd a b <= a); [|lia].
  apply Z.divide_pos_le; [lia | apply Z.gcd_divide_l].
Qed.

(** More rounds than 128 change nothing: the loop has ended by then. *)
Lemma gcd64_loop_stable (a b : Z) (extra : nat) :
  Z.odd a = true -> 0 < a < U64.modulus -> 0 < b < U64.modulus ->
  gcd64_loop (128 + extra) a b = gcd64_loop 128 a b.
Proof.
  intros Hodd Ha Hb.
  destruct (shr_ctzll b ltac:(lia)) as (_ & _ & _ & Ho).
  assert (Hm : a * U64.shr b (ctzll b) < 2 ^ Z.of_nat 128).
  { change (Z.of_nat 128) with 128. rewrite u64_modulus_eq in *. nia. }
  rewrite (gcd64_loop_spec 128 a b Hodd Ha Hb Hm extra).
  symmetry. rewrite <- (Nat.add_0_r 128) at 1.
  apply (gcd64_loop_spec 128 a b Hodd Ha Hb Hm 0%nat).
Qed.

(** * The exact verifier *)

Lemma root_bits_spec (op n : Z) :
  1 <= n -> 0 <= op ->
  forall k r,
    0 <= r -> r ^ n <= op < (r + 2 ^ Z.of_nat k) ^ n ->
    let r' := root_bits k op n r in
    0 <= r' /\ r' ^ n <= op < (r' + 1) ^ n.
Proof.
  intros Hn Hop k. induction k as [|k IH]; intros r Hr Hinv.
  - cbn [root_bits]. cbn in Hinv. split; [exact Hr | exact Hinv].
  - cbn [root_bits]. cbv zeta.
    assert (Hpk : 0 < 2 ^ Z.of_nat k) by (apply Z.pow_pos_nonneg; lia).
    rewrite Nat2Z.inj_succ, Z.pow_succ_r in Hinv by lia.
    destruct (Z.leb_spec ((r + 2 ^ Z.of_nat k) ^ n) op) as [Hle|Hgt].
    + apply IH; [lia|]. split; [exact Hle|].
      replace (r + 2 ^ Z.of_nat k + 2 ^ Z.of_nat k)
        with (r + 2 * 2 ^ Z.of_nat k) by ring.
      apply Hinv.
    + apply IH; [exact Hr|]. split; [apply Hinv | exact Hgt].
Qed.

(** [mpz_root] returns the truncated root and says whether it is exact. *)
Lemma mpz_root_spec (op n : Z) :
  1 <= n -> 0 <= op ->
  let '(root, exact) := mpz_root op n in
  0 <= root /\ root ^ n <= op < (root + 1) ^ n
  /\ exact = (root ^ n =? op).
Proof.
  intros Hn Hop. unfold mpz_root.
  pose proof (Z.log2_nonneg op) as Hlog.
  assert (Hinit : 0 ^ n <= op
                  < (0 + 2 ^ Z.of_nat (Z.to_nat (Z.log2 op + 1))) ^ n).
  { rewrite Z.pow_0_l by lia. split; [exact Hop|].
    rewrite Z2Nat.id, Z.add_0_l by lia.
    assert (Hlt : op < 2 ^ (Z.log2 op + 1)).
    { destruct (Z.eq_dec op 0) as [->|Hnz]; [reflexivity|].
      apply Z.log2_spec. lia. }
    assert (Hp : 0 < 2 ^ (Z.log2 op + 1)) by (apply Z.pow_pos_nonneg; lia).
    assert (Hge : (2 ^ (Z.log2 op + 1)) ^ 1 <= (2 ^ (Z.log2 op + 1)) ^ n)
      by (apply Z.pow_le_mono_r; lia).
    rewrite Z.pow_1_r in Hge. lia. }
  destruct (root_bits_spec op n Hn Hop _ 0 ltac:(lia) Hinit) as (H0 & Hr).
  repeat split; try assumption; apply Hr.
Qed.

Lemma root_unique (n r s v : Z) :
  1 <= n -> 0 <= r -> 0 <= s ->
  r ^ n <= v < (r + 1) ^ n -> s ^ n = v -> s = r.
Proof.
  intros Hn Hr Hs Hv Heq.
  destruct (Z.lt_trichotomy s r) as [Hlt|[Heq'|Hgt]]; [|exact Heq'|].
  - assert (s ^ n < r ^ n) by (apply Z.pow_lt_mono_l; lia). lia.
  - assert ((r + 1) ^ n <= s ^ n) by (apply Z.pow_le_mono_l; lia). lia.
Qed.

(** The verifier, branch by branch. *)
Lemma check_beal_hit_gmp_cases (A B x y z C_max : Z) (out : Outs.t) :
  let root := fst (mpz_root (A ^ x + B ^ y) z) in
  check_beal_hit_gmp A B x y z C_max out
  = if snd (mpz_root (A ^ x + B ^ y) z) && mpz_fits_ulong_p root
       && ((root <=? C_max) && (0 <? root))
    then (true, Outs.mk root (gcd64 A (gcd64 B root)))
    else (false, out).
Proof.
  unfold check_beal_hit_gmp. cbv zeta.
  destruct (mpz_root (A ^ x + B ^ y) z) as [root exact]. cbn [fst snd].
  destruct exact; cbn [andb]; [|reflexivity].
  destruct (mpz_fits_ulong_p root); cbn [andb]; [|reflexivity].
  destruct ((root <=? C_max) && (0 <? root)); reflexivity.
Qed.

Lemma check_beal_hit_gmp_hit (A B x y z C_max : Z) (out : Outs.t) :
  1 <= A -> 1 <= B -> 0 <= x -> 0 <= y -> 1 <= z ->
  U64.in_range C_max ->
  fst (check_beal_hit_gmp A B x y z C_max out) = true
  <-> exists r, 1 <= r <= C_max /\ A ^ x + B ^ y = r ^ z.
Proof.
  unfold U64.in_range. intros HA HB Hx Hy Hz HC.
  rewrite check_beal_hit_gmp_cases. cbv zeta.
  assert (Hsum : 0 <= A ^ x + B ^ y).
  { assert (0 <= A ^ x) by (apply Z.pow_nonneg; lia).
    assert (0 <= B ^ y) by (apply Z.pow_nonneg; lia). lia. }
  pose proof (mpz_root_spec (A ^ x + B ^ y) z Hz Hsum) as Hroot.
  destruct (mpz_root (A ^ x + B ^ y) z) as [root exact]. cbn [fst snd].
  destruct Hroot as (Hr0 & Hr & ->).
  unfold mpz_fits_ulong_p, U64.max.
  destruct (Z.eqb_spec (root ^ z) (A ^ x + B ^ y)) as [Heq|Hne]; cbn [andb].
  - destruct (Z.leb_spec root C_max); destruct (Z.ltb_spec 0 root);
      destruct (Z.leb_spec 0 root); destruct (Z.leb_spec root (U64.modulus - 1));
      cbn [andb fst]; try lia.
    all: split; [intros Ht; try discriminate Ht | intros (r & Hr1 & Hr2)].
    all: try (exists root; split; [lia | now symmetry]).
    all: try reflexivity.
    all: assert (r = root)
      by (apply (root_unique z root r (A ^ x + B ^ y)); try lia; now symmetry);
      lia.
  - cbn [fst]. split; [discriminate|]. intros (r & Hr1 & Hr2).
    assert (r = root)
      by (apply (root_unique z root r (A ^ x + B ^ y)); try lia; now symmetry).
    subst r. congruence.
Qed.

Lemma check_beal_hit_gmp_outputs (A B x y z C_max r : Z) (out : Outs.t) :
  U64.in_range A -> U64.in_range B -> 1 <= A -> 1 <= B ->
  0 <= x -> 0 <= y -> 1 <= z ->
  0 <= r -> A ^ x + B ^ y = r ^ z ->
  fst (check_beal_hit_gmp A B x y z C_max out) = true ->
  snd (check_beal_hit_gmp A B x y z C_max out)
  = Outs.mk r (Z.gcd A (Z.gcd B r)).
Proof.
  intros HAr HBr HA HB Hx Hy Hz Hr Heq.
  rewrite check_beal_hit_gmp_cases. cbv zeta.
  assert (Hsum : 0 <= A ^ x + B ^ y).
  { rewrite Heq. apply Z.pow_nonneg. lia. }
  pose proof (mpz_root_spec (A ^ x + B ^ y) z Hz Hsum) as Hroot.
  destruct (mpz_root (A ^ x + B ^ y) z) as [root exact]. cbn [fst snd].
  destruct Hroot as (Hr0 & Hrr & ->).
  assert (r = root) by (apply (root_unique z root r (A ^ x + B ^ y)); lia).
  subst r.
  destruct ((root ^ z =? A ^ x + B ^ y) && mpz_fits_ulong_p root
            && ((root <=? C_max) && (0 <? root))) eqn:Hcond;
    cbn [fst snd]; [|discriminate].
  intros _.
  assert (Hfit : U64.in_range root).
  { apply andb_prop in Hcond. destruct Hcond as [Hc _].
    apply andb_prop in Hc. destruct Hc as [_ Hc].
    unfold mpz_fits_ulong_p, U64.max in Hc. unfold U64.in_range. lia. }
  assert (Hg1 : U64.in_range (Z.gcd B root)).
  { unfold U64.in_range in *. split; [apply Z.gcd_nonneg|].
    assert (Z.gcd B root <= B); [|lia].
    apply Z.divide_pos_le; [lia | apply Z.gcd_divide_l]. }
  rewrite (gcd64_spec B root) by assumption.
  rewrite (gcd64_spec A _) by assumption.
  reflexivity.
Qed.

Lemma check_beal_hit_gmp_miss (A B x y z C_max : Z) (out : Outs.t) :
  fst (check_beal_hit_gmp A B x y z C_max out) = false ->
  snd (check_beal_hit_gmp A B x y z C_max out) = out.
Proof.
  rewrite check_beal_hit_gmp_cases. cbv zeta.
  destruct (_ && _); cbn [fst snd]; [discriminate | reflexivity].
Qed.

(** * The integrity digest *)

Lemma log_complete_hash_fnv1a (params : SearchParams.t)
    (results : SearchResults.t) :
  log_complete_hash params results = fnv1a64 (digest_fields params results).
Proof.
  unfold log_complete_hash, fnv1a64, digest_fields, fnv1a64_absorb.
  unfold U64.mul, U64.wrap, U64.modulus, FNV_PRIME, FNV_OFFSET_BASIS.
  cbn [fold_left]. reflexivity.
Qed.

Lemma log_complete_hash_range (params : SearchParams.t)
    (results : SearchResults.t) :
  0 <= log_complete_hash params results < U64.modulus.
Proof. unfold log_complete_hash. cbv zeta. apply u64_wrap_range. Qed.

Lemma hex_digit_ok (d : Z) :
  0 <= d < 16 ->
  is_lower_hex (hex_digit d) = true /\ hex_value (hex_digit d) = d.
Proof.
  intros Hd.
  assert (Hc : d = 0 \/ d = 1 \/ d = 2 \/ d = 3 \/ d = 4 \/ d = 5 \/ d = 6
               \/ d = 7 \/ d = 8 \/ d = 9 \/ d = 10 \/ d = 11 \/ d = 12
               \/ d = 13 \/ d = 14 \/ d = 15) by lia.
  repeat (destruct Hc as [->|Hc]; [split; reflexivity|]).
  subst d. split; reflexivity.
Qed.

Lemma hex_fixed_length (n : nat) (v : Z) : String.length (hex_fixed n v) = n.
Proof. induction n as [|n IH]; cbn [hex_fixed String.length]; congruence. Qed.

Lemma hex_fixed_lower (n : nat) (v : Z) :
  string_forallb is_lower_hex (hex_fixed n v) = true.
Proof.
  induction n as [|n IH]; [reflexivity|].
  cbn [hex_fixed string_forallb]. rewrite IH, andb_true_r.
  apply hex_digit_ok. apply Z.mod_pos_bound. lia.
Qed.

Lemma hex_fixed_parse (n : nat) (v : Z) :
  forall acc, hex_parse (hex_fixed n v) acc
              = acc * 16 ^ Z.of_nat n + v mod 16 ^ Z.of_nat n.
Proof.
  induction n as [|n IH]; intros acc.
  - cbn [hex_fixed hex_parse]. change (Z.of_nat 0) with 0.
    rewrite Z.pow_0_r, Z.mod_1_r. lia.
  - cbn [hex_fixed hex_parse]. rewrite IH.
    assert (Hd : 0 <= (v / 16 ^ Z.of_nat n) mod 16 < 16)
      by (apply Z.mod_pos_bound; lia).
    rewrite (proj2 (hex_digit_ok _ Hd)).
    assert (Hp : 0 < 16 ^ Z.of_nat n) by (apply Z.pow_pos_nonneg; lia).
    rewrite Nat2Z.inj_succ, Z.pow_succ_r by lia.
    rewrite (Z.mul_comm 16 (16 ^ Z.of_nat n)).
    rewrite (Z.rem_mul_r v (16 ^ Z.of_nat n) 16) by lia.
    ring.
Qed.

(** The rendering [%016x] of a 64-bit value: 16 lowercase digits that read
    back as the value. *)
Lemma fmt_016x_spec (v : Z) :
  0 <= v < U64.modulus ->
  String.length (fmt_016x v) = 16%nat
  /\ string_forallb is_lower_hex (fmt_016x v) = true
  /\ hex_parse (fmt_016x v) 0 = v.
Proof.
  intros Hv. unfold fmt_016x. split; [|split].
  - apply hex_fixed_length.
  - apply hex_fixed_lower.
  - rewrite hex_fixed_parse. change (16 ^ Z.of_nat 16) with U64.modulus.
    rewrite Z.mod_small by exact Hv. lia.
Qed.

(** * Loops that return *)

Lemma for_u64_fuel_prefix {S : Type} (body : Z -> S -> option S) (hi step : Z) :
  0 < step -> hi < U64.modulus ->
  forall (n f : nat) (i : Z) (s : S),
    0 <= i < U64.modulus ->
    (forall k, (k < n)%nat -> i + step * Z.of_nat k <= hi) ->
    for_u64_fuel (n + f) i hi step body s
    = match fold_opt body (map (fun k => i + step * Z.of_nat k) (seq 0 n)) s with
      | Some s' =>
          for_u64_fuel f (U64.wrap (i + step * Z.of_nat n)) hi step body s'
      | None => None
      end.
Proof.
  intros Hstep Hhi n. induction n as [|n IH]; intros f i s Hi Hle.
  - cbn [Nat.add seq map fold_opt]. rewrite Z.mul_0_r, Z.add_0_r.
    now rewrite u64_wrap_small.
  - cbn [Nat.add]. rewrite for_u64_fuel_S.
    assert (H0 : i <= hi).
    { specialize (Hle 0%nat). rewrite Z.mul_0_r, Z.add_0_r in Hle. apply Hle. lia. }
    destruct (Z.leb_spec i hi); [|lia].
    cbn [seq map fold_opt]. rewrite Z.mul_0_r, Z.add_0_r.
    destruct (body i s) as [s'|]; [|reflexivity].
    rewrite IH.
    + rewrite <- seq_shift, map_map.
      assert (Hidx : U64.wrap (U64.add i step + step * Z.of_nat n)
                     = U64.wrap (i + step * Z.of_nat (Datatypes.S n))).
      { unfold U64.add, U64.wrap. rewrite Z.add_mod_idemp_l by (rewrite u64_modulus_eq; lia).
        f_equal. lia. }
      rewrite Hidx.
      destruct n as [|n].
      * reflexivity.
      * assert (Hs : U64.add i step = i + step).
        { apply u64_add_small. specialize (Hle 1%nat ltac:(lia)). lia. }
        rewrite Hs.
        erewrite map_ext; [reflexivity|]. intros k. cbv beta. lia.
    + apply u64_wrap_range.
    + intros k Hk.
      assert (Hs : U64.add i step = i + step).
      { apply u64_add_small. specialize (Hle 1%nat ltac:(lia)). lia. }
      rewrite Hs. specialize (Hle (Datatypes.S k) ltac:(lia)). lia.
Qed.

(** A loop that returns has not wrapped its index, and is then the fold of
    its body over the index values. *)
Lemma for_u64_returns {S : Type} (body : Z -> S -> option S) (lo hi step : Z)
    (s s' : S) :
  0 <= lo < U64.modulus -> hi < U64.modulus -> 0 < step <= U64.modulus ->
  for_u64 lo hi step body s = Some s' ->
  (lo <= hi -> lo + step * ((hi - lo) / step + 1) < U64.modulus)
  /\ fold_opt body (zrange_step lo hi step) s = Some s'.
Proof.
  intros Hlo Hhi Hstep Hrun. unfold for_u64, for_u64_tests in Hrun.
  unfold zrange_step.
  destruct (Z.leb_spec lo hi) as [Hle|Hgt].
  2:{ split; [lia|]. cbn in Hrun. destruct (Z.leb_spec lo hi); [lia|]. exact Hrun. }
  assert (Hq : 0 <= (hi - lo) / step) by (apply Z.div_pos; lia).
  pose proof (Z.mul_div_le (hi - lo) step ltac:(lia)) as Hd1.
  pose proof (Z.mul_succ_div_gt (hi - lo) step ltac:(lia)) as Hd2.
  set (n := Z.to_nat ((hi - lo) / step + 1)) in *.
  replace (Z.to_nat ((hi - lo) / step + 2)) with (n + 1)%nat in Hrun by lia.
  rewrite (for_u64_fuel_prefix body hi step) in Hrun; try lia.
  2:{ intros k Hk. assert (Z.of_nat k <= (hi - lo) / step) by lia. nia. }
  destruct (fold_opt body _ s) as [s1|] eqn:Hfold; [|discriminate].
  assert (Hn : Z.of_nat n = (hi - lo) / step + 1) by lia.
  rewrite Hn in Hrun.
  destruct (Z.lt_ge_cases (lo + step * ((hi - lo) / step + 1)) U64.modulus)
    as [Hfit|Hwrap].
  - split; [intros _; exact Hfit|].
    rewrite u64_wrap_small, for_u64_fuel_S in Hrun by lia.
    destruct (Z.leb_spec (lo + step * ((hi - lo) / step + 1)) hi); [lia|].
    exact Hrun.
  - exfalso. rewrite for_u64_fuel_S in Hrun.
    assert (Hw : U64.wrap (lo + step * ((hi - lo) / step + 1))
                 = lo + step * ((hi - lo) / step + 1) - U64.modulus).
    { unfold U64.wrap. symmetry.
      apply Z.mod_unique with (q := 1); lia. }
    rewrite Hw in Hrun.
    destruct (Z.leb_spec (lo + step * ((hi - lo) / step + 1) - U64.modulus) hi);
      [|lia].
    destruct (body _ s1); discriminate.
Qed.

Lemma for_u64_pure_returns {S : Type} (f : Z -> S -> S) (lo hi step : Z)
    (s s' : S) :
  0 <= lo < U64.modulus -> hi < U64.modulus -> 0 < step <= U64.modulus ->
  for_u64 lo hi step (fun i s => Some (f i s)) s = Some s' ->
  (lo <= hi -> lo + step * ((hi - lo) / step + 1) < U64.modulus)
  /\ s' = fold_left (fun s i => f i s) (zrange_step lo hi step) s.
Proof.
  intros Hlo Hhi Hstep Hrun.
  destruct (for_u64_returns _ lo hi step s s' Hlo Hhi Hstep Hrun) as [Hfit Hfold].
  split; [exact Hfit|]. rewrite fold_opt_pure in Hfold. congruence.
Qed.

(** * Ranges *)

Lemma zrange_step_nil (lo hi step : Z) : hi < lo -> zrange_step lo hi step = [].
Proof.
  intros H. unfold zrange_step. destruct (Z.leb_spec lo hi); [lia | reflexivity].
Qed.

Lemma zrange_step_cons (lo hi step : Z) :
  0 < step -> lo <= hi ->
  zrange_step lo hi step = lo :: zrange_step (lo + step) hi step.
Proof.
  intros Hstep Hle. unfold zrange_step.
  destruct (Z.leb_spec lo hi); [|lia].
  assert (Hq : 0 <= (hi - lo) / step) by (apply Z.div_pos; lia).
  replace (Z.to_nat ((hi - lo) / step + 1))
    with (Datatypes.S (Z.to_nat ((hi - lo) / step))) by lia.
  cbn [seq map]. rewrite Z.mul_0_r, Z.add_0_r. f_equal.
  destruct (Z.leb_spec (lo + step) hi) as [Hle2|Hgt2].
  - replace (hi - (lo + step)) with (hi - lo + (-1) * step) by ring.
    rewrite Z.div_add by lia.
    replace (Z.to_nat ((hi - lo) / step + -1 + 1))
      with (Z.to_nat ((hi - lo) / step)) by lia.
    rewrite <- seq_shift, map_map. apply map_ext. intros k. lia.
  - assert (Hz : (hi - lo) / step = 0) by (apply Z.div_small; lia).
    rewrite Hz. reflexivity.
Qed.

Lemma zrange_nil (lo hi : Z) : hi < lo -> zrange lo hi = [].
Proof. apply zrange_step_nil. Qed.

Lemma zrange_cons (lo hi : Z) : lo <= hi -> zrange lo hi = lo :: zrange (lo + 1) hi.
Proof. intros H. unfold zrange. now apply zrange_step_cons. Qed.

Lemma zrange_length (lo hi : Z) :
  Z.of_nat (List.length (zrange lo hi)) = Z.max 0 (hi - lo + 1).
Proof.
  unfold zrange, zrange_step. destruct (Z.leb_spec lo hi).
  - rewrite length_map, length_seq, Z.div_1_r. lia.
  - cbn. lia.
Qed.

Lemma zrange_split (lo mid hi : Z) :
  lo <= mid + 1 -> mid <= hi ->
  zrange lo hi = zrange lo mid ++ zrange (mid + 1) hi.
Proof.
  intros H1 H2.
  remember (Z.to_nat (mid + 1 - lo)) as n eqn:Hn.
  revert lo H1 Hn. induction n as [|n IH]; intros lo H1 Hn.
  - assert (lo = mid + 1) by lia. subst lo.
    rewrite (zrange_nil (mid + 1) mid) by lia. reflexivity.
  - rewrite (zrange_cons lo hi), (zrange_cons lo mid) by lia.
    cbn [app]. f_equal. apply IH; lia.
Qed.

(** The blocks of eight cover the range once. *)
Lemma blocks_cover {S : Type} (f : S -> Z -> S) (hi : Z) (n : nat) :
  forall lo s,
    hi - lo < 8 * Z.of_nat n ->
    fold_left (fun s B => fold_left f (zrange B (Z.min (B + 7) hi)) s)
              (zrange_step lo hi 8) s
    = fold_left f (zrange lo hi) s.
Proof.
  induction n as [|n IH]; intros lo s Hn.
  - rewrite zrange_step_nil, zrange_nil by lia. reflexivity.
  - destruct (Z.lt_ge_cases hi lo) as [Hgt|Hle].
    + rewrite zrange_step_nil, zrange_nil by lia. reflexivity.
    + rewrite zrange_step_cons by lia. cbn [fold_left].
      rewrite IH by lia.
      rewrite (zrange_split lo (Z.min (lo + 7) hi) hi) by lia.
      rewrite fold_left_app.
      destruct (Z.le_ge_cases (lo + 7) hi).
      * rewrite Z.min_l by lia. replace (lo + 7 + 1) with (lo + 8) by ring.
        reflexivity.
      * rewrite Z.min_r by lia.
        rewrite (zrange_nil (lo + 8) hi), (zrange_nil (hi + 1) hi) by lia.
        reflexivity.
Qed.

(** * The loop over B *)

Lemma fold_left_ext_in {S X : Type} (f g : S -> X -> S) (l : list X) :
  (forall x s, In x l -> f s x = g s x) ->
  forall s, fold_left f l s = fold_left g l s.
Proof.
  induction l as [|x l IH]; intros Hfg s; [reflexivity|].
  cbn [fold_left]. rewrite Hfg by now left.
  apply IH. intros y s' Hy. apply Hfg. now right.
Qed.

Lemma in_zrange_step8 (lo hi B : Z) :
  In B (zrange_step lo hi 8) ->
  lo <= B <= hi /\ B + 8 <= lo + 8 * ((hi - lo) / 8 + 1).
Proof.
  unfold zrange_step. destruct (Z.leb_spec lo hi) as [Hle|Hgt]; [|contradiction].
  rewrite in_map_iff. intros (k & <- & Hk). apply in_seq in Hk.
  assert (Hq : 0 <= (hi - lo) / 8) by (apply Z.div_pos; lia).
  pose proof (Z.mul_div_le (hi - lo) 8 ltac:(lia)).
  assert (Z.of_nat k <= (hi - lo) / 8) by lia. lia.
Qed.

(** The loop over the lanes runs the pipeline on the B values of the block
    that are inside the range, with the scalar sieve's decision. *)
Lemma lanes_loop_pairs (params : SearchParams.t) (data : PrecomputedData.t)
    (A B : Z) :
  0 <= B -> B + 7 < U64.modulus ->
  PrecomputedData.B_max data = SearchParams.B_max params ->
  forall (n j : nat) (st : Iter.t),
    (j + n = 8)%nat ->
    lanes_loop (map Z.of_nat (seq j n)) params
               (sieve_survives_avx2_8 A B data) A B st
    = fold_left (pair_step true params data A)
                (zrange (B + Z.of_nat j)
                        (Z.min (B + 7) (SearchParams.B_max params)))
                st.
Proof.
  intros HB Hfit Hmax n. induction n as [|n IH]; intros j st Hj.
  - cbn [seq map lanes_loop]. rewrite zrange_nil by lia. reflexivity.
  - cbn [seq map lanes_loop].
    rewrite u64_add_small by lia.
    destruct (Z.leb_spec (B + Z.of_nat j) (SearchParams.B_max params)) as [Hin|Hout].
    + rewrite IH by lia.
      rewrite (zrange_cons (B + Z.of_nat j)) by lia. cbn [fold_left].
      replace (B + Z.of_nat j + 1) with (B + Z.of_nat (Datatypes.S j)) by lia.
      f_equal. unfold pair_step. f_equal.
      rewrite Z.shiftl_1_l, land_pow2_eqb, negb_involutive by lia.
      rewrite sieve_avx2_lane by lia.
      rewrite u64_add_small, Hmax by lia.
      destruct (Z.leb_spec (B + Z.of_nat j) (SearchParams.B_max params));
        [reflexivity | lia].
    + rewrite zrange_nil by lia. reflexivity.
Qed.

(** Both paths of the loop over B run the same pipeline over the same B
    values: the 8-lane path decides as the scalar sieve does. *)
Lemma b_loop_pairs (have_avx2 : bool) (params : SearchParams.t)
    (data : PrecomputedData.t) (A : Z) (st st' : Iter.t) :
  U64.in_range (SearchParams.B_start params) ->
  U64.in_range (SearchParams.B_max params) ->
  PrecomputedData.B_max data = SearchParams.B_max params ->
  b_loop have_avx2 params data A st = Some st' ->
  st' = fold_left (pair_step have_avx2 params data A)
                  (zrange (SearchParams.B_start params)
                          (SearchParams.B_max params))
                  st.
Proof.
  unfold U64.in_range. intros Hs Hm Hmax Hrun. unfold b_loop in Hrun.
  destruct have_avx2.
  - assert (H8 : 0 < 8 <= U64.modulus) by (rewrite u64_modulus_eq; lia).
    destruct (for_u64_pure_returns _ _ _ _ _ _ Hs (proj2 Hm) H8 Hrun)
      as [Hfit ->].
    set (Bs := SearchParams.B_start params) in *.
    set (Bm := SearchParams.B_max params) in *.
    rewrite <- (blocks_cover (pair_step true params data A) Bm
                             (Z.to_nat (Bm - Bs) + 1) Bs st) by lia.
    apply fold_left_ext_in. intros B s HB.
    apply in_zrange_step8 in HB.
    change lanes with (map Z.of_nat (seq 0 8)).
    rewrite (lanes_loop_pairs params data A B) by (try assumption; lia).
    change (Z.of_nat 0) with 0. rewrite Z.add_0_r. reflexivity.
  - assert (H1 : 0 < 1 <= U64.modulus) by (rewrite u64_modulus_eq; lia).
    destruct (for_u64_pure_returns _ _ _ _ _ _ Hs (proj2 Hm) H1 Hrun)
      as [_ ->].
    reflexivity.
Qed.

(** * The run as events *)

Lemma fold_pairs_events (have_avx2 : bool) (params : SearchParams.t)
    (data : PrecomputedData.t) (A : Z) (Bs : list Z) :
  forall m,
    fold_left (ev_step have_avx2 params data) (map (EvPair A) Bs) m
    = Machine.mk
        (fold_left (pair_step have_avx2 params data A) Bs (Machine.iter m))
        (Machine.global_tested m) (Machine.global_gcd_skips m)
        (Machine.global_mod_skips m) (Machine.global_exact_checks m).
Proof.
  induction Bs as [|B Bs IH]; intros m.
  - destruct m. reflexivity.
  - cbn [map fold_left]. rewrite IH. reflexivity.
Qed.

Section Run.
Variables (have_avx2 : bool) (params : SearchParams.t)
          (data : PrecomputedData.t).
Hypothesis Bstart_range : U64.in_range (SearchParams.B_start params).
Hypothesis Bmax_range : U64.in_range (SearchParams.B_max params).
Hypothesis Bmax_data :
  PrecomputedData.B_max data = SearchParams.B_max params.

Let step := ev_step have_avx2 params data.

Lemma a_iteration_events (A : Z) (w w' : list BealHit.t * Shared.t) :
  a_iteration have_avx2 params data A w = Some w' ->
  machine_of w' = fold_left step (a_events params A) (machine_of w).
Proof.
  destruct w as [local sh]. unfold a_iteration.
  destruct (b_loop have_avx2 params data A _) as [st|] eqn:Hb; [|discriminate].
  intros Hw. apply some_inj in Hw. subst w'.
  apply b_loop_pairs in Hb; try assumption.
  unfold a_events. rewrite fold_left_app. unfold step.
  rewrite fold_pairs_events. cbn [fold_left ev_step Machine.iter machine_of
    fst snd Machine.global_tested Machine.global_gcd_skips
    Machine.global_mod_skips Machine.global_exact_checks Shared.results
    Shared.global_tested Shared.global_gcd_skips Shared.global_mod_skips
    Shared.global_exact_checks].
  rewrite <- Hb. reflexivity.
Qed.

Lemma a_loop_events (As : list Z) :
  forall w w',
    a_loop have_avx2 params data As w = Some w' ->
    machine_of w' = fold_left step (flat_map (a_events params) As) (machine_of w).
Proof.
  induction As as [|A As IH]; intros w w' Hrun.
  - cbn in Hrun. apply some_inj in Hrun. now subst.
  - cbn [a_loop] in Hrun.
    destruct (a_iteration have_avx2 params data A w) as [w1|] eqn:Ha;
      [|discriminate].
    cbn [flat_map]. rewrite fold_left_app.
    rewrite <- (a_iteration_events A w w1 Ha). now apply IH.
Qed.

Lemma worker_run_events (As : list Z) (sh sh' : Shared.t) :
  worker have_avx2 params data As sh = Some sh' ->
  machine_of ([], sh')
  = fold_left step (worker_events params As) (machine_of ([], sh)).
Proof.
  unfold worker.
  destruct (a_loop have_avx2 params data As ([], sh)) as [[local sh1]|] eqn:Ha;
    [|discriminate].
  intros Hw. apply some_inj in Hw. subst sh'.
  apply a_loop_events in Ha.
  unfold worker_events. rewrite fold_left_app, <- Ha. reflexivity.
Qed.

Lemma workers_run_events (schedule : list (list Z)) :
  forall sh sh',
    workers have_avx2 params data schedule sh = Some sh' ->
    machine_of ([], sh')
    = fold_left step (events params schedule) (machine_of ([], sh)).
Proof.
  induction schedule as [|As rest IH]; intros sh sh' Hrun.
  - cbn in Hrun. apply some_inj in Hrun. now subst.
  - cbn [workers] in Hrun.
    destruct (worker have_avx2 params data As sh) as [sh1|] eqn:Hw;
      [|discriminate].
    unfold events. cbn [flat_map]. rewrite fold_left_app.
    rewrite <- (worker_run_events As sh sh1 Hw). now apply IH.
Qed.
End Run.

Lemma shared_of_machine_of (sh : Shared.t) : shared_of (machine_of ([], sh)) = sh.
Proof. destruct sh. reflexivity. Qed.

(** What a call of [search_parallel] that returns has done. *)
Lemma search_parallel_run (env : Env.t) (params : SearchParams.t)
    (results : SearchResults.t) (rec : option CompleteRecord.t) :
  U64.in_range (SearchParams.A_max params) ->
  U64.in_range (SearchParams.B_start params) ->
  U64.in_range (SearchParams.B_max params) ->
  search_parallel env params = Some (results, rec) ->
  (Env.alloc_ok env = false /\ results = results_init /\ rec = None)
  \/ exists data,
       tables_exact (SearchParams.x params) (SearchParams.y params)
                    (SearchParams.z params) (SearchParams.A_max params)
                    (SearchParams.B_max params) data
       /\ results
          = finalize
              (shared_of
                 (fold_left (ev_step (Env.have_avx2 env) params data)
                            (events params (Env.schedule env)) machine_init))
       /\ rec = log_complete (Env.fopen_ok env) (SearchParams.log_path params)
                             (Env.clock env) params results.
Proof.
  intros HA HBs HBm Hrun. unfold search_parallel in Hrun. cbv zeta in Hrun.
  destruct (precompute_create _ _ _ _ _ _) as [[data|]|] eqn:Hpc;
    [| |discriminate].
  - right. exists data.
    pose proof (precompute_create_tables _ _ _ _ _ _ data HA HBm Hpc) as Ht.
    split; [exact Ht|].
    destruct (workers _ _ _ _ _) as [sh|] eqn:Hw; [|discriminate].
    apply some_inj in Hrun.
    assert (Hmax : PrecomputedData.B_max data = SearchParams.B_max params)
      by apply Ht.
    pose proof (workers_run_events (Env.have_avx2 env) params data HBs HBm Hmax
                  (Env.schedule env) _ _ Hw) as Hev.
    change (machine_of ([], Shared.mk 0 0 0 0 results_init)) with machine_init in Hev.
    rewrite <- Hev, shared_of_machine_of.
    injection Hrun as <- <-. split; reflexivity.
  - left. apply some_inj in Hrun. injection Hrun as <- <-.
    unfold precompute_create in Hpc. destruct (Env.alloc_ok env); [|auto].
    cbn [negb] in Hpc.
    destruct (for_u64 0 _ 1 _ []); [|discriminate].
    destruct (by_mod_rows _ _ _); discriminate.
Qed.

(** * The pipeline for one pair *)

Lemma record_hit_cases (have_avx2 : bool) (hit : BealHit.t) (st : Iter.t) :
  let st' := record_hit have_avx2 hit st in
  Iter.a_tested st' = Iter.a_tested st /\ Iter.a_gcd st' = Iter.a_gcd st
  /\ Iter.a_mod st' = Iter.a_mod st /\ Iter.a_exact st' = Iter.a_exact st
  /\ ((Z.of_nat (List.length (Iter.local_hits st)) < 64
       /\ Iter.local_hits st' = Iter.local_hits st ++ [hit]
       /\ Iter.results st' = Iter.results st)
      \/ (64 <= Z.of_nat (List.length (Iter.local_hits st))
          /\ have_avx2 = true
          /\ Iter.local_hits st' = [hit]
          /\ Iter.results st'
             = flush_hits (Iter.local_hits st) (Iter.results st))
      \/ (64 <= Z.of_nat (List.length (Iter.local_hits st))
          /\ have_avx2 = false
          /\ Iter.local_hits st' = Iter.local_hits st
          /\ Iter.results st' = Iter.results st)).
Proof.
  unfold record_hit. cbv zeta.
  destruct (Z.ltb_spec (Z.of_nat (List.length (Iter.local_hits st))) 64).
  - cbn. repeat split; try reflexivity. left. auto.
  - destruct have_avx2; cbn; repeat split; try reflexivity.
    + right. left. auto.
    + right. right. auto.
Qed.

Lemma pair_body_cases (have_avx2 : bool) (params : SearchParams.t)
    (survives : bool) (A B : Z) (st : Iter.t) :
  let st' := pair_body have_avx2 params survives A B st in
  let t' := U64.add (Iter.a_tested st) 1 in
  (1 < gcd64 A B
   /\ st' = Iter.mk t' (U64.add (Iter.a_gcd st) 1) (Iter.a_mod st)
                    (Iter.a_exact st) (Iter.local_hits st) (Iter.results st))
  \/ (gcd64 A B <= 1 /\ survives = false
      /\ st' = Iter.mk t' (Iter.a_gcd st) (U64.add (Iter.a_mod st) 1)
                       (Iter.a_exact st) (Iter.local_hits st) (Iter.results st))
  \/ (gcd64 A B <= 1 /\ survives = true /\ verifies params A B = false
      /\ st' = Iter.mk t' (Iter.a_gcd st) (Iter.a_mod st)
                       (U64.add (Iter.a_exact st) 1)
                       (Iter.local_hits st) (Iter.results st))
  \/ (gcd64 A B <= 1 /\ survives = true /\ verifies params A B = true
      /\ st' = record_hit have_avx2 (hit_of params A B)
                 (Iter.mk t' (Iter.a_gcd st) (Iter.a_mod st)
                          (U64.add (Iter.a_exact st) 1)
                          (Iter.local_hits st) (Iter.results st))).
Proof.
  unfold pair_body, verifies, hit_of. cbv zeta.
  destruct (Z.ltb_spec 1 (gcd64 A B)) as [Hg|Hg]; [left; auto|].
  destruct survives; cbn [negb]; [|right; left; auto].
  destruct (check_beal_hit_gmp A B _ _ _ _ _) as [[|] out]; cbn [fst snd].
  - right. right. right. auto.
  - right. right. left. auto.
Qed.

Lemma flush_hits_hits (l : list BealHit.t) :
  forall r, SearchResults.hits (flush_hits l r) = SearchResults.hits r ++ l.
Proof.
  unfold flush_hits. induction l as [|h l IH]; intros r; cbn [fold_left].
  - now rewrite app_nil_r.
  - rewrite IH. cbn [results_add_hit SearchResults.hits].
    now rewrite <- app_assoc.
Qed.

(** * Invariants of a run *)

Lemma fold_left_prefix_ind {S X : Type} (step : S -> X -> S)
    (good : X -> Prop) (P : list X -> S -> Prop) (s0 : S) :
  P [] s0 ->
  (forall pre e s, good e -> P pre s -> P (pre ++ [e]) (step s e)) ->
  forall l, Forall good l -> P l (fold_left step l s0).
Proof.
  intros H0 Hstep l. induction l as [|e l IH] using rev_ind; intros Hl.
  - exact H0.
  - apply Forall_app in Hl. destruct Hl as [Hl He].
    rewrite fold_left_app. cbn [fold_left]. apply Hstep.
    + now inversion He.
    + now apply IH.
Qed.

Lemma splits_zero : splits 0 0 0 0.
Proof. unfold splits. rewrite u64_modulus_eq. split; [lia | reflexivity]. Qed.

Lemma splits_add (t g m e t' g' m' e' : Z) :
  splits t g m e -> splits t' g' m' e' ->
  splits (U64.add t t') (U64.add g g') (U64.add m m') (U64.add e e').
Proof.
  unfold splits, U64.add, U64.wrap. rewrite u64_modulus_eq.
  intros [Ht Hs] [Ht' Hs']. split; [apply Z.mod_pos_bound; lia|].
  subst t t'. Z.div_mod_to_equations. lia.
Qed.

Lemma splits_tested (t g m e : Z) :
  splits t g m e ->
  splits (U64.add t 1) (U64.add g 1) m e
  /\ splits (U64.add t 1) g (U64.add m 1) e
  /\ splits (U64.add t 1) g m (U64.add e 1).
Proof.
  unfold splits, U64.add, U64.wrap. rewrite u64_modulus_eq.
  intros [Ht Hs].
  repeat split; try (apply Z.mod_pos_bound; lia);
    subst t; Z.div_mod_to_equations; lia.
Qed.

(** ** The counters *)

Lemma pair_step_counters (have_avx2 : bool) (params : SearchParams.t)
    (data : PrecomputedData.t) (A B : Z) (st : Iter.t) :
  let st' := pair_step have_avx2 params data A st B in
  Iter.a_tested st' = U64.add (Iter.a_tested st) 1
  /\ ((Iter.a_gcd st' = U64.add (Iter.a_gcd st) 1
       /\ Iter.a_mod st' = Iter.a_mod st /\ Iter.a_exact st' = Iter.a_exact st
       /\ Iter.local_hits st' = Iter.local_hits st
       /\ Iter.results st' = Iter.results st)
      \/ (Iter.a_gcd st' = Iter.a_gcd st
          /\ Iter.a_mod st' = U64.add (Iter.a_mod st) 1
          /\ Iter.a_exact st' = Iter.a_exact st
          /\ Iter.local_hits st' = Iter.local_hits st
          /\ Iter.results st' = Iter.results st)
      \/ (Iter.a_gcd st' = Iter.a_gcd st /\ Iter.a_mod st' = Iter.a_mod st
          /\ Iter.a_exact st' = U64.add (Iter.a_exact st) 1
          /\ (Z.of_nat (List.length (Iter.local_hits st'))
              + Z.of_nat (List.length (SearchResults.hits (Iter.results st')))
              <= Z.of_nat (List.length (Iter.local_hits st))
                 + Z.of_nat (List.length (SearchResults.hits (Iter.results st)))
                 + 1))).
Proof.
  cbv zeta. unfold pair_step.
  destruct (pair_body_cases have_avx2 params (sieve_survives_scalar A B data)
              A B st) as [(_ & ->)|[(_ & _ & ->)|[(_ & _ & _ & ->)|(_ & _ & _ & ->)]]];
    cbn [Iter.a_tested Iter.a_gcd Iter.a_mod Iter.a_exact Iter.local_hits
         Iter.results].
  - split; [reflexivity|]. left. repeat split; reflexivity.
  - split; [reflexivity|]. right. left. repeat split; reflexivity.
  - split; [reflexivity|]. right. right. repeat split; try reflexivity. lia.
  - match goal with |- context [record_hit ?a ?h ?s] =>
      destruct (record_hit_cases a h s) as (Ht & Hg & Hm & He & Hhits) end.
    rewrite Ht, Hg, Hm, He.
    cbn [Iter.a_tested Iter.a_gcd Iter.a_mod Iter.a_exact Iter.local_hits
         Iter.results] in *.
    split; [reflexivity|]. right. right. repeat split; try reflexivity.
    destruct Hhits as [(_ & -> & ->)|[(_ & _ & -> & ->)|(_ & _ & -> & ->)]].
    + rewrite length_app. cbn [List.length]. lia.
    + rewrite flush_hits_hits, length_app. cbn [List.length]. lia.
    + lia.
Qed.

Lemma a_splits_run (have_avx2 : bool) (params : SearchParams.t)
    (data : PrecomputedData.t) (l : list event) :
  a_splits (fold_left (ev_step have_avx2 params data) l machine_init).
Proof.
  apply (fold_left_prefix_ind (ev_step have_avx2 params data)
           (fun _ => True) (fun _ m => a_splits m)).
  - split; apply splits_zero.
  - intros _ e m _ [Ha Hg]. destruct e as [A B| |]; unfold a_splits;
      cbn [ev_step Machine.iter Machine.global_tested Machine.global_gcd_skips
           Machine.global_mod_skips Machine.global_exact_checks
           Iter.a_tested Iter.a_gcd Iter.a_mod Iter.a_exact].
    + split; [|exact Hg].
      destruct (pair_step_counters have_avx2 params data A B (Machine.iter m))
        as (Ht & [(-> & -> & -> & _)|[(-> & -> & -> & _)|(-> & -> & -> & _)]]);
        rewrite Ht; apply (splits_tested _ _ _ _ Ha).
    + split; [apply splits_zero | now apply splits_add].
    + split; assumption.
  - apply Forall_forall. trivial.
Qed.

(** ** The tally of a schedule *)

Lemma tally_step_total (l : list event) (dp : Z * Z) :
  0 <= fst dp -> 0 <= snd dp ->
  let dp' := fold_left tally_step l dp in
  0 <= fst dp' /\ 0 <= snd dp' /\ fst dp + snd dp <= fst dp' + snd dp'.
Proof.
  revert dp. induction l as [|e l IH]; intros dp Hd Hp; cbn [fold_left].
  - lia.
  - destruct e as [A B| |]; cbn [tally_step];
      match goal with |- context [fold_left tally_step l ?q] =>
        specialize (IH q) end; cbn [fst snd] in IH; lia.
Qed.

Lemma tally_prefix (pre post : list event) :
  let dp := tally pre in
  let dq := tally (pre ++ post) in
  0 <= fst dp /\ 0 <= snd dp /\ fst dp + snd dp <= fst dq + snd dq.
Proof.
  cbv zeta. unfold tally. rewrite fold_left_app.
  destruct (tally_step_total pre (0, 0)) as (H1 & H2 & _); cbn [fst snd]; try lia.
  destruct (tally_step_total post (fold_left tally_step pre (0, 0)) H1 H2)
    as (_ & _ & H3).
  lia.
Qed.

Lemma tally_pairs (A : Z) (Bs : list Z) (dp : Z * Z) :
  fold_left tally_step (map (EvPair A) Bs) dp
  = (fst dp, snd dp + Z.of_nat (List.length Bs)).
Proof.
  revert dp. induction Bs as [|B Bs IH]; intros dp; cbn [map fold_left].
  - destruct dp. cbn. f_equal. lia.
  - rewrite IH. cbn [tally_step fst snd List.length]. f_equal. lia.
Qed.

Lemma tally_a_events (params : SearchParams.t) (A d : Z) :
  fold_left tally_step (a_events params A) (d, 0)
  = (d + Z.max 0 (SearchParams.B_max params - SearchParams.B_start params + 1),
     0).
Proof.
  unfold a_events. rewrite fold_left_app, tally_pairs.
  cbn [fold_left tally_step fst snd]. rewrite zrange_length. f_equal.
Qed.

Lemma tally_worker (params : SearchParams.t) (As : list Z) (d : Z) :
  fold_left tally_step (worker_events params As) (d, 0)
  = (d + Z.of_nat (List.length As)
         * Z.max 0 (SearchParams.B_max params - SearchParams.B_start params + 1),
     0).
Proof.
  unfold worker_events. rewrite fold_left_app. cbn [fold_left tally_step].
  revert d. induction As as [|A As IH]; intros d.
  - cbn. f_equal. lia.
  - cbn [flat_map]. rewrite fold_left_app, tally_a_events, IH.
    f_equal. cbn [List.length]. lia.
Qed.

Lemma tally_events (params : SearchParams.t) (schedule : list (list Z)) :
  tally (events params schedule) = (scheduled_pairs params schedule, 0).
Proof.
  unfold tally, events, scheduled_pairs.
  assert (H : forall d,
             fold_left tally_step (flat_map (worker_events params) schedule) (d, 0)
             = (d + Z.of_nat (List.length (concat schedule))
                    * Z.max 0 (SearchParams.B_max params
                               - SearchParams.B_start params + 1), 0)).
  { induction schedule as [|As rest IH]; intros d.
    - cbn. f_equal. lia.
    - cbn [flat_map concat]. rewrite fold_left_app, tally_worker, IH.
      rewrite length_app. f_equal. lia. }
  rewrite H. reflexivity.
Qed.

(** ** The counters without wrap-around *)

Lemma counts_exact_run (have_avx2 : bool) (params : SearchParams.t)
    (data : PrecomputedData.t) (l : list event) :
  counts_exact l (fold_left (ev_step have_avx2 params data) l machine_init).
Proof.
  apply (fold_left_prefix_ind (ev_step have_avx2 params data)
           (fun _ => True) counts_exact).
  - intros _. cbn. lia.
  - intros pre e m _ IH Hfit.
    pose proof (tally_prefix pre [e]) as (Hd & Hp & Hmono). cbv zeta in Hmono.
    specialize (IH ltac:(lia)).
    destruct IH as (Ht & HGt & Hg & Hm & He & Hsum & HGg & HGm & HGe & HGsum & Hhits).
    assert (Htal : tally (pre ++ [e]) = tally_step (tally pre) e).
    { unfold tally. rewrite fold_left_app. reflexivity. }
    rewrite Htal in *.
    destruct e as [A B| |];
      cbn [ev_step tally_step fst snd Machine.iter Machine.global_tested
           Machine.global_gcd_skips Machine.global_mod_skips
           Machine.global_exact_checks Iter.a_tested Iter.a_gcd Iter.a_mod
           Iter.a_exact Iter.local_hits Iter.results] in *.
    + destruct (pair_step_counters have_avx2 params data A B (Machine.iter m))
        as (Ht' & Hcase).
      rewrite Ht'.
      rewrite (u64_add_small (Iter.a_tested (Machine.iter m)) 1) by lia.
      destruct Hcase as [(-> & -> & -> & -> & ->)|[(-> & -> & -> & -> & ->)
                        |(-> & -> & -> & Hlen)]];
        rewrite ?u64_add_small by lia; repeat split; lia.
    + rewrite !u64_add_small by lia. cbn [List.length]. repeat split; lia.
    + rewrite flush_hits_hits, length_app. cbn [List.length].
      repeat split; lia.
  - apply Forall_forall. trivial.
Qed.

(** ** The hits *)

Lemma gcd_of_solution (A B C : Z) :
  Z.gcd A B = 1 -> Z.gcd A (Z.gcd B C) = 1.
Proof.
  intros H. apply Z.divide_1_r_nonneg; [apply Z.gcd_nonneg|].
  rewrite <- H. apply Z.gcd_greatest; [apply Z.gcd_divide_l|].
  eapply Z.divide_trans; [apply Z.gcd_divide_r | apply Z.gcd_divide_l].
Qed.

Lemma gate_coprime (A B : Z) :
  1 <= A < U64.modulus -> 0 <= B < U64.modulus ->
  gcd64 A B <= 1 <-> Z.gcd A B = 1.
Proof.
  intros HA HB. rewrite gcd64_spec by (unfold U64.in_range; lia).
  pose proof (Z.gcd_nonneg A B).
  assert (Z.gcd A B <> 0) by (intros H0; apply Z.gcd_eq_0_l in H0; lia).
  lia.
Qed.

(** A pair that passes the gate and the verifier gives a genuine hit. *)
Lemma hit_of_genuine (params : SearchParams.t) (A B : Z) :
  valid_params params ->
  SearchParams.A_start params <= A <= SearchParams.A_max params ->
  SearchParams.B_start params <= B <= SearchParams.B_max params ->
  gcd64 A B <= 1 -> verifies params A B = true ->
  genuine_hit params (hit_of params A B).
Proof.
  intros (Hx & Hy & Hz & HAs & HAm & HBs & HBm & HC) HA HB Hgate Hver.
  unfold verifies in Hver.
  assert (Hcop : Z.gcd A B = 1) by (apply gate_coprime; lia).
  pose proof (proj1 (check_beal_hit_gmp_hit A B (SearchParams.x params)
                       (SearchParams.y params) (SearchParams.z params)
                       (SearchParams.C_max params) (Outs.mk 0 0)
                       ltac:(lia) ltac:(lia) ltac:(lia) ltac:(lia) ltac:(lia)
                       HC) Hver) as (r & Hr & Heq).
  pose proof (check_beal_hit_gmp_outputs A B (SearchParams.x params)
                (SearchParams.y params) (SearchParams.z params)
                (SearchParams.C_max params) r (Outs.mk 0 0)
                ltac:(unfold U64.in_range; lia) ltac:(unfold U64.in_range; lia)
                ltac:(lia) ltac:(lia) ltac:(lia) ltac:(lia) ltac:(lia)
                ltac:(lia) Heq Hver) as Hout.
  unfold genuine_hit, hit_of. cbv zeta. rewrite Hout.
  cbn [BealHit.A BealHit.B BealHit.C BealHit.gcd BealHit.x BealHit.y BealHit.z
       Outs.out_C Outs.out_gcd].
  repeat split; try lia; try assumption.
  now apply gcd_of_solution.
Qed.

Lemma genuine_hits_run (have_avx2 : bool) (params : SearchParams.t)
    (data : PrecomputedData.t) (l : list event) :
  valid_params params ->
  Forall (good_event params) l ->
  hits_genuine params (fold_left (ev_step have_avx2 params data) l machine_init).
Proof.
  intros Hvalid.
  apply (fold_left_prefix_ind (ev_step have_avx2 params data)
           (good_event params) (fun _ m => hits_genuine params m)).
  - split; constructor.
  - intros _ e m Hgood [Hloc Hres]. unfold hits_genuine in *.
    destruct e as [A B| |]; cbn [ev_step Machine.iter].
    + destruct Hgood as [HA HB]. unfold pair_step.
      destruct (pair_body_cases have_avx2 params
                  (sieve_survives_scalar A B data) A B (Machine.iter m))
        as [(_ & ->)|[(_ & _ & ->)|[(_ & _ & _ & ->)|(Hg & _ & Hv & ->)]]];
        cbn [Iter.local_hits Iter.results]; try (split; assumption).
      pose proof (hit_of_genuine params A B Hvalid HA HB Hg Hv) as Hhit.
      match goal with |- context [record_hit ?a ?h ?s] =>
        destruct (record_hit_cases a h s) as (_ & _ & _ & _ & Hcase) end.
      cbn [Iter.local_hits Iter.results] in Hcase.
      destruct Hcase as [(_ & -> & ->)|[(_ & _ & -> & ->)|(_ & _ & -> & ->)]].
      * split; [|assumption]. apply Forall_app. split; [assumption|].
        constructor; [assumption | constructor].
      * split; [constructor; [assumption | constructor]|].
        rewrite flush_hits_hits. apply Forall_app. split; assumption.
      * split; assumption.
    + cbn [Iter.local_hits Iter.results]. split; assumption.
    + cbn [Iter.local_hits Iter.results]. split; [constructor|].
      rewrite flush_hits_hits. apply Forall_app. split; assumption.
Qed.

Lemma hits_kept_run (have_avx2 : bool) (params : SearchParams.t)
    (data : PrecomputedData.t) (l : list event) :
  hit_kept params data l
           (fold_left (ev_step have_avx2 params data) l machine_init).
Proof.
  apply (fold_left_prefix_ind (ev_step have_avx2 params data)
           (fun _ => True) (hit_kept params data)).
  - intros (A & B & Hin & _). contradiction.
  - intros pre e m _ IH (A & B & Hin & Hacc).
    apply in_app_or in Hin.
    assert (Hcases : (exists A B, In (EvPair A B) pre /\ accepted params data A B)
                     \/ (e = EvPair A B)).
    { destruct Hin as [Hin|[<-|[]]]; [left; eauto | now right]. }
    unfold hit_kept in IH.
    destruct e as [A' B'| |]; cbn [ev_step Machine.iter].
    + unfold pair_step.
      destruct (pair_body_cases have_avx2 params
                  (sieve_survives_scalar A' B' data) A' B' (Machine.iter m))
        as [(Hg & ->)|[(_ & Hs & ->)|[(_ & _ & Hv & ->)|(_ & _ & _ & ->)]]];
        cbn [Iter.local_hits Iter.results].
      * destruct Hcases as [Hpre|Heq]; [now apply IH|].
        injection Heq as <- <-. destruct Hacc as (Hg' & _). lia.
      * destruct Hcases as [Hpre|Heq]; [now apply IH|].
        injection Heq as <- <-. destruct Hacc as (_ & Hs' & _). congruence.
      * destruct Hcases as [Hpre|Heq]; [now apply IH|].
        injection Heq as <- <-. destruct Hacc as (_ & _ & Hv'). congruence.
      * match goal with |- context [record_hit ?a ?h ?s] =>
          destruct (record_hit_cases a h s) as (_ & _ & _ & _ & Hcase) end.
        cbn [Iter.local_hits Iter.results] in Hcase.
        destruct Hcase as [(_ & -> & ->)|[(_ & _ & -> & ->)|(Hfull & _ & -> & ->)]].
        -- rewrite length_app. cbn [List.length]. lia.
        -- cbn [List.length]. lia.
        -- lia.
    + cbn [Iter.local_hits Iter.results].
      destruct Hcases as [Hpre|Heq]; [now apply IH | discriminate].
    + cbn [Iter.local_hits Iter.results]. rewrite flush_hits_hits, length_app.
      cbn [List.length].
      destruct Hcases as [Hpre|Heq]; [specialize (IH Hpre); lia | discriminate].
  - apply Forall_forall. trivial.
Qed.

Lemma events_end (params : SearchParams.t) (schedule : list (list Z)) :
  events params schedule = []
  \/ exists l, events params schedule = l ++ [EvEndWorker].
Proof.
  unfold events. induction schedule as [|As rest IH]; [now left|].
  right. cbn [flat_map]. destruct IH as [->|(l & ->)].
  - rewrite app_nil_r. unfold worker_events. eauto.
  - exists (worker_events params As ++ l). now rewrite app_assoc.
Qed.

Lemma final_local_hits (have_avx2 : bool) (params : SearchParams.t)
    (data : PrecomputedData.t) (schedule : list (list Z)) :
  Iter.local_hits
    (Machine.iter (fold_left (ev_step have_avx2 params data)
                             (events params schedule) machine_init)) = [].
Proof.
  destruct (events_end params schedule) as [->|(l & ->)]; [reflexivity|].
  rewrite fold_left_app. reflexivity.
Qed.

Lemma events_good (params : SearchParams.t) (schedule : list (list Z)) :
  Forall (fun A => SearchParams.A_start params <= A <= SearchParams.A_max params)
         (concat schedule) ->
  Forall (good_event params) (events params schedule).
Proof.
  unfold events. induction schedule as [|As rest IH]; intros Hs; [constructor|].
  cbn [concat] in Hs. apply Forall_app in Hs. destruct Hs as [HAs Hrest].
  cbn [flat_map]. apply Forall_app. split; [|now apply IH].
  unfold worker_events. apply Forall_app. split; [|repeat constructor].
  clear IH Hrest. induction As as [|A As IHA]; [constructor|].
  inversion HAs as [|? ? HA HAs']; subst. cbn [flat_map].
  apply Forall_app. split; [|now apply IHA].
  unfold a_events. apply Forall_app. split; [|repeat constructor].
  apply Forall_forall. intros e He. apply in_map_iff in He.
  destruct He as (B & <- & HB). apply in_zrange in HB. split; assumption.
Qed.

Lemma events_in (params : SearchParams.t) (schedule : list (list Z)) (A B : Z) :
  In A (concat schedule) ->
  SearchParams.B_start params <= B <= SearchParams.B_max params ->
  In (EvPair A B) (events params schedule).
Proof.
  intros HA HB. unfold events. apply in_flat_map.
  apply in_concat in HA. destruct HA as (As & HAs & HA).
  exists As. split; [exact HAs|]. unfold worker_events.
  apply in_or_app. left. apply in_flat_map. exists A. split; [exact HA|].
  unfold a_events. apply in_or_app. left. apply in_map. now apply in_zrange.
Qed.

(** ** Counting the primitive hits *)

Lemma count_primitive_filter (hits : list BealHit.t) :
  count_primitive hits
  = U64.wrap (Z.of_nat (List.length
                          (filter (fun h => BealHit.gcd h =? 1) hits))).
Proof.
  unfold count_primitive.
  assert (H : forall n,
             0 <= n < U64.modulus ->
             fold_left (fun n h => if BealHit.gcd h =? 1 then U64.add n 1 else n)
                       hits n
             = U64.wrap (n + Z.of_nat (List.length
                                         (filter (fun h => BealHit.gcd h =? 1)
                                                 hits)))).
  { induction hits as [|h hits IH]; intros n Hn; cbn [fold_left filter].
    - cbn [List.length]. rewrite Z.add_0_r. symmetry. now apply u64_wrap_small.
    - destruct (BealHit.gcd h =? 1).
      + rewrite IH by apply u64_wrap_range.
        cbn [List.length]. unfold U64.add, U64.wrap.
        rewrite Z.add_mod_idemp_l by (rewrite u64_modulus_eq; lia).
        f_equal. lia.
      + now apply IH. }
  rewrite H by (rewrite u64_modulus_eq; lia). reflexivity.
Qed.

Lemma filter_all {X : Type} (p : X -> bool) (l : list X) :
  Forall (fun v => p v = true) l -> filter p l = l.
Proof.
  induction 1 as [|v l Hv _ IH]; cbn [filter]; [reflexivity|].
  now rewrite Hv, IH.
Qed.

Lemma count_primitive_positive (hits : list BealHit.t) :
  0 < count_primitive hits -> exists h, In h hits /\ BealHit.gcd h = 1.
Proof.
  rewrite count_primitive_filter. intros Hpos.
  destruct (filter (fun h => BealHit.gcd h =? 1) hits) as [|h rest] eqn:Hf.
  - cbn in Hpos. lia.
  - assert (Hin : In h (filter (fun h => BealHit.gcd h =? 1) hits))
      by (rewrite Hf; now left).
    apply filter_In in Hin. destruct Hin as [Hin Hg].
    exists h. split; [exact Hin | now apply Z.eqb_eq].
Qed.

(** * Counting survivors *)

Lemma fold_opt_ext {S : Type} (f g : Z -> S -> option S) (l : list Z) :
  (forall i s, In i l -> f i s = g i s) ->
  forall s, fold_opt f l s = fold_opt g l s.
Proof.
  induction l as [|i l IH]; intros Hfg s; [reflexivity|].
  cbn [fold_opt]. rewrite Hfg by now left.
  destruct (g i s); [|reflexivity].
  apply IH. intros j s' Hj. apply Hfg. now right.
Qed.

Lemma count_row (data : PrecomputedData.t) (A : Z) (Bs : list Z) :
  forall count,
    0 <= count < U64.modulus ->
    fold_left (fun count B =>
                 if (gcd64 A B =? 1) && sieve_survives_scalar A B data
                 then U64.add count 1 else count) Bs count
    = U64.wrap (count
                + Z.of_nat (List.length
                              (filter (coprime_survivor data)
                                      (map (fun y : Z => (A, y)) Bs)))).
Proof.
  induction Bs as [|B Bs IH]; intros count Hc.
  - cbn. rewrite Z.add_0_r. symmetry. now apply u64_wrap_small.
  - cbn [fold_left map filter].
    change (coprime_survivor data (A, B))
      with ((gcd64 A B =? 1) && sieve_survives_scalar A B data).
    destruct ((gcd64 A B =? 1) && sieve_survives_scalar A B data).
    + rewrite IH by apply u64_wrap_range.
      cbn [List.length]. unfold U64.add, U64.wrap.
      rewrite Z.add_mod_idemp_l by (rewrite u64_modulus_eq; lia).
      f_equal. rewrite Nat2Z.inj_succ. ring.
    + now apply IH.
Qed.

Lemma count_rows (data : PrecomputedData.t) (Bs : list Z) (As : list Z) :
  forall count,
    0 <= count < U64.modulus ->
    fold_left (fun count A =>
                 fold_left (fun count B =>
                              if (gcd64 A B =? 1)
                                 && sieve_survives_scalar A B data
                              then U64.add count 1 else count) Bs count)
              As count
    = U64.wrap (count
                + Z.of_nat (List.length
                              (filter (coprime_survivor data)
                                      (list_prod As Bs)))).
Proof.
  induction As as [|A As IH]; intros count Hc.
  - cbn. rewrite Z.add_0_r. symmetry. now apply u64_wrap_small.
  - cbn [fold_left list_prod].
    rewrite count_row by exact Hc.
    rewrite IH by apply u64_wrap_range.
    rewrite filter_app, length_app. unfold U64.wrap.
    rewrite Z.add_mod_idemp_l by (rewrite u64_modulus_eq; lia).
    f_equal. rewrite Nat2Z.inj_add. ring.
Qed.

Lemma count_sieve_survivors_spec (A_start A_end B_start B_end : Z)
    (data : PrecomputedData.t) :
  0 <= A_start -> A_end < U64.max -> 0 <= B_start -> B_end < U64.max ->
  count_sieve_survivors A_start A_end B_start B_end data
  = Some (U64.wrap (coprime_survivors A_start A_end B_start B_end data)).
Proof.
  intros HAs HAe HBs HBe. unfold count_sieve_survivors.
  rewrite for_u64_unit_spec by lia.
  rewrite (fold_opt_ext _
             (fun A count =>
                Some (fold_left
                        (fun count B =>
                           if (gcd64 A B =? 1) && sieve_survives_scalar A B data
                           then U64.add count 1 else count)
                        (zrange B_start B_end) count))).
  - rewrite (fold_opt_pure
               (fun A count =>
                  fold_left
                    (fun count B =>
                       if (gcd64 A B =? 1) && sieve_survives_scalar A B data
                       then U64.add count 1 else count)
                    (zrange B_start B_end) count)).
    rewrite count_rows by (rewrite u64_modulus_eq; lia).
    reflexivity.
  - intros A count _. rewrite for_u64_unit_spec by lia.
    apply fold_opt_pure.
Qed.

Lemma coprime_survivors_bound (A_start A_end B_start B_end : Z)
    (data : PrecomputedData.t) :
  0 <= coprime_survivors A_start A_end B_start B_end data
  <= Z.max 0 (A_end - A_start + 1) * Z.max 0 (B_end - B_start + 1).
Proof.
  unfold coprime_survivors. split; [lia|].
  rewrite <- !zrange_length, <- Nat2Z.inj_mul, <- length_prod.
  apply inj_le. apply filter_length_le.
Qed.

(** * The claims *)

Lemma sample_data_created :
  precompute_create true 3 3 4 2 2 = Some (Some sample_data).
Proof. vm_compute. reflexivity. Qed.

(** C1 — Sieve soundness.  For a signature with exponents of at least 3 and
    the tables that [precompute_create] builds for [A_max] and [B_max], every
    pair (A, B) with 1 <= A <= A_max and 1 <= B <= B_max for which some
    positive C has A^x + B^y = C^z survives the scalar sieve: the sieve never
    kills a true solution. *)
Theorem sieve_soundness (alloc_ok : bool) (x y z A_max B_max : Z)
    (data : PrecomputedData.t) (A B C : Z) :
  3 <= x < U32.modulus -> 3 <= y < U32.modulus -> 3 <= z < U32.modulus ->
  U64.in_range A_max -> U64.in_range B_max ->
  precompute_create alloc_ok x y z A_max B_max = Some (Some data) ->
  1 <= A <= A_max -> 1 <= B <= B_max -> 0 < C ->
  A ^ x + B ^ y = C ^ z ->
  sieve_survives_scalar A B data = true.
Proof.
  unfold U32.modulus. intros Hx Hy Hz HAm HBm Hpc HA HB HC Heq.
  pose proof (precompute_create_tables _ _ _ _ _ _ data HAm HBm Hpc) as Ht.
  apply (sieve_keeps_solutions x y z A_max B_max data A B C); try assumption; lia.
Qed.

Lemma sieve_soundness_witness :
  precompute_create true 3 3 4 2 2 = Some (Some sample_data)
  /\ 2 ^ 3 + 2 ^ 3 = 2 ^ 4
  /\ sieve_survives_scalar 2 2 sample_data = true.
Proof.
  split; [exact sample_data_created|]. split; [reflexivity|].
  apply (sieve_soundness true 3 3 4 2 2 sample_data 2 2 2);
    unfold U32.modulus, U64.in_range, U64.modulus;
    first [lia | exact sample_data_created | reflexivity].
Defined.

(** C2 — Residue mask exactness.  For every sieve prime p and every z >= 3,
    bit r of the 128-bit mask that [compute_residue_mask128] fills is set
    exactly when some s in [0, p) has s^z mod p = r (no bit at or above p is
    ever set); for p = 71 and z = 3 bit 70 is set, and it lies in the upper
    64-bit word. *)
Theorem residue_mask_exact :
  (forall p z r,
      In p SIEVE_PRIMES -> 3 <= z < U32.modulus -> 0 <= r < 128 ->
      get_bit128 (compute_residue_mask128 p z) r = true
      <-> exists s, 0 <= s < p /\ s ^ z mod p = r)
  /\ get_bit128 (compute_residue_mask128 71 3) 70 = true
  /\ Z.testbit (Mask128.word1 (compute_residue_mask128 71 3)) (70 - 64) = true.
Proof.
  split; [|split; vm_compute; reflexivity].
  intros p z r Hp Hz Hr. apply sieve_prime_bounds in Hp.
  unfold U32.modulus in Hz. apply residue_mask_bit; lia.
Qed.

Lemma residue_mask_exact_witness :
  In 7 SIEVE_PRIMES
  /\ (get_bit128 (compute_residue_mask128 7 3) 6 = true
      <-> exists s, 0 <= s < 7 /\ s ^ 3 mod 7 = 6).
Proof.
  split; [cbn; tauto|].
  apply (proj1 residue_mask_exact 7 3 6);
    [cbn; tauto | unfold U32.modulus; lia | lia].
Defined.

(** C3 — as stated, with the integer sum B_start + l, the claim fails for a
    block whose lanes pass 2^64, because the code forms the lane's value in
    [uint64_t].  On the sample tables (B_max = 2) with B_start = 2^64 - 4,
    lane 6 has B_start + 6 > B_max; its value wraps to 2, the pair (2, 2)
    survives the scalar sieve, and bit 6 of the mask is set (the mask is
    0x40). *)
Lemma avx2_lane_wrap_counterexample :
  0 <= 2 <= PrecomputedData.A_max sample_data
  /\ U64.in_range 18446744073709551612
  /\ 0 <= 6 < 8
  /\ PrecomputedData.B_max sample_data < 18446744073709551612 + 6
  /\ Z.testbit (sieve_survives_avx2_8 2 18446744073709551612 sample_data) 6
     = true
  /\ sieve_survives_avx2_8 2 18446744073709551612 sample_data = 64.
Proof.
  split; [vm_compute; split; discriminate|].
  split; [unfold U64.in_range, U64.modulus; lia|].
  split; [lia|].
  split; [vm_compute; reflexivity|].
  split; vm_compute; reflexivity.
Qed.

(** C3 (amended) — Scalar/8-lane equivalence.  For every A in [0, A_max],
    every B_start and every lane l in [0, 8) with B_start + l < 2^64: if
    B_start + l <= B_max, bit l of [sieve_survives_avx2_8 A B_start] is the
    scalar sieve's decision for (A, B_start + l); if B_start + l > B_max,
    bit l is 0.  For every B_start, the same holds of the lane's value as the
    code computes it, the [uint64_t] sum (B_start + l) mod 2^64. *)
Theorem avx2_lane_equivalence (A B_start l : Z) (data : PrecomputedData.t) :
  0 <= A <= PrecomputedData.A_max data -> U64.in_range B_start ->
  0 <= l < 8 ->
  (B_start + l < U64.modulus ->
   (B_start + l <= PrecomputedData.B_max data ->
    Z.testbit (sieve_survives_avx2_8 A B_start data) l
    = sieve_survives_scalar A (B_start + l) data)
   /\ (PrecomputedData.B_max data < B_start + l ->
       Z.testbit (sieve_survives_avx2_8 A B_start data) l = false))
  /\ (let B := U64.add B_start l in
      (B <= PrecomputedData.B_max data ->
       Z.testbit (sieve_survives_avx2_8 A B_start data) l
       = sieve_survives_scalar A B data)
      /\ (PrecomputedData.B_max data < B ->
          Z.testbit (sieve_survives_avx2_8 A B_start data) l = false)).
Proof.
  intros _ HB Hl.
  assert (Hwrapped :
            let B := U64.add B_start l in
            (B <= PrecomputedData.B_max data ->
             Z.testbit (sieve_survives_avx2_8 A B_start data) l
             = sieve_survives_scalar A B data)
            /\ (PrecomputedData.B_max data < B ->
                Z.testbit (sieve_survives_avx2_8 A B_start data) l = false)).
  { intros B. subst B. rewrite sieve_avx2_lane by exact Hl.
    split; intros HBm.
    - destruct (Z.leb_spec (U64.add B_start l) (PrecomputedData.B_max data));
        [reflexivity | lia].
    - destruct (Z.leb_spec (U64.add B_start l) (PrecomputedData.B_max data));
        [lia | reflexivity]. }
  split; [|exact Hwrapped].
  intros Hfit.
  assert (Hsum : U64.add B_start l = B_start + l).
  { unfold U64.add. apply u64_wrap_small. unfold U64.in_range in HB. lia. }
  cbv zeta in Hwrapped. rewrite Hsum in Hwrapped. exact Hwrapped.
Qed.

Lemma avx2_lane_equivalence_witness :
  (Z.testbit (sieve_survives_avx2_8 2 0 sample_data) 2
   = sieve_survives_scalar 2 (0 + 2) sample_data)
  /\ Z.testbit (sieve_survives_avx2_8 2 0 sample_data) 3 = false.
Proof.
  split.
  - apply (proj1 (proj1 (avx2_lane_equivalence 2 0 2 sample_data
                           ltac:(cbn; lia)
                           ltac:(unfold U64.in_range, U64.modulus; lia)
                           ltac:(lia))
                        ltac:(unfold U64.modulus; lia))).
    vm_compute. discriminate.
  - apply (proj2 (proj1 (avx2_lane_equivalence 2 0 3 sample_data
                           ltac:(cbn; lia)
                           ltac:(unfold U64.in_range, U64.modulus; lia)
                           ltac:(lia))
                        ltac:(unfold U64.modulus; lia))).
    vm_compute. reflexivity.
Defined.

(** C4 — Verifier contract.  For A, B >= 1 and exponents of at least 3,
    [check_beal_hit_gmp] returns true exactly when A^x + B^y is the z-th
    power of an integer r with 1 <= r <= C_max, and then it sets C = r and
    gcd = gcd(A, gcd(B, r)).  On (2, 2, 6, 6, 7, 1000) it returns true with
    C = 2 and gcd = 2; on (2, 3, 3, 3, 3, 1000) it returns false. *)
Theorem verifier_contract :
  (forall A B x y z C_max out,
      1 <= A < U64.modulus -> 1 <= B < U64.modulus ->
      3 <= x < U32.modulus -> 3 <= y < U32.modulus -> 3 <= z < U32.modulus ->
      U64.in_range C_max ->
      let res := check_beal_hit_gmp A B x y z C_max out in
      (fst res = true <-> exists r, 1 <= r <= C_max /\ A ^ x + B ^ y = r ^ z)
      /\ (forall r, 1 <= r -> A ^ x + B ^ y = r ^ z -> fst res = true ->
                    Outs.out_C (snd res) = r
                    /\ Outs.out_gcd (snd res) = Z.gcd A (Z.gcd B r)))
  /\ (forall out,
         check_beal_hit_gmp 2 2 6 6 7 1000 out = (true, Outs.mk 2 2))
  /\ (forall out, fst (check_beal_hit_gmp 2 3 3 3 3 1000 out) = false).
Proof.
  split; [|split].
  - intros A B x y z C_max out HA HB Hx Hy Hz HC res. subst res. split.
    + apply check_beal_hit_gmp_hit; try assumption; lia.
    + intros r Hr Heq Hhit.
      rewrite (check_beal_hit_gmp_outputs A B x y z C_max r out);
        unfold U64.in_range; try assumption; try lia.
      split; reflexivity.
  - intros out. rewrite check_beal_hit_gmp_cases. vm_compute. reflexivity.
  - intros out. rewrite check_beal_hit_gmp_cases. vm_compute. reflexivity.
Qed.

Lemma verifier_contract_witness :
  fst (check_beal_hit_gmp 2 2 6 6 7 1000 (Outs.mk 0 0)) = true
  <-> exists r, 1 <= r <= 1000 /\ 2 ^ 6 + 2 ^ 6 = r ^ 7.
Proof.
  apply (proj1 (proj1 verifier_contract 2 2 6 6 7 1000 (Outs.mk 0 0)
                  ltac:(unfold U64.modulus; lia) ltac:(unfold U64.modulus; lia)
                  ltac:(unfold U32.modulus; lia) ltac:(unfold U32.modulus; lia)
                  ltac:(unfold U32.modulus; lia)
                  ltac:(unfold U64.in_range, U64.modulus; lia))).
Defined.

(** C5 — Integrity digest.  The [integrity_hash] of the COMPLETE record that
    [log_complete] writes is the 64-bit FNV-1a value (offset basis
    0xCBF29CE484222325, prime 0x100000001B3, arithmetic modulo 2^64) that
    absorbs x, y, z, A_start, A_max, B_start, B_max, C_max, total_pairs,
    gcd_filtered, mod_filtered, exact_checks, power_hits, primitive_hits in
    this order, each as one 64-bit quantity, XOR then multiply; it is
    rendered as 16 lowercase hexadecimal digits. *)
Theorem integrity_hash_fnv1a (fopen_ok : bool) (path : option string)
    (run_id : Z) (params : SearchParams.t) (results : SearchResults.t)
    (rec : CompleteRecord.t) :
  log_complete fopen_ok path run_id params results = Some rec ->
  let digest := fnv1a64 (digest_fields params results) in
  14695981039346656037 = 0xCBF29CE484222325
  /\ 1099511628211 = 0x100000001B3
  /\ String.length (CompleteRecord.integrity_hash rec) = 16%nat
  /\ string_forallb is_lower_hex (CompleteRecord.integrity_hash rec) = true
  /\ hex_parse (CompleteRecord.integrity_hash rec) 0 = digest.
Proof.
  intros Hlog digest. subst digest. unfold log_complete in Hlog.
  destruct path as [p|]; [|discriminate].
  destruct fopen_ok; cbn [negb] in Hlog; [|discriminate].
  apply some_inj in Hlog. subst rec. cbn [CompleteRecord.integrity_hash].
  rewrite <- log_complete_hash_fnv1a.
  split; [reflexivity|]. split; [reflexivity|].
  apply fmt_016x_spec. apply log_complete_hash_range.
Qed.

Lemma integrity_hash_fnv1a_witness :
  exists rec,
    log_complete true (Some "run.jsonl"%string) 7 sample_params results_init
    = Some rec
    /\ hex_parse (CompleteRecord.integrity_hash rec) 0
       = fnv1a64 (digest_fields sample_params results_init).
Proof.
  eexists. split; [reflexivity|].
  apply (integrity_hash_fnv1a true (Some "run.jsonl"%string) 7 sample_params
           results_init _ eq_refl).
Defined.

Lemma search_parallel_primitive (env : Env.t) (params : SearchParams.t)
    (results : SearchResults.t) (rec : option CompleteRecord.t) :
  search_parallel env params = Some (results, rec) ->
  SearchResults.primitive_hits results
  = count_primitive (SearchResults.hits results)
  /\ SearchResults.power_hits results = SearchResults.hits_count results.
Proof.
  unfold search_parallel. cbv zeta.
  destruct (precompute_create _ _ _ _ _ _) as [[data|]|]; [| |discriminate].
  - destruct (workers _ _ _ _ _) as [sh|]; [|discriminate].
    intros H. apply some_inj in H. injection H as <- _. split; reflexivity.
  - intros H. apply some_inj in H. injection H as <- _. split; reflexivity.
Qed.

Lemma count_primitive_range (hits : list BealHit.t) :
  0 <= count_primitive hits < U64.modulus.
Proof. rewrite count_primitive_filter. apply u64_wrap_range. Qed.

(** C7 — Exit codes.  On a usage error (an exponent below 3, a start value
    below 1, or a maximum below its start) the process exits with code 1,
    which is neither 0 nor 42, and [search_parallel] is not called.
    Otherwise, when the search completes, the exit code is 0 when
    primitive_hits = 0 and 42 when primitive_hits > 0, where primitive_hits
    counts the hits of the results with gcd = 1: code 42 means that a
    verified hit with gcd = 1 is among the hits, and such a hit gives code
    42. *)
Theorem exit_codes (env : Env.t) (params : SearchParams.t) :
  (usage_error params ->
   main env params = Some (MainResult.mk 1 None) /\ 1 <> 0 /\ 1 <> 42)
  /\ (~ usage_error params ->
      forall results rec,
        search_parallel env params = Some (results, rec) ->
        exists code,
          main env params = Some (MainResult.mk code (Some results))
          /\ (SearchResults.primitive_hits results = 0 -> code = 0)
          /\ (0 < SearchResults.primitive_hits results -> code = 42)
          /\ 0 <= SearchResults.primitive_hits results
          /\ (code = 42 ->
              exists h, In h (SearchResults.hits results) /\ BealHit.gcd h = 1)
          /\ (SearchResults.hits_count results < U64.modulus ->
              (exists h, In h (SearchResults.hits results)
                         /\ BealHit.gcd h = 1) ->
              code = 42)).
Proof.
  split.
  - intros Hbad. split; [|lia]. unfold main, usage_error in *.
    destruct (Z.ltb_spec (SearchParams.x params) 3);
      destruct (Z.ltb_spec (SearchParams.y params) 3);
      destruct (Z.ltb_spec (SearchParams.z params) 3);
      cbn [orb]; try reflexivity.
    destruct (Z.ltb_spec (SearchParams.A_start params) 1);
      destruct (Z.ltb_spec (SearchParams.B_start params) 1);
      cbn [orb]; try reflexivity.
    destruct (Z.ltb_spec (SearchParams.A_max params)
                         (SearchParams.A_start params));
      destruct (Z.ltb_spec (SearchParams.B_max params)
                           (SearchParams.B_start params));
      cbn [orb]; try reflexivity.
    lia.
  - intros Hok results rec Hrun.
    exists (if 0 <? SearchResults.primitive_hits results then 42 else 0).
    destruct (search_parallel_primitive env params results rec Hrun)
      as [Hprim _].
    pose proof (count_primitive_range (SearchResults.hits results)) as Hrange.
    rewrite <- Hprim in Hrange.
    split; [|split; [|split; [|split; [|split]]]].
    + unfold main, usage_error in *.
      destruct (Z.ltb_spec (SearchParams.x params) 3); [lia|].
      destruct (Z.ltb_spec (SearchParams.y params) 3); [lia|].
      destruct (Z.ltb_spec (SearchParams.z params) 3); [lia|].
      destruct (Z.ltb_spec (SearchParams.A_start params) 1); [lia|].
      destruct (Z.ltb_spec (SearchParams.B_start params) 1); [lia|].
      destruct (Z.ltb_spec (SearchParams.A_max params)
                           (SearchParams.A_start params)); [lia|].
      destruct (Z.ltb_spec (SearchParams.B_max params)
                           (SearchParams.B_start params)); [lia|].
      cbn [orb]. rewrite Hrun. reflexivity.
    + intros ->. reflexivity.
    + intros Hpos. destruct (Z.ltb_spec 0 (SearchResults.primitive_hits results));
        [reflexivity | lia].
    + lia.
    + intros Hcode.
      destruct (Z.ltb_spec 0 (SearchResults.primitive_hits results));
        [|discriminate].
      apply count_primitive_positive. now rewrite <- Hprim.
    + intros Hcount (h & Hin & Hg).
      assert (Hpos : 0 < SearchResults.primitive_hits results).
      { rewrite Hprim, count_primitive_filter.
        set (prims := filter (fun h => BealHit.gcd h =? 1)
                             (SearchResults.hits results)).
        assert (Hle : (List.length prims
                       <= List.length (SearchResults.hits results))%nat)
          by apply filter_length_le.
        assert (Hin' : In h prims)
          by (apply filter_In; split; [exact Hin | now apply Z.eqb_eq]).
        assert (Hne : (0 < List.length prims)%nat)
          by (destruct prims; [contradiction | cbn; lia]).
        unfold SearchResults.hits_count in Hcount.
        rewrite u64_wrap_small by lia. lia. }
      destruct (Z.ltb_spec 0 (SearchResults.primitive_hits results));
        [reflexivity | lia].
Qed.

Lemma exit_codes_witness :
  main sample_env sample_bad_params = Some (MainResult.mk 1 None)
  /\ exists results code,
       main sample_env sample_params
       = Some (MainResult.mk code (Some results))
       /\ code = 0.
Proof.
  split.
  - apply (proj1 (exit_codes sample_env sample_bad_params)).
    unfold usage_error. cbn. lia.
  - assert (Hok : ~ usage_error sample_params)
      by (unfold usage_error; cbn; lia).
    destruct (proj2 (exit_codes sample_env sample_params) Hok _ _ eq_refl)
      as (code & Hmain & Hzero & _).
    eexists. exists code. split; [exact Hmain|].
    apply Hzero. reflexivity.
Defined.

(** C8 — the claim fails for moduli above 2^32, where the product of two
    residues no longer fits 64 bits: powmod(2^32, 2, 2^32 + 1) returns 0,
    and (2^32)^2 mod (2^32 + 1) is 1. *)
Lemma powmod_large_modulus_counterexample :
  1 <= 4294967297
  /\ powmod 4294967296 2 4294967297 = 0
  /\ 4294967296 ^ 2 mod 4294967297 = 1
  /\ powmod 4294967296 2 4294967297 <> 4294967296 ^ 2 mod 4294967297.
Proof.
  split; [lia|]. split; [vm_compute; reflexivity|].
  split; [vm_compute; reflexivity|]. vm_compute. discriminate.
Qed.

(** C8 (amended) — Modular exponentiation.  For every base, every exponent
    below 2^32 and every modulus m with 2 <= m <= 2^32 (and for m = 1 when
    the exponent is at least 1), [powmod] returns base^exp mod m; the base is
    reduced mod m before the first squaring, so the result is that of the
    reduced base; and no product that the loop forms reaches 2^64, in
    particular for m <= 71. *)
Theorem powmod_correct (base exp m : Z) :
  0 <= exp < U32.modulus -> 1 <= m <= 2 ^ 32 -> 2 <= m \/ 1 <= exp ->
  powmod base exp m = base ^ exp mod m
  /\ powmod base exp m = powmod (base mod m) exp m
  /\ Forall (fun q => 0 <= q < U64.modulus) (powmod_products base exp m).
Proof.
  unfold U32.modulus. intros He Hm Hne. split; [|split].
  - now apply powmod_spec.
  - apply powmod_reduces_base. lia.
  - now apply powmod_products_fit.
Qed.

Lemma powmod_correct_witness :
  powmod 18446744073709551615 10 71 = 18446744073709551615 ^ 10 mod 71
  /\ Forall (fun q => 0 <= q < U64.modulus)
            (powmod_products 18446744073709551615 10 71).
Proof.
  pose proof (powmod_correct 18446744073709551615 10 71
                ltac:(unfold U32.modulus; lia) ltac:(lia) ltac:(lia))
    as (H1 & _ & H3).
  split; [exact H1 | exact H3].
Defined.

(** C9 — Verifier frame.  When [check_beal_hit_gmp] returns false it writes
    neither [*out_C] nor [*out_gcd]: the caller's two cells hold what they
    held before; the cells change only when it returns true. *)
Theorem verifier_frame (A B x y z C_max : Z) (out : Outs.t) :
  let res := check_beal_hit_gmp A B x y z C_max out in
  (fst res = false -> snd res = out)
  /\ (snd res <> out -> fst res = true).
Proof.
  cbv zeta. split.
  - apply check_beal_hit_gmp_miss.
  - intros Hne.
    destruct (fst (check_beal_hit_gmp A B x y z C_max out)) eqn:Hf;
      [reflexivity|].
    exfalso. apply Hne. now apply check_beal_hit_gmp_miss.
Qed.

Lemma verifier_frame_witness :
  snd (check_beal_hit_gmp 2 3 3 3 3 1000 (Outs.mk 5 6)) = Outs.mk 5 6.
Proof.
  apply (proj1 (verifier_frame 2 3 3 3 3 1000 (Outs.mk 5 6))).
  vm_compute. reflexivity.
Defined.

(** C10 — [count_sieve_survivors] counts exactly the pairs (A, B) of
    [A_start, A_end] x [B_start, B_end] with gcd64(A, B) = 1 that survive the
    scalar sieve (in the 64-bit counter, which holds the count itself when
    the rectangle has fewer than 2^64 pairs).  A pair with gcd(A, B) > 1 is
    not counted even when it survives the sieve: for signature (3, 3, 4) the
    pair (2, 2) survives and the count over that single pair is 0. *)
Theorem count_sieve_survivors_coprime (A_start A_end B_start B_end : Z)
    (data : PrecomputedData.t) :
  0 <= A_start -> A_end < U64.max -> 0 <= B_start -> B_end < U64.max ->
  count_sieve_survivors A_start A_end B_start B_end data
  = Some (U64.wrap (coprime_survivors A_start A_end B_start B_end data))
  /\ (Z.max 0 (A_end - A_start + 1) * Z.max 0 (B_end - B_start + 1)
      < U64.modulus ->
      count_sieve_survivors A_start A_end B_start B_end data
      = Some (coprime_survivors A_start A_end B_start B_end data))
  /\ (sieve_survives_scalar 2 2 sample_data = true
      /\ gcd64 2 2 = 2
      /\ count_sieve_survivors 2 2 2 2 sample_data = Some 0).
Proof.
  intros HAs HAe HBs HBe.
  pose proof (count_sieve_survivors_spec A_start A_end B_start B_end data
                HAs HAe HBs HBe) as Hspec.
  split; [exact Hspec|]. split.
  - intros Hfit. rewrite Hspec. f_equal. apply u64_wrap_small.
    pose proof (coprime_survivors_bound A_start A_end B_start B_end data). lia.
  - repeat split; vm_compute; reflexivity.
Qed.

Lemma count_sieve_survivors_coprime_witness :
  count_sieve_survivors 1 2 1 2 sample_data
  = Some (coprime_survivors 1 2 1 2 sample_data).
Proof.
  apply (proj1 (proj2 (count_sieve_survivors_coprime 1 2 1 2 sample_data
                         ltac:(lia) ltac:(unfold U64.max, U64.modulus; lia)
                         ltac:(lia) ltac:(unfold U64.max, U64.modulus; lia)))).
  unfold U64.modulus. vm_compute. reflexivity.
Defined.

(** * Further properties of the primitives *)

(** X1 — [gcd64] is the greatest common divisor on all 64-bit operands:
    gcd64(0, b) = b and gcd64(a, 0) = a (so gcd64(0, 0) = 0), the result is
    symmetric and fits 64 bits, and the do-while loop has ended after at most
    128 rounds (more rounds give the same value). *)
Theorem gcd64_is_gcd (a b : Z) :
  U64.in_range a -> U64.in_range b ->
  gcd64 a b = Z.gcd a b
  /\ gcd64 0 b = b /\ gcd64 a 0 = a
  /\ gcd64 a b = gcd64 b a
  /\ U64.in_range (gcd64 a b)
  /\ (forall extra, 0 < a -> 0 < b ->
        gcd64_loop (128 + extra) (U64.shr a (ctzll a)) b
        = gcd64_loop 128 (U64.shr a (ctzll a)) b).
Proof.
  intros Ha Hb. pose proof Ha as Ha'. pose proof Hb as Hb'.
  unfold U64.in_range in Ha', Hb'.
  rewrite !gcd64_spec by (try assumption; unfold U64.in_range, U64.modulus; lia).
  split; [reflexivity|]. split; [rewrite Z.gcd_0_l; lia|].
  split; [rewrite Z.gcd_0_r; lia|]. split; [apply Z.gcd_comm|]. split.
  - unfold U64.in_range. split; [apply Z.gcd_nonneg|].
    destruct (Z.eq_dec a 0) as [->|Hnz]; [rewrite Z.gcd_0_l; lia|].
    assert (Z.gcd a b <= a); [|lia].
    apply Z.divide_pos_le; [lia | apply Z.gcd_divide_l].
  - intros extra Hpa Hpb.
    destruct (shr_ctzll a Hpa) as (_ & _ & Hodd & Hrange).
    apply gcd64_loop_stable; [exact Hodd | lia | lia].
Qed.

Lemma gcd64_is_gcd_witness : gcd64 12 8 = Z.gcd 12 8.
Proof.
  apply (gcd64_is_gcd 12 8); unfold U64.in_range, U64.modulus; lia.
Defined.

(** X2 — Setting bit b of a 128-bit mask makes [get_bit128] read it as set
    and leaves the other 127 bits as they were, for b on either side of the
    word boundary at 64; a mask of two zero words has no bit set. *)
Theorem bit128_set_then_get (mask : Mask128.t) (b c : Z) :
  0 <= b < 128 -> 0 <= c < 128 ->
  get_bit128 (set_bit128 mask b) b = true
  /\ (c <> b -> get_bit128 (set_bit128 mask b) c = get_bit128 mask c)
  /\ get_bit128 Mask128.zero c = false.
Proof.
  intros Hb Hc. split; [|split].
  - rewrite get_bit128_set by assumption. now rewrite Z.eqb_refl.
  - intros Hne. rewrite get_bit128_set by assumption.
    destruct (Z.eqb_spec b c); [congruence | reflexivity].
  - apply get_bit128_zero.
Qed.

Lemma bit128_set_then_get_witness :
  get_bit128 (set_bit128 Mask128.zero 70) 70 = true
  /\ get_bit128 (set_bit128 Mask128.zero 70) 6 = false.
Proof.
  destruct (bit128_set_then_get Mask128.zero 70 6 ltac:(lia) ltac:(lia))
    as (H1 & H2 & H3).
  split; [exact H1|]. rewrite H2 by lia. exact H3.
Defined.

(** X3 — A residue mask is never empty and never reaches past its prime:
    for every sieve prime p and every exponent 1 <= z < 2^32, bits 0 and 1
    are set and no bit at or above p is set; for p <= 64 the upper word
    stays 0. *)
Theorem residue_mask_shape (p z : Z) :
  In p SIEVE_PRIMES -> 1 <= z < U32.modulus ->
  get_bit128 (compute_residue_mask128 p z) 0 = true
  /\ get_bit128 (compute_residue_mask128 p z) 1 = true
  /\ (forall r, p <= r < 128 ->
        get_bit128 (compute_residue_mask128 p z) r = false)
  /\ (p <= 64 ->
      forall r, 64 <= r < 128 ->
        Z.testbit (Mask128.word1 (compute_residue_mask128 p z)) (r - 64)
        = false).
Proof.
  intros Hp Hz. apply sieve_prime_bounds in Hp. unfold U32.modulus in Hz.
  assert (Hhigh : forall r, p <= r < 128 ->
                    get_bit128 (compute_residue_mask128 p z) r = false).
  { intros r Hr. apply not_true_is_false. intros Hset.
    apply residue_mask_bit in Hset; try lia.
    destruct Hset as (s & Hs & Heq).
    pose proof (Z.mod_pos_bound (s ^ z) p ltac:(lia)). lia. }
  split; [|split; [|split]].
  - apply residue_mask_bit; try lia. exists 0. split; [lia|].
    rewrite Z.pow_0_l by lia. apply Z.mod_0_l. lia.
  - apply residue_mask_bit; try lia. exists 1. split; [lia|].
    rewrite Z.pow_1_l by lia. apply Z.mod_1_l. lia.
  - exact Hhigh.
  - intros Hp64 r Hr. specialize (Hhigh r ltac:(lia)).
    rewrite get_bit128_testbit in Hhigh by lia. unfold mask_bit in Hhigh.
    destruct (Z.ltb_spec r 64); [lia | exact Hhigh].
Qed.

Lemma residue_mask_shape_witness :
  get_bit128 (compute_residue_mask128 7 3) 0 = true
  /\ get_bit128 (compute_residue_mask128 7 3) 1 = true.
Proof.
  destruct (residue_mask_shape 7 3 ltac:(cbn; tauto)
              ltac:(unfold U32.modulus; lia)) as (H0 & H1 & _).
  split; [exact H0 | exact H1].
Defined.

(** * Further properties of the tables and the sieve *)

Lemma precompute_create_form (alloc_ok : bool) (x y z A_max B_max : Z)
    (data : PrecomputedData.t) :
  U64.in_range A_max -> U64.in_range B_max ->
  precompute_create alloc_ok x y z A_max B_max = Some (Some data) ->
  data
  = PrecomputedData.mk x y z
      (map (fun i => compute_residue_mask128 (prime_at i) z) prime_indices)
      (map (fun A => map (fun i => U8.wrap (powmod A x (prime_at i)))
                         prime_indices)
           (zrange 0 A_max))
      (map (fun i => map (fun B => U8.wrap (powmod B y (prime_at i)))
                         (zrange 0 B_max))
           prime_indices)
      A_max B_max.
Proof.
  intros HA HB Hpc. unfold U64.in_range in *. unfold precompute_create in Hpc.
  destruct alloc_ok; cbn [negb] in Hpc; [|discriminate].
  destruct (for_u64 0 A_max 1 _ []) as [ax|] eqn:Hax; [|discriminate].
  destruct (by_mod_rows prime_indices y B_max) as [byt|] eqn:Hby; [|discriminate].
  apply for_u64_unit_returns in Hax; [|rewrite u64_modulus_eq; lia | lia].
  destruct Hax as [HAlt Hax].
  destruct (by_mod_rows_nth y B_max HB _ _ Hby) as [HBlt|Hnil];
    [|discriminate Hnil].
  rewrite by_mod_rows_spec in Hby by lia.
  rewrite fold_opt_pure in Hax.
  rewrite (fold_left_snoc
             (fun A => map (fun i => U8.wrap (powmod A x (prime_at i)))
                           prime_indices)) in Hax.
  apply some_inj in Hax. apply some_inj in Hby.
  apply some_inj, some_inj in Hpc. subst ax byt data. reflexivity.
Qed.

(** X4 — The tables that [precompute_create] returns.  The bounds are
    below 2^64 - 1; [ax_mod] has A_max + 1 rows of 20 bytes and [by_mod] 20
    rows of B_max + 1 bytes; [ax_mod[A][i]] is A^x mod p_i, [by_mod[i][B]] is
    B^y mod p_i (index 0 included), and mask i is the residue mask of p_i;
    the signature and the bounds are stored as given. *)
Theorem precompute_create_exact (alloc_ok : bool) (x y z A_max B_max : Z)
    (data : PrecomputedData.t) :
  U32.in_range x -> U32.in_range y ->
  U64.in_range A_max -> U64.in_range B_max ->
  precompute_create alloc_ok x y z A_max B_max = Some (Some data) ->
  alloc_ok = true /\ A_max < U64.max /\ B_max < U64.max
  /\ PrecomputedData.x data = x /\ PrecomputedData.y data = y
  /\ PrecomputedData.z data = z
  /\ PrecomputedData.A_max data = A_max /\ PrecomputedData.B_max data = B_max
  /\ Z.of_nat (List.length (PrecomputedData.ax_mod data)) = A_max + 1
  /\ List.length (PrecomputedData.by_mod data) = NUM_SIEVE_PRIMES
  /\ List.length (PrecomputedData.residue_masks data) = NUM_SIEVE_PRIMES
  /\ (forall A i, 0 <= A <= A_max -> (i < NUM_SIEVE_PRIMES)%nat ->
        List.length (read_row (PrecomputedData.ax_mod data) A)
        = NUM_SIEVE_PRIMES
        /\ read (read_row (PrecomputedData.ax_mod data) A) (Z.of_nat i)
           = A ^ x mod prime_at i)
  /\ (forall B i, 0 <= B <= B_max -> (i < NUM_SIEVE_PRIMES)%nat ->
        Z.of_nat (List.length
                    (read_row (PrecomputedData.by_mod data) (Z.of_nat i)))
        = B_max + 1
        /\ read (read_row (PrecomputedData.by_mod data) (Z.of_nat i)) B
           = B ^ y mod prime_at i)
  /\ (forall i, (i < NUM_SIEVE_PRIMES)%nat ->
        read_mask (PrecomputedData.residue_masks data) i
        = compute_residue_mask128 (prime_at i) z).
Proof.
  unfold U32.in_range, U32.modulus. intros Hx Hy HA HB Hpc.
  pose proof (precompute_create_tables _ _ _ _ _ _ data HA HB Hpc)
    as (Hdx & Hdy & Hdz & HdA & HdB & HAlt & HBlt & Hmask & Hax & Hby).
  pose proof (precompute_create_form _ _ _ _ _ _ data HA HB Hpc) as Hform.
  assert (Halloc : alloc_ok = true).
  { unfold precompute_create in Hpc. destruct alloc_ok; [reflexivity|].
    discriminate. }
  assert (Hres : forall v e i, 0 <= e < 2 ^ 32 -> (i < NUM_SIEVE_PRIMES)%nat ->
                   U8.wrap (powmod v e (prime_at i)) = v ^ e mod prime_at i).
  { intros v e i He Hi.
    pose proof (sieve_prime_bounds _ (prime_at_in i Hi)) as Hp.
    pose proof (powmod_range v e (prime_at i) ltac:(lia) He ltac:(lia)).
    rewrite u8_wrap_small by lia. apply powmod_spec; lia. }
  unfold U64.in_range in *.
  repeat match goal with |- _ /\ _ => split end; try assumption.
  - rewrite Hform. cbn [PrecomputedData.ax_mod].
    rewrite length_map, zrange_length. lia.
  - rewrite Hform. cbn [PrecomputedData.by_mod].
    unfold prime_indices. now rewrite length_map, length_seq.
  - rewrite Hform. cbn [PrecomputedData.residue_masks].
    unfold prime_indices. now rewrite length_map, length_seq.
  - intros A i HA' Hi. split.
    + rewrite Hform. cbn [PrecomputedData.ax_mod]. unfold read_row.
      rewrite nth_zrange_map by lia.
      unfold prime_indices. now rewrite length_map, length_seq.
    + rewrite Hax by assumption. now apply Hres.
  - intros B i HB' Hi. split.
    + rewrite Hform. cbn [PrecomputedData.by_mod]. unfold read_row.
      rewrite Nat2Z.id, nth_prime_indices_map by exact Hi.
      rewrite length_map, zrange_length. lia.
    + rewrite Hby by assumption. now apply Hres.
Qed.

Lemma precompute_create_exact_witness :
  PrecomputedData.B_max sample_data = 2
  /\ read (read_row (PrecomputedData.ax_mod sample_data) 2) (Z.of_nat 3)
     = 2 ^ 3 mod prime_at 3.
Proof.
  pose proof (precompute_create_exact true 3 3 4 2 2 sample_data
                ltac:(unfold U32.in_range, U32.modulus; lia)
                ltac:(unfold U32.in_range, U32.modulus; lia)
                ltac:(unfold U64.in_range, U64.modulus; lia)
                ltac:(unfold U64.in_range, U64.modulus; lia)
                sample_data_created)
    as (_ & _ & _ & _ & _ & _ & _ & HB & _ & _ & _ & Hax & _).
  split; [exact HB|].
  apply (Hax 2 3%nat); [lia | unfold NUM_SIEVE_PRIMES; lia].
Defined.

Lemma in_sieve_primes (p : Z) :
  In p SIEVE_PRIMES <-> exists i, (i < NUM_SIEVE_PRIMES)%nat /\ prime_at i = p.
Proof.
  split.
  - intros Hin. apply (In_nth _ _ 0) in Hin. destruct Hin as (i & Hi & Hp).
    exists i. split; assumption.
  - intros (i & Hi & <-). now apply prime_at_in.
Qed.

(** X5 — The sieve's decision rule.  On the tables of [precompute_create]
    and a pair inside the bounds (0 included), the scalar sieve returns true
    exactly when, for every one of the 20 primes p, the residue of
    A^x + B^y modulo p is the residue of a z-th power. *)
Theorem sieve_decision_rule (alloc_ok : bool) (x y z A_max B_max : Z)
    (data : PrecomputedData.t) (A B : Z) :
  U32.in_range x -> U32.in_range y -> U32.in_range z ->
  U64.in_range A_max -> U64.in_range B_max ->
  precompute_create alloc_ok x y z A_max B_max = Some (Some data) ->
  0 <= A <= A_max -> 0 <= B <= B_max ->
  sieve_survives_scalar A B data = true
  <-> forall p, In p SIEVE_PRIMES ->
        exists s, 0 <= s < p /\ s ^ z mod p = (A ^ x + B ^ y) mod p.
Proof.
  unfold U32.in_range, U32.modulus. intros Hx Hy Hz HAm HBm Hpc HA HB.
  pose proof (precompute_create_tables _ _ _ _ _ _ data HAm HBm Hpc) as Ht.
  unfold sieve_survives_scalar.
  rewrite sieve_scalar_from_forallb, forallb_forall. split.
  - intros Hall p Hp. apply in_sieve_primes in Hp. destruct Hp as (i & Hi & <-).
    apply (sieve_prime_admits_exact x y z A_max B_max data i A B);
      try assumption.
    apply Hall. now apply in_prime_indices.
  - intros Hall i Hi. apply in_prime_indices in Hi.
    apply (sieve_prime_admits_exact x y z A_max B_max data i A B);
      try assumption.
    apply Hall. now apply prime_at_in.
Qed.

Lemma sieve_decision_rule_witness :
  sieve_survives_scalar 1 2 sample_data = true
  <-> forall p, In p SIEVE_PRIMES ->
        exists s, 0 <= s < p /\ s ^ 4 mod p = (1 ^ 3 + 2 ^ 3) mod p.
Proof.
  apply (sieve_decision_rule true 3 3 4 2 2 sample_data 1 2);
    unfold U32.in_range, U32.modulus, U64.in_range, U64.modulus;
    first [lia | exact sample_data_created].
Defined.

Lemma lane_step_range (i : nat) (A B_start : Z) (data : PrecomputedData.t)
    (s l : Z) :
  0 <= s < 256 -> 0 <= lane_step i A B_start data s l < 256.
Proof.
  intros Hs. unfold lane_step. cbv zeta.
  assert (Hc : 0 <= clear_lane s l < 256)
    by (unfold clear_lane, U8.wrap, U8.modulus; apply Z.mod_pos_bound; lia).
  destruct (_ =? 0); [exact Hs|].
  destruct (_ <? _); [exact Hc|].
  destruct (negb _); [exact Hc | exact Hs].
Qed.

Lemma sieve_avx2_from_range (A B_start : Z) (data : PrecomputedData.t)
    (idxs : list nat) :
  forall s, 0 <= s < 256 -> 0 <= sieve_avx2_from idxs A B_start data s < 256.
Proof.
  induction idxs as [|i rest IH]; intros s Hs; [exact Hs|].
  cbn [sieve_avx2_from]. cbv zeta.
  assert (Hf : forall ls s0, 0 <= s0 < 256 ->
                 0 <= fold_left (lane_step i A B_start data) ls s0 < 256).
  { induction ls as [|l ls IHl]; intros s0 Hs0; [exact Hs0|].
    cbn [fold_left]. apply IHl. now apply lane_step_range. }
  specialize (Hf lanes s Hs).
  destruct (_ =? 0); [exact Hf | now apply IH].
Qed.

(** X6 — The survivor mask is a byte.  It is 0 exactly when no lane whose
    value, the [uint64_t] sum B_start + l, is at most [B_max] survives the
    scalar sieve.  A block that starts beyond [B_max] and whose eight lane
    values do not pass 2^64 (B_start + 7 < 2^64) gives 0. *)
Theorem avx2_mask_value (A B_start : Z) (data : PrecomputedData.t) :
  U64.in_range B_start ->
  let r := sieve_survives_avx2_8 A B_start data in
  0 <= r < 256
  /\ (r = 0
      <-> forall l, 0 <= l < 8 ->
            U64.add B_start l <= PrecomputedData.B_max data ->
            sieve_survives_scalar A (U64.add B_start l) data = false)
  /\ (PrecomputedData.B_max data < B_start -> B_start + 7 < U64.modulus ->
      r = 0).
Proof.
  intros HB r.
  assert (Hr : 0 <= r < 256)
    by (apply sieve_avx2_from_range; lia).
  assert (Hzero : r = 0 <-> forall l, 0 <= l < 8 -> Z.testbit r l = false).
  { split.
    - intros -> l _. apply Z.bits_0.
    - intros Hbits. apply Z.bits_inj'. intros n Hn. rewrite Z.bits_0.
      destruct (Z.lt_ge_cases n 8) as [Hlt|Hge]; [apply Hbits; lia|].
      rewrite <- (Z.mod_small r (2 ^ 8)) by (change (2 ^ 8) with 256; lia).
      apply Z.mod_pow2_bits_high. lia. }
  assert (Hlane : forall l, 0 <= l < 8 ->
            Z.testbit r l
            = (U64.add B_start l <=? PrecomputedData.B_max data)
              && sieve_survives_scalar A (U64.add B_start l) data)
    by (intros l Hl; now apply sieve_avx2_lane).
  split; [exact Hr|]. split.
  - rewrite Hzero. split.
    + intros Hbits l Hl Hin. specialize (Hbits l Hl).
      rewrite Hlane in Hbits by exact Hl.
      destruct (Z.leb_spec (U64.add B_start l) (PrecomputedData.B_max data));
        [exact Hbits | lia].
    + intros Hdead l Hl. rewrite Hlane by exact Hl.
      destruct (Z.leb_spec (U64.add B_start l) (PrecomputedData.B_max data));
        [now apply Hdead | reflexivity].
  - intros Hout Hfit. apply Hzero. intros l Hl. rewrite Hlane by exact Hl.
    unfold U64.in_range in HB. rewrite u64_add_small by lia.
    destruct (Z.leb_spec (B_start + l) (PrecomputedData.B_max data));
      [lia | reflexivity].
Qed.

Lemma avx2_mask_value_witness : sieve_survives_avx2_8 2 3 sample_data = 0.
Proof.
  apply (proj2 (proj2 (avx2_mask_value 2 3 sample_data
                         ltac:(unfold U64.in_range, U64.modulus; lia))));
    [cbn; lia | unfold U64.modulus; lia].
Defined.

(** X7 — The loop over B.  When it returns, on the 8-lane path as on the
    scalar path, it has run the pipeline once for every B from [B_start] to
    [B_max], in increasing order, each time with the scalar sieve's decision
    for (A, B).  The scalar loop returns whenever [B_max < 2^64 - 1]; the
    8-lane loop returns only if its last block start plus 8 is below 2^64. *)
Theorem b_loop_visits_range (have_avx2 : bool) (params : SearchParams.t)
    (data : PrecomputedData.t) (A : Z) (st : Iter.t) :
  U64.in_range (SearchParams.B_start params) ->
  U64.in_range (SearchParams.B_max params) ->
  PrecomputedData.B_max data = SearchParams.B_max params ->
  let Bs := SearchParams.B_start params in
  let Bm := SearchParams.B_max params in
  (forall st',
      b_loop have_avx2 params data A st = Some st' ->
      st' = fold_left (pair_step have_avx2 params data A) (zrange Bs Bm) st)
  /\ (Bm < U64.max ->
      b_loop false params data A st
      = Some (fold_left (pair_step false params data A) (zrange Bs Bm) st))
  /\ (forall st',
         b_loop true params data A st = Some st' -> Bs <= Bm ->
         Bs + 8 * ((Bm - Bs) / 8 + 1) < U64.modulus).
Proof.
  intros HBs HBm Hdata Bs Bm. split; [|split].
  - intros st' Hrun. now apply b_loop_pairs.
  - intros Hlt. unfold b_loop. unfold U64.in_range in HBs.
    rewrite for_u64_unit_spec by (fold Bs Bm; lia).
    apply (fold_opt_pure
             (fun B st => pair_body false params
                            (sieve_survives_scalar A B data) A B st)).
  - intros st' Hrun Hle. unfold b_loop in Hrun.
    assert (H8 : 0 < 8 <= U64.modulus) by (rewrite u64_modulus_eq; lia).
    destruct (for_u64_pure_returns _ _ _ _ _ _ HBs (proj2 HBm) H8 Hrun)
      as [Hfit _].
    now apply Hfit.
Qed.

Lemma b_loop_visits_range_witness :
  b_loop false sample_params sample_data 1 (Iter.mk 0 0 0 0 [] results_init)
  = Some (fold_left (pair_step false sample_params sample_data 1)
                    (zrange 1 2) (Iter.mk 0 0 0 0 [] results_init)).
Proof.
  apply (proj1 (proj2 (b_loop_visits_range false sample_params sample_data 1
                         (Iter.mk 0 0 0 0 [] results_init)
                         ltac:(unfold U64.in_range, U64.modulus; cbn; lia)
                         ltac:(unfold U64.in_range, U64.modulus; cbn; lia)
                         eq_refl))).
  unfold U64.max, U64.modulus. cbn. lia.
Defined.

(** X8 — The two verifiers agree.  When [check_beal_hit_gmp] reports a hit,
    [verify_beal_equation] accepts its C, which lies in [1, C_max];
    conversely every C in [1, C_max] that [verify_beal_equation] accepts is
    the one that [check_beal_hit_gmp] reports, with gcd(A, gcd(B, C)). *)
Theorem verifiers_agree (A B x y z C_max : Z) (out : Outs.t) :
  1 <= A < U64.modulus -> 1 <= B < U64.modulus ->
  0 <= x -> 0 <= y -> 1 <= z -> U64.in_range C_max ->
  let res := check_beal_hit_gmp A B x y z C_max out in
  (fst res = true ->
   verify_beal_equation A B (Outs.out_C (snd res)) x y z = true
   /\ 1 <= Outs.out_C (snd res) <= C_max)
  /\ (forall C, 1 <= C <= C_max ->
        verify_beal_equation A B C x y z = true ->
        res = (true, Outs.mk C (Z.gcd A (Z.gcd B C)))).
Proof.
  intros HA HB Hx Hy Hz HC res. subst res. split.
  - intros Hhit.
    pose proof (proj1 (check_beal_hit_gmp_hit A B x y z C_max out
                         ltac:(lia) ltac:(lia) Hx Hy Hz HC) Hhit)
      as (r & Hr & Heq).
    rewrite (check_beal_hit_gmp_outputs A B x y z C_max r out);
      unfold U64.in_range; try assumption; try lia.
    cbn [Outs.out_C]. split; [|exact Hr].
    unfold verify_beal_equation. cbv zeta. now apply Z.eqb_eq.
  - intros C HCr Hver. unfold verify_beal_equation in Hver. cbv zeta in Hver.
    apply Z.eqb_eq in Hver.
    assert (Hhit : fst (check_beal_hit_gmp A B x y z C_max out) = true).
    { apply check_beal_hit_gmp_hit; try assumption; try lia. exists C. auto. }
    pose proof (check_beal_hit_gmp_outputs A B x y z C_max C out
                  ltac:(unfold U64.in_range; lia)
                  ltac:(unfold U64.in_range; lia)
                  ltac:(lia) ltac:(lia) Hx Hy Hz ltac:(lia) Hver Hhit) as Hout.
    destruct (check_beal_hit_gmp A B x y z C_max out) as [b o].
    cbn [fst snd] in *. now subst.
Qed.

Lemma verifiers_agree_witness :
  check_beal_hit_gmp 2 2 6 6 7 1000 (Outs.mk 0 0)
  = (true, Outs.mk 2 (Z.gcd 2 (Z.gcd 2 2))).
Proof.
  apply (proj2 (verifiers_agree 2 2 6 6 7 1000 (Outs.mk 0 0)
                  ltac:(unfold U64.modulus; lia) ltac:(unfold U64.modulus; lia)
                  ltac:(lia) ltac:(lia) ltac:(lia)
                  ltac:(unfold U64.in_range, U64.modulus; lia)) 2);
    [lia | reflexivity].
Defined.

(** * Further properties of the search *)

Lemma search_parallel_data (env : Env.t) (params : SearchParams.t)
    (results : SearchResults.t) (rec : option CompleteRecord.t) :
  U64.in_range (SearchParams.A_max params) ->
  U64.in_range (SearchParams.B_start params) ->
  U64.in_range (SearchParams.B_max params) ->
  Env.alloc_ok env = true ->
  search_parallel env params = Some (results, rec) ->
  exists data,
    precompute_create true (SearchParams.x params) (SearchParams.y params)
      (SearchParams.z params) (SearchParams.A_max params)
      (SearchParams.B_max params) = Some (Some data)
    /\ results
       = finalize
           (shared_of
              (fold_left (ev_step (Env.have_avx2 env) params data)
                         (events params (Env.schedule env)) machine_init)).
Proof.
  intros HA HBs HBm Halloc Hrun. unfold search_parallel in Hrun.
  cbv zeta in Hrun. rewrite Halloc in Hrun.
  destruct (precompute_create true _ _ _ _ _) as [[data|]|] eqn:Hpc;
    [| |discriminate].
  - exists data. split; [reflexivity|].
    pose proof (precompute_create_tables _ _ _ _ _ _ data HA HBm Hpc) as Ht.
    destruct (workers _ _ _ _ _) as [sh|] eqn:Hw; [|discriminate].
    apply some_inj in Hrun.
    assert (Hmax : PrecomputedData.B_max data = SearchParams.B_max params)
      by apply Ht.
    pose proof (workers_run_events (Env.have_avx2 env) params data HBs HBm Hmax
                  (Env.schedule env) _ _ Hw) as Hev.
    change (machine_of ([], Shared.mk 0 0 0 0 results_init)) with machine_init
      in Hev.
    rewrite <- Hev, shared_of_machine_of. now injection Hrun as <- _.
  - exfalso. unfold precompute_create in Hpc. cbn [negb] in Hpc.
    destruct (for_u64 0 _ 1 _ []); [|discriminate].
    destruct (by_mod_rows _ _ _); discriminate.
Qed.

(** The final state of a run that covers fewer than 2^64 pairs. *)
Lemma final_counts (have_avx2 : bool) (params : SearchParams.t)
    (data : PrecomputedData.t) (schedule : list (list Z)) :
  scheduled_pairs params schedule < U64.modulus ->
  let m := fold_left (ev_step have_avx2 params data) (events params schedule)
                     machine_init in
  Machine.global_tested m = scheduled_pairs params schedule
  /\ 0 <= Machine.global_gcd_skips m /\ 0 <= Machine.global_mod_skips m
  /\ 0 <= Machine.global_exact_checks m
  /\ Machine.global_gcd_skips m + Machine.global_mod_skips m
     + Machine.global_exact_checks m = Machine.global_tested m
  /\ Z.of_nat (List.length (SearchResults.hits (Iter.results (Machine.iter m))))
     <= Machine.global_exact_checks m.
Proof.
  intros Hfit m.
  pose proof (counts_exact_run have_avx2 params data (events params schedule))
    as Hc.
  unfold counts_exact in Hc. rewrite tally_events in Hc. cbn [fst snd] in Hc.
  fold m in Hc. specialize (Hc ltac:(lia)).
  destruct Hc as (Ht & HGt & Hg & Hm & He & Hsum & HGg & HGm & HGe & HGsum & Hh).
  repeat split; try assumption; lia.
Qed.

Lemma complete_schedule_pairs (params : SearchParams.t)
    (schedule : list (list Z)) :
  complete_schedule params schedule ->
  scheduled_pairs params schedule
  = Z.max 0 (SearchParams.A_max params - SearchParams.A_start params + 1)
    * Z.max 0 (SearchParams.B_max params - SearchParams.B_start params + 1).
Proof.
  intros Hperm. unfold scheduled_pairs.
  rewrite (Permutation_length Hperm), zrange_length. reflexivity.
Qed.

Lemma complete_schedule_in (params : SearchParams.t)
    (schedule : list (list Z)) (A : Z) :
  complete_schedule params schedule ->
  In A (concat schedule)
  <-> SearchParams.A_start params <= A <= SearchParams.A_max params.
Proof.
  intros Hperm. rewrite <- in_zrange. split; intros Hin.
  - now apply (Permutation_in _ Hperm).
  - now apply (Permutation_in _ (Permutation_sym Hperm)).
Qed.



Lemma valid_params_ranges (params : SearchParams.t) :
  valid_params params ->
  U64.in_range (SearchParams.A_max params)
  /\ U64.in_range (SearchParams.B_start params)
  /\ U64.in_range (SearchParams.B_max params)
  /\ ~ usage_error params.
Proof.
  intros (Hx & Hy & Hz & HAs & HAm & HBs & HBm & HC).
  unfold U64.in_range, usage_error. repeat split; lia.
Qed.

Lemma schedule_within (params : SearchParams.t) (schedule : list (list Z)) :
  complete_schedule params schedule ->
  Forall (fun A => SearchParams.A_start params <= A
                   <= SearchParams.A_max params)
         (concat schedule).
Proof.
  intros Hperm. apply Forall_forall. intros A HA.
  now apply (complete_schedule_in params schedule A Hperm).
Qed.

Lemma genuine_hits_primitive (params : SearchParams.t)
    (hits : list BealHit.t) :
  Forall (genuine_hit params) hits ->
  Z.of_nat (List.length hits) < U64.modulus ->
  count_primitive hits = Z.of_nat (List.length hits).
Proof.
  intros Hgen Hlen. rewrite count_primitive_filter.
  rewrite filter_all.
  - apply u64_wrap_small. lia.
  - eapply Forall_impl; [|exact Hgen]. intros h Hh.
    apply Z.eqb_eq. apply Hh.
Qed.

(** X10 — No false positive, and no hit that is not primitive.  Every hit
    in the results of a search with valid parameters records a solution
    A^x + B^y = C^z of the searched signature with A, B in their ranges,
    1 <= C <= C_max and gcd(A, B) = 1, and its gcd field is 1: the gcd gate
    comes before the verifier, so a hit with a common factor (such as
    2^6 + 2^6 = 2^7) is never reported, and primitive_hits = power_hits. *)
Theorem hits_are_coprime_solutions (env : Env.t) (params : SearchParams.t)
    (results : SearchResults.t) (rec : option CompleteRecord.t) :
  valid_params params ->
  complete_schedule params (Env.schedule env) ->
  scheduled_pairs params (Env.schedule env) < U64.modulus ->
  search_parallel env params = Some (results, rec) ->
  Forall (genuine_hit params) (SearchResults.hits results)
  /\ SearchResults.power_hits results
     = Z.of_nat (List.length (SearchResults.hits results))
  /\ SearchResults.primitive_hits results = SearchResults.power_hits results
  /\ SearchResults.power_hits results <= SearchResults.exact_checks results.
Proof.
  intros Hvalid Hperm Hfit Hrun.
  destruct (valid_params_ranges params Hvalid) as (HA & HBs & HBm & _).
  destruct (search_parallel_run env params results rec HA HBs HBm Hrun)
    as [(_ & -> & _)|(data & _ & -> & _)].
  - split; [constructor|]. split; [reflexivity|]. split; [reflexivity|].
    cbn. lia.
  - set (m := fold_left (ev_step (Env.have_avx2 env) params data)
                        (events params (Env.schedule env)) machine_init).
    pose proof (genuine_hits_run (Env.have_avx2 env) params data
                  (events params (Env.schedule env)) Hvalid
                  (events_good params _ (schedule_within _ _ Hperm)))
      as [_ Hgen].
    pose proof (final_counts (Env.have_avx2 env) params data (Env.schedule env)
                  Hfit) as (Ht & Hg & Hm & He & Hsum & Hh).
    fold m in Hgen, Ht, Hg, Hm, He, Hsum, Hh.
    cbn [finalize shared_of SearchResults.hits SearchResults.power_hits
         SearchResults.primitive_hits SearchResults.exact_checks
         Shared.results Shared.global_exact_checks].
    unfold SearchResults.hits_count.
    split; [exact Hgen|]. split; [reflexivity|]. split; [|lia].
    apply (genuine_hits_primitive params); [exact Hgen | lia].
Qed.

Lemma hits_are_coprime_solutions_witness :
  exists results rec,
    search_parallel sample_env sample_params = Some (results, rec)
    /\ SearchResults.primitive_hits results = SearchResults.power_hits results.
Proof.
  eexists. eexists. split; [vm_compute; reflexivity|].
  refine (proj1 (proj2 (proj2
            (hits_are_coprime_solutions sample_env sample_params _ _ _ _ _ _)))).
  - unfold valid_params, U32.modulus, U64.modulus, U64.in_range. cbn. lia.
  - unfold complete_schedule. cbn. apply Permutation_refl.
  - unfold U64.modulus. vm_compute. reflexivity.
  - vm_compute. reflexivity.
Defined.

Lemma main_after_search (env : Env.t) (params : SearchParams.t)
    (results : SearchResults.t) (rec : option CompleteRecord.t) :
  ~ usage_error params ->
  search_parallel env params = Some (results, rec) ->
  main env params
  = Some (MainResult.mk
            (if 0 <? SearchResults.primitive_hits results then 42 else 0)
            (Some results)).
Proof.
  intros Hok Hrun. unfold main, usage_error in *.
  destruct (Z.ltb_spec (SearchParams.x params) 3); [lia|].
  destruct (Z.ltb_spec (SearchParams.y params) 3); [lia|].
  destruct (Z.ltb_spec (SearchParams.z params) 3); [lia|].
  destruct (Z.ltb_spec (SearchParams.A_start params) 1); [lia|].
  destruct (Z.ltb_spec (SearchParams.B_start params) 1); [lia|].
  destruct (Z.ltb_spec (SearchParams.A_max params)
                       (SearchParams.A_start params)); [lia|].
  destruct (Z.ltb_spec (SearchParams.B_max params)
                       (SearchParams.B_start params)); [lia|].
  cbn [orb]. rewrite Hrun. reflexivity.
Qed.

Lemma main_returns_search (env : Env.t) (params : SearchParams.t)
    (r : MainResult.t) :
  ~ usage_error params ->
  main env params = Some r ->
  exists results rec,
    search_parallel env params = Some (results, rec)
    /\ r = MainResult.mk
             (if 0 <? SearchResults.primitive_hits results then 42 else 0)
             (Some results).
Proof.
  intros Hok Hmain.
  destruct (search_parallel env params) as [[results rec]|] eqn:Hrun.
  - exists results, rec. split; [reflexivity|].
    rewrite (main_after_search env params results rec Hok Hrun) in Hmain.
    now apply some_inj in Hmain.
  - exfalso. unfold main, usage_error in *.
    destruct (Z.ltb_spec (SearchParams.x params) 3); [lia|].
    destruct (Z.ltb_spec (SearchParams.y params) 3); [lia|].
    destruct (Z.ltb_spec (SearchParams.z params) 3); [lia|].
    destruct (Z.ltb_spec (SearchParams.A_start params) 1); [lia|].
    destruct (Z.ltb_spec (SearchParams.B_start params) 1); [lia|].
    destruct (Z.ltb_spec (SearchParams.A_max params)
                         (SearchParams.A_start params)); [lia|].
    destruct (Z.ltb_spec (SearchParams.B_max params)
                         (SearchParams.B_start params)); [lia|].
    cbn [orb] in Hmain. rewrite Hrun in Hmain. discriminate.
Qed.



(** X12 — A failed table allocation is silent.  When [precompute_create]
    returns NULL, [search_parallel] returns with the results as
    [results_init] left them (all counters 0, no hit) and without a COMPLETE
    record, and [main] then exits with code 0, the code of a search that
    found nothing. *)
Theorem allocation_failure_is_silent (env : Env.t) (params : SearchParams.t) :
  Env.alloc_ok env = false ->
  search_parallel env params = Some (results_init, None)
  /\ SearchResults.total_pairs results_init = 0
  /\ SearchResults.hits results_init = []
  /\ (~ usage_error params ->
      main env params = Some (MainResult.mk 0 (Some results_init))).
Proof.
  intros Halloc.
  assert (Hrun : search_parallel env params = Some (results_init, None)).
  { unfold search_parallel, precompute_create. cbv zeta.
    rewrite Halloc. reflexivity. }
  split; [exact Hrun|]. split; [reflexivity|]. split; [reflexivity|].
  intros Hok.
  rewrite (main_after_search env params results_init None Hok Hrun).
  reflexivity.
Qed.

Lemma allocation_failure_is_silent_witness :
  main (Env.mk true false true 7 [[1; 2]]) sample_params
  = Some (MainResult.mk 0 (Some results_init)).
Proof.
  apply (proj2 (proj2 (proj2 (allocation_failure_is_silent
                                (Env.mk true false true 7 [[1; 2]])
                                sample_params eq_refl)))).
  unfold usage_error. cbn. lia.
Defined.

(** ** The counters, stage by stage *)

Lemma fold_left_run_ind {S X : Type} (step : S -> X -> S)
    (P : list X -> S -> Prop) (s0 : S) :
  P [] s0 ->
  (forall pre e,
      P pre (fold_left step pre s0) ->
      P (pre ++ [e]) (step (fold_left step pre s0) e)) ->
  forall l, P l (fold_left step l s0).
Proof.
  intros H0 Hstep l. induction l as [|e l IH] using rev_ind; [exact H0|].
  rewrite fold_left_app. cbn [fold_left]. now apply Hstep.
Qed.

Lemma pair_step_stage (have_avx2 : bool) (params : SearchParams.t)
    (data : PrecomputedData.t) (A B : Z) (st : Iter.t) :
  let st' := pair_step have_avx2 params data A st B in
  Iter.a_gcd st'
  = (if pair_stage data A B =? 0 then U64.add (Iter.a_gcd st) 1
     else Iter.a_gcd st)
  /\ Iter.a_mod st'
     = (if pair_stage data A B =? 1 then U64.add (Iter.a_mod st) 1
        else Iter.a_mod st)
  /\ Iter.a_exact st'
     = (if pair_stage data A B =? 2 then U64.add (Iter.a_exact st) 1
        else Iter.a_exact st).
Proof.
  cbv zeta. unfold pair_step, pair_stage.
  destruct (pair_body_cases have_avx2 params (sieve_survives_scalar A B data)
              A B st)
    as [(Hg & ->)|[(Hg & Hs & ->)|[(Hg & Hs & _ & ->)|(Hg & Hs & _ & ->)]]].
  - destruct (Z.ltb_spec 1 (gcd64 A B)); [|lia]. cbn. auto.
  - destruct (Z.ltb_spec 1 (gcd64 A B)); [lia|]. rewrite Hs. cbn. auto.
  - destruct (Z.ltb_spec 1 (gcd64 A B)); [lia|]. rewrite Hs. cbn. auto.
  - destruct (Z.ltb_spec 1 (gcd64 A B)); [lia|]. rewrite Hs.
    match goal with |- context [record_hit ?a ?h ?s] =>
      destruct (record_hit_cases a h s) as (_ & -> & -> & -> & _) end.
    cbn. auto.
Qed.

Lemma stage_tally_snoc (data : PrecomputedData.t) (c : Z) (pre : list event)
    (e : event) :
  stage_tally data c (pre ++ [e])
  = stage_tally_step data c (stage_tally data c pre) e.
Proof. unfold stage_tally. now rewrite fold_left_app. Qed.

Lemma stages_exact_run (have_avx2 : bool) (params : SearchParams.t)
    (data : PrecomputedData.t) (l : list event) :
  stages_exact data l (fold_left (ev_step have_avx2 params data) l machine_init).
Proof.
  apply (fold_left_run_ind (ev_step have_avx2 params data) (stages_exact data)).
  - intros _. cbn. repeat split; reflexivity.
  - intros pre e IH Hfit.
    pose proof (tally_prefix pre [e]) as (Hd & Hp & Hmono). cbv zeta in Hmono.
    specialize (IH ltac:(lia)).
    pose proof (counts_exact_run have_avx2 params data pre) as Hc.
    unfold counts_exact in Hc. specialize (Hc ltac:(lia)).
    set (m := fold_left (ev_step have_avx2 params data) pre machine_init) in *.
    destruct Hc as (Ht & HGt & Hg & Hm & He & Hsum & HGg & HGm & HGe & HGsum & _).
    destruct IH as (I1 & I2 & I3 & I4 & I5 & I6).
    assert (Htal : tally (pre ++ [e]) = tally_step (tally pre) e)
      by (unfold tally; now rewrite fold_left_app).
    rewrite Htal in Hfit. rewrite !stage_tally_snoc.
    destruct e as [A B| |];
      cbn [ev_step tally_step stage_tally_step fst snd Machine.iter
           Machine.global_gcd_skips Machine.global_mod_skips
           Machine.global_exact_checks Iter.a_gcd Iter.a_mod Iter.a_exact]
        in *.
    + destruct (pair_step_stage have_avx2 params data A B (Machine.iter m))
        as (-> & -> & ->).
      destruct (pair_stage data A B =? 0), (pair_stage data A B =? 1),
        (pair_stage data A B =? 2);
        cbn [fst snd]; rewrite ?u64_add_small by lia;
        repeat split; lia.
    + rewrite !u64_add_small by lia. repeat split; lia.
    + repeat split; assumption.
Qed.

Lemma filter_map_length {X Y : Type} (p : Y -> bool) (f : X -> Y) (l : list X) :
  List.length (filter p (map f l))
  = List.length (filter (fun v => p (f v)) l).
Proof.
  induction l as [|v l IH]; [reflexivity|].
  cbn [map filter]. destruct (p (f v)); cbn [List.length]; now rewrite IH.
Qed.

Lemma stage_count_cons (data : PrecomputedData.t) (c : Z) (A : Z)
    (As Bs : list Z) :
  stage_count data c (A :: As) Bs
  = Z.of_nat (List.length (filter (fun B => pair_stage data A B =? c) Bs))
    + stage_count data c As Bs.
Proof.
  unfold stage_count. cbn [list_prod].
  rewrite filter_app, length_app, Nat2Z.inj_add.
  rewrite (filter_map_length
             (fun AB => pair_stage data (fst AB) (snd AB) =? c)
             (fun y : Z => (A, y))).
  reflexivity.
Qed.

Lemma stage_count_app (data : PrecomputedData.t) (c : Z) (As As' Bs : list Z) :
  stage_count data c (As ++ As') Bs
  = stage_count data c As Bs + stage_count data c As' Bs.
Proof.
  induction As as [|A As IH]; [reflexivity|].
  cbn [app]. rewrite !stage_count_cons, IH. ring.
Qed.

Lemma stage_count_perm (data : PrecomputedData.t) (c : Z) (Bs : list Z)
    (l1 l2 : list Z) :
  Permutation l1 l2 -> stage_count data c l1 Bs = stage_count data c l2 Bs.
Proof.
  induction 1 as [|A l l' _ IH|A A' l|l l' l'' _ IH1 _ IH2].
  - reflexivity.
  - rewrite !stage_count_cons. lia.
  - rewrite !stage_count_cons. lia.
  - congruence.
Qed.

Lemma stage_tally_pairs (data : PrecomputedData.t) (c A : Z) (Bs : list Z) :
  forall dp,
    fold_left (stage_tally_step data c) (map (EvPair A) Bs) dp
    = (fst dp,
       snd dp + Z.of_nat (List.length
                            (filter (fun B => pair_stage data A B =? c) Bs))).
Proof.
  induction Bs as [|B Bs IH]; intros dp; cbn [map fold_left filter].
  - destruct dp. cbn. f_equal. lia.
  - rewrite IH. cbn [stage_tally_step].
    destruct (pair_stage data A B =? c); cbn [fst snd List.length];
      f_equal; lia.
Qed.

Lemma stage_tally_a_events (data : PrecomputedData.t) (c : Z)
    (params : SearchParams.t) (A d : Z) :
  fold_left (stage_tally_step data c) (a_events params A) (d, 0)
  = (d + Z.of_nat
           (List.length
              (filter (fun B => pair_stage data A B =? c)
                      (zrange (SearchParams.B_start params)
                              (SearchParams.B_max params)))),
     0).
Proof.
  unfold a_events. rewrite fold_left_app, stage_tally_pairs.
  cbn [fold_left stage_tally_step fst snd]. f_equal.
Qed.

Lemma stage_tally_worker (data : PrecomputedData.t) (c : Z)
    (params : SearchParams.t) (As : list Z) (d : Z) :
  fold_left (stage_tally_step data c) (worker_events params As) (d, 0)
  = (d + stage_count data c As
           (zrange (SearchParams.B_start params) (SearchParams.B_max params)),
     0).
Proof.
  unfold worker_events. rewrite fold_left_app.
  cbn [fold_left stage_tally_step].
  revert d. induction As as [|A As IH]; intros d.
  - cbn. f_equal. lia.
  - cbn [flat_map]. rewrite fold_left_app, stage_tally_a_events, IH.
    rewrite stage_count_cons. f_equal. lia.
Qed.

Lemma stage_tally_events (data : PrecomputedData.t) (c : Z)
    (params : SearchParams.t) (schedule : list (list Z)) :
  stage_tally data c (events params schedule)
  = (stage_count data c (concat schedule)
       (zrange (SearchParams.B_start params) (SearchParams.B_max params)),
     0).
Proof.
  unfold stage_tally, events.
  assert (H : forall d,
             fold_left (stage_tally_step data c)
                       (flat_map (worker_events params) schedule) (d, 0)
             = (d + stage_count data c (concat schedule)
                      (zrange (SearchParams.B_start params)
                              (SearchParams.B_max params)), 0)).
  { induction schedule as [|As rest IH]; intros d.
    - cbn. f_equal. lia.
    - cbn [flat_map concat].
      rewrite fold_left_app, stage_tally_worker, IH, stage_count_app.
      f_equal. lia. }
  rewrite H. reflexivity.
Qed.

Lemma stage_two_coprime (data : PrecomputedData.t) (As Bs : list Z) :
  Forall (fun A => 1 <= A < U64.modulus) As ->
  Forall (fun B => 0 <= B < U64.modulus) Bs ->
  stage_count data 2 As Bs
  = Z.of_nat (List.length (filter (coprime_survivor data) (list_prod As Bs))).
Proof.
  intros HAs HBs. unfold stage_count. f_equal. f_equal.
  apply filter_ext_in. intros [A B] Hin. apply in_prod_iff in Hin.
  destruct Hin as [HA HB]. cbn [fst snd].
  rewrite Forall_forall in HAs, HBs. specialize (HAs A HA). specialize (HBs B HB).
  unfold pair_stage, coprime_survivor. cbn [fst snd].
  pose proof (gate_coprime A B HAs HBs) as Hgate.
  rewrite gcd64_spec in * by (unfold U64.in_range; lia).
  destruct (Z.ltb_spec 1 (Z.gcd A B)); destruct (Z.eqb_spec (Z.gcd A B) 1);
    try lia; cbn [andb];
    destruct (sieve_survives_scalar A B data); reflexivity.
Qed.



(** ** The hit buffers *)

Lemma results_add_hit_capacity (r : SearchResults.t) (h : BealHit.t) :
  capacity_ok r ->
  capacity_ok (results_add_hit r h)
  /\ (SearchResults.hits_count (results_add_hit r h) < 2 ^ 62 ->
      SearchResults.hits_count r
      < SearchResults.hits_capacity (results_add_hit r h)).
Proof.
  intros Hok.
  assert (Hcount : SearchResults.hits_count (results_add_hit r h)
                   = SearchResults.hits_count r + 1).
  { unfold SearchResults.hits_count, results_add_hit.
    cbn [SearchResults.hits]. rewrite length_app. cbn [List.length]. lia. }
  assert (Hnn : 0 <= SearchResults.hits_count r)
    by (unfold SearchResults.hits_count; lia).
  assert (Hcap : SearchResults.hits_count r + 1 < 2 ^ 62 ->
            64 <= SearchResults.hits_capacity (results_add_hit r h)
            /\ SearchResults.hits_count r + 1
               <= SearchResults.hits_capacity (results_add_hit r h)
            /\ SearchResults.hits_capacity (results_add_hit r h)
               <= Z.max 64 (2 * (SearchResults.hits_count r + 1))).
  { intros Hlt. specialize (Hok ltac:(lia)). destruct Hok as (H64 & Hle & Hup).
    unfold results_add_hit. cbn [SearchResults.hits_capacity].
    destruct (Z.leb_spec (SearchResults.hits_capacity r)
                         (SearchResults.hits_count r)).
    - rewrite u64_mul_small by (rewrite u64_modulus_eq; lia). lia.
    - lia. }
  split.
  - unfold capacity_ok. rewrite Hcount. exact Hcap.
  - rewrite Hcount. intros Hlt. specialize (Hcap Hlt). lia.
Qed.

Lemma flush_hits_capacity (l : list BealHit.t) :
  forall r, capacity_ok r -> capacity_ok (flush_hits l r).
Proof.
  unfold flush_hits. induction l as [|h l IH]; intros r Hok; [exact Hok|].
  cbn [fold_left]. apply IH. now apply results_add_hit_capacity.
Qed.

Lemma buffers_ok_run (have_avx2 : bool) (params : SearchParams.t)
    (data : PrecomputedData.t) (l : list event) :
  buffers_ok (fold_left (ev_step have_avx2 params data) l machine_init).
Proof.
  apply (fold_left_prefix_ind (ev_step have_avx2 params data)
           (fun _ => True) (fun _ m => buffers_ok m)).
  - split; [cbn; lia|]. intros _. cbn. lia.
  - intros _ e m _ [Hloc Hcap]. unfold buffers_ok.
    destruct e as [A B| |]; cbn [ev_step Machine.iter].
    + unfold pair_step.
      destruct (pair_body_cases have_avx2 params
                  (sieve_survives_scalar A B data) A B (Machine.iter m))
        as [(_ & ->)|[(_ & _ & ->)|[(_ & _ & _ & ->)|(_ & _ & _ & ->)]]];
        cbn [Iter.local_hits Iter.results]; try (split; assumption).
      match goal with |- context [record_hit ?a ?h ?s] =>
        destruct (record_hit_cases a h s) as (_ & _ & _ & _ & Hcase) end.
      cbn [Iter.local_hits Iter.results] in Hcase.
      destruct Hcase as [(Hlt & -> & ->)|[(_ & _ & -> & ->)|(_ & _ & -> & ->)]].
      * split; [|assumption]. rewrite length_app. cbn [List.length]. lia.
      * split; [cbn [List.length]; lia|]. now apply flush_hits_capacity.
      * split; assumption.
    + cbn [Iter.local_hits Iter.results]. split; assumption.
    + cbn [Iter.local_hits Iter.results].
      split; [cbn [List.length]; lia|]. now apply flush_hits_capacity.
  - apply Forall_forall. trivial.
Qed.

(** X14 — The hit buffers.  At every point of a run a worker's buffer
    holds at most 64 hits, the size of [local_hits[64]].  While the shared
    array holds fewer than 2^57 hits, its capacity is at least 64 and at
    least its count, and the size that [results_add_hit] has asked for,
    [hits_capacity * sizeof(BealHit)] with 48-byte elements, has not wrapped
    in [size_t] and covers the element that the call writes at index
    [hits_count]; the call appends the hit after the earlier ones and leaves
    the counters alone. *)
Theorem hit_buffers_in_bounds (have_avx2 : bool) (params : SearchParams.t)
    (data : PrecomputedData.t) (l : list event) (h : BealHit.t) :
  let m := fold_left (ev_step have_avx2 params data) l machine_init in
  let r := Iter.results (Machine.iter m) in
  let r' := results_add_hit r h in
  Z.of_nat (List.length (Iter.local_hits (Machine.iter m))) <= 64
  /\ (SearchResults.hits_count r < 2 ^ 57 ->
      64 <= SearchResults.hits_capacity r
      /\ SearchResults.hits_count r <= SearchResults.hits_capacity r
      /\ hits_alloc_size (SearchResults.hits_capacity r)
         = SearchResults.hits_capacity r * sizeof_BealHit)
  /\ (SearchResults.hits_count r < 2 ^ 57 ->
      SearchResults.hits_count r < SearchResults.hits_capacity r'
      /\ hits_alloc_size (SearchResults.hits_capacity r')
         = SearchResults.hits_capacity r' * sizeof_BealHit
      /\ (SearchResults.hits_count r + 1) * sizeof_BealHit
         <= hits_alloc_size (SearchResults.hits_capacity r'))
  /\ SearchResults.hits r' = SearchResults.hits r ++ [h]
  /\ SearchResults.hits_count r' = SearchResults.hits_count r + 1
  /\ SearchResults.total_pairs r' = SearchResults.total_pairs r.
Proof.
  cbv zeta.
  destruct (buffers_ok_run have_avx2 params data l) as [Hloc Hcap].
  set (r := Iter.results
              (Machine.iter
                 (fold_left (ev_step have_avx2 params data) l machine_init)))
    in *.
  assert (Hcount : SearchResults.hits_count (results_add_hit r h)
                   = SearchResults.hits_count r + 1).
  { unfold SearchResults.hits_count, results_add_hit.
    cbn [SearchResults.hits]. rewrite length_app. cbn [List.length]. lia. }
  assert (Hnn : 0 <= SearchResults.hits_count r)
    by (unfold SearchResults.hits_count; lia).
  destruct (results_add_hit_capacity r h Hcap) as [Hcap' Hidx].
  unfold hits_alloc_size, sizeof_BealHit.
  split; [exact Hloc|]. split; [|split; [|split; [|split]]].
  - intros Hlt. destruct (Hcap ltac:(lia)) as (H64 & Hle & Hup).
    split; [exact H64|]. split; [exact Hle|].
    apply u64_mul_small. rewrite u64_modulus_eq. lia.
  - intros Hlt.
    destruct (Hcap' ltac:(rewrite Hcount; lia)) as (H64 & Hle & Hup).
    rewrite Hcount in Hle, Hup.
    assert (Hsize : U64.mul (SearchResults.hits_capacity (results_add_hit r h))
                            48
                    = SearchResults.hits_capacity (results_add_hit r h) * 48).
    { apply u64_mul_small. rewrite u64_modulus_eq. lia. }
    rewrite Hsize. split; [lia|]. split; [reflexivity|lia].
  - reflexivity.
  - exact Hcount.
  - reflexivity.
Qed.

Lemma hit_buffers_in_bounds_witness :
  hits_alloc_size
    (SearchResults.hits_capacity
       (results_add_hit results_init (BealHit.mk 1 2 3 1 3 3 3)))
  = 64 * sizeof_BealHit.
Proof.
  destruct (hit_buffers_in_bounds false sample_params sample_data []
              (BealHit.mk 1 2 3 1 3 3 3))
    as (_ & _ & Hadd & _).
  destruct (Hadd ltac:(vm_compute; reflexivity)) as (_ & Hsize & _).
  exact Hsize.
Defined.

(** ** Nested loops over a rectangle *)

Lemma nested_fold {S : Type} (f : S -> Z * Z -> S) (Bs : list Z) (As : list Z) :
  forall s,
    fold_left (fun s A => fold_left (fun s B => f s (A, B)) Bs s) As s
    = fold_left f (list_prod As Bs) s.
Proof.
  induction As as [|A As IH]; intros s; [reflexivity|].
  cbn [fold_left list_prod]. rewrite fold_left_app, IH. f_equal.
  clear IH. revert s. induction Bs as [|B Bs IHB]; intros s; [reflexivity|].
  cbn [map fold_left]. apply IHB.
Qed.

Lemma nested_for_u64 {S : Type} (f : S -> Z * Z -> S) (A_max B_max : Z) (s : S) :
  A_max < U64.max -> B_max < U64.max ->
  for_u64 1 A_max 1
    (fun A st => for_u64 1 B_max 1 (fun B st => Some (f st (A, B))) st) s
  = Some (fold_left f (list_prod (zrange 1 A_max) (zrange 1 B_max)) s).
Proof.
  intros HA HB. rewrite for_u64_unit_spec by lia.
  rewrite (fold_opt_ext _
             (fun A st => Some (fold_left (fun st B => f st (A, B))
                                          (zrange 1 B_max) st))).
  - rewrite (fold_opt_pure
               (fun A st => fold_left (fun st B => f st (A, B))
                                      (zrange 1 B_max) st)).
    now rewrite nested_fold.
  - intros A st _. rewrite for_u64_unit_spec by lia.
    apply (fold_opt_pure (fun B st => f st (A, B))).
Qed.

Lemma export_fold (data : PrecomputedData.t) (l : list (Z * Z)) :
  forall pairs count,
    0 <= count < U64.modulus ->
    fold_left (fun st AB =>
                 if 1 <? gcd64 (fst AB) (snd AB) then st
                 else if negb (sieve_survives_scalar (fst AB) (snd AB) data)
                      then st
                      else (fst st ++ [AB], U64.add (snd st) 1))
              l (pairs, count)
    = (pairs ++ filter (fun AB => pair_stage data (fst AB) (snd AB) =? 2) l,
       U64.wrap (count
                 + Z.of_nat
                     (List.length
                        (filter (fun AB =>
                                   pair_stage data (fst AB) (snd AB) =? 2)
                                l)))).
Proof.
  set (p := fun AB : Z * Z => pair_stage data (fst AB) (snd AB) =? 2).
  induction l as [|[A B] l IH]; intros pairs count Hc.
  - cbn. rewrite app_nil_r, Z.add_0_r, u64_wrap_small by exact Hc. reflexivity.
  - assert (Hp : p (A, B)
                 = if 1 <? gcd64 A B then false
                   else sieve_survives_scalar A B data).
    { unfold p, pair_stage. cbn [fst snd].
      destruct (1 <? gcd64 A B); [reflexivity|].
      now destruct (sieve_survives_scalar A B data). }
    cbn [fold_left filter fst snd]. rewrite Hp.
    destruct (1 <? gcd64 A B); [|destruct (sieve_survives_scalar A B data)];
      cbn [negb].
    + now apply IH.
    + rewrite IH by apply u64_wrap_range. cbn [fst snd List.length].
      rewrite <- app_assoc. cbn [app]. f_equal.
      unfold U64.add, U64.wrap.
      rewrite Z.add_mod_idemp_l by (rewrite u64_modulus_eq; lia).
      f_equal. rewrite Nat2Z.inj_succ. ring.
    + now apply IH.
Qed.

Lemma stage_filter_length (data : PrecomputedData.t) (c : Z) (As Bs : list Z) :
  Z.of_nat (List.length
              (filter (fun AB => pair_stage data (fst AB) (snd AB) =? c)
                      (list_prod As Bs)))
  = stage_count data c As Bs.
Proof. reflexivity. Qed.

Lemma stage_count_bound (data : PrecomputedData.t) (c : Z) (As Bs : list Z) :
  0 <= stage_count data c As Bs
  <= Z.of_nat (List.length As) * Z.of_nat (List.length Bs).
Proof.
  unfold stage_count. split; [lia|].
  rewrite <- Nat2Z.inj_mul, <- length_prod. apply inj_le, filter_length_le.
Qed.

Lemma stage_two_filter (data : PrecomputedData.t) (A_max B_max : Z) :
  A_max < U64.modulus -> B_max < U64.modulus ->
  filter (fun AB => pair_stage data (fst AB) (snd AB) =? 2)
         (list_prod (zrange 1 A_max) (zrange 1 B_max))
  = filter (coprime_survivor data)
           (list_prod (zrange 1 A_max) (zrange 1 B_max)).
Proof.
  intros HA HB. apply filter_ext_in. intros [A B] Hin.
  apply in_prod_iff in Hin. destruct Hin as [HinA HinB].
  apply in_zrange in HinA. apply in_zrange in HinB. cbn [fst snd].
  unfold pair_stage, coprime_survivor. cbn [fst snd].
  pose proof (gate_coprime A B ltac:(lia) ltac:(lia)) as Hgate.
  rewrite gcd64_spec in * by (unfold U64.in_range; lia).
  destruct (Z.ltb_spec 1 (Z.gcd A B)); destruct (Z.eqb_spec (Z.gcd A B) 1);
    try lia; cbn [andb];
    destruct (sieve_survives_scalar A B data); reflexivity.
Qed.

(** X15 — The export tool.  With fewer than five arguments it exits with 1.
    When [precompute_create] returns NULL it exits with 1 and prints no
    pair.  When [precompute_create] returns the tables, the tool returns
    with 0, having printed, A by A and B by B in increasing order, exactly
    the pairs of [1, A_max] x [1, B_max] with gcd64 = 1 that survive the
    scalar sieve; the count that it prints is their number modulo 2^64, the
    value of count_sieve_survivors on that box, and their number when the
    box has fewer than 2^64 pairs. *)
Theorem export_survivors_lists_survivors (alloc_ok : bool)
    (argc x y z A_max B_max : Z) :
  U64.in_range A_max -> U64.in_range B_max ->
  (argc < 6 ->
   export_survivors alloc_ok argc x y z A_max B_max
   = Some (ExportOutput.mk 1 [] 0))
  /\ (6 <= argc ->
      precompute_create alloc_ok x y z A_max B_max = Some None ->
      export_survivors alloc_ok argc x y z A_max B_max
      = Some (ExportOutput.mk 1 [] 0))
  /\ (forall data,
        6 <= argc ->
        precompute_create alloc_ok x y z A_max B_max = Some (Some data) ->
        let pairs := filter (coprime_survivor data)
                            (list_prod (zrange 1 A_max) (zrange 1 B_max)) in
        let count := U64.wrap (Z.of_nat (List.length pairs)) in
        export_survivors alloc_ok argc x y z A_max B_max
        = Some (ExportOutput.mk 0 pairs count)
        /\ count_sieve_survivors 1 A_max 1 B_max data = Some count
        /\ (A_max * B_max < U64.modulus ->
            count = Z.of_nat (List.length pairs))).
Proof.
  intros HA HB. unfold export_survivors. split; [|split].
  - intros Hargc. destruct (Z.ltb_spec argc 6); [reflexivity|lia].
  - intros Hargc Hpc. destruct (Z.ltb_spec argc 6); [lia|].
    rewrite Hpc. reflexivity.
  - intros data Hargc Hpc. cbv zeta.
    destruct (Z.ltb_spec argc 6); [lia|]. rewrite Hpc.
    pose proof (precompute_create_tables _ _ _ _ _ _ data HA HB Hpc)
      as (_ & _ & _ & _ & _ & HAlt & HBlt & _).
    pose proof (nested_for_u64
                  (fun st AB =>
                     if 1 <? gcd64 (fst AB) (snd AB) then st
                     else if negb (sieve_survives_scalar (fst AB) (snd AB)
                                                         data)
                          then st
                          else (fst st ++ [AB], U64.add (snd st) 1))
                  A_max B_max ([], 0) HAlt HBlt) as Hloops.
    cbn [fst snd] in Hloops. rewrite Hloops. clear Hloops.
    rewrite export_fold by (rewrite u64_modulus_eq; lia).
    cbn [app]. rewrite Z.add_0_l.
    unfold U64.in_range, U64.max in *.
    rewrite stage_two_filter by lia.
    split; [reflexivity|]. split.
    + rewrite count_sieve_survivors_spec by (unfold U64.max; lia).
      reflexivity.
    + intros Hfit. apply u64_wrap_small. split; [lia|].
      eapply Z.le_lt_trans; [|exact Hfit].
      eapply Z.le_trans; [apply inj_le, filter_length_le|].
      rewrite length_prod, Nat2Z.inj_mul, !zrange_length. nia.
Qed.

Lemma export_survivors_lists_survivors_witness :
  export_survivors true 6 3 3 4 2 2
  = Some (ExportOutput.mk 0
            (filter (coprime_survivor sample_data)
                    (list_prod (zrange 1 2) (zrange 1 2)))
            (U64.wrap
               (Z.of_nat
                  (List.length
                     (filter (coprime_survivor sample_data)
                             (list_prod (zrange 1 2) (zrange 1 2))))))).
Proof.
  refine (proj1 (proj2 (proj2 (export_survivors_lists_survivors
                                 true 6 3 3 4 2 2 _ _))
                       sample_data _ _));
    first [ exact sample_data_created
          | unfold U64.in_range, U64.modulus; lia
          | lia ].
Defined.

Lemma pair_stage_eqb (data : PrecomputedData.t) (A B c : Z) :
  (pair_stage data A B =? c)
  = if 1 <? gcd64 A B then 0 =? c
    else if sieve_survives_scalar A B data then 2 =? c else 1 =? c.
Proof.
  unfold pair_stage. destruct (1 <? gcd64 A B); [reflexivity|].
  now destruct (sieve_survives_scalar A B data).
Qed.

Lemma sieve_test_fold (data : PrecomputedData.t) (l : list (Z * Z)) :
  forall st,
    0 <= SieveTest.tested st < U64.modulus ->
    0 <= SieveTest.gcd_filtered st < U64.modulus ->
    0 <= SieveTest.sieve_filtered st < U64.modulus ->
    0 <= SieveTest.survivors st < U64.modulus ->
    fold_left (sieve_test_step data) l st
    = SieveTest.mk
        (U64.wrap (SieveTest.tested st + Z.of_nat (List.length l)))
        (U64.wrap
           (SieveTest.gcd_filtered st
            + Z.of_nat
                (List.length
                   (filter (fun AB => pair_stage data (fst AB) (snd AB) =? 0)
                           l))))
        (U64.wrap
           (SieveTest.sieve_filtered st
            + Z.of_nat
                (List.length
                   (filter (fun AB => pair_stage data (fst AB) (snd AB) =? 1)
                           l))))
        (U64.wrap
           (SieveTest.survivors st
            + Z.of_nat
                (List.length
                   (filter (fun AB => pair_stage data (fst AB) (snd AB) =? 2)
                           l)))).
Proof.
  assert (HM : U64.modulus <> 0) by (rewrite u64_modulus_eq; lia).
  induction l as [|[A B] l IH]; intros st Ht Hg Hs Hv.
  - cbn [fold_left filter List.length]. change (Z.of_nat 0) with 0.
    rewrite !Z.add_0_r, !u64_wrap_small by assumption. now destruct st.
  - cbn [fold_left filter fst snd]. rewrite !pair_stage_eqb.
    unfold sieve_test_step at 2. cbn [fst snd].
    destruct (1 <? gcd64 A B); [|destruct (sieve_survives_scalar A B data)];
      cbn [negb Z.eqb Pos.eqb];
      rewrite IH
        by (cbn [SieveTest.tested SieveTest.gcd_filtered
                 SieveTest.sieve_filtered SieveTest.survivors];
            first [apply u64_wrap_range | assumption]);
      cbn [SieveTest.tested SieveTest.gcd_filtered SieveTest.sieve_filtered
           SieveTest.survivors List.length];
      unfold U64.add, U64.wrap; rewrite !Z.add_mod_idemp_l by exact HM;
      rewrite !Nat2Z.inj_succ; f_equal; f_equal; ring.
Qed.

Lemma stage_counts_split (data : PrecomputedData.t) (l : list (Z * Z)) :
  Z.of_nat (List.length
              (filter (fun AB => pair_stage data (fst AB) (snd AB) =? 0) l))
  + Z.of_nat (List.length
                (filter (fun AB => pair_stage data (fst AB) (snd AB) =? 1) l))
  + Z.of_nat (List.length
                (filter (fun AB => pair_stage data (fst AB) (snd AB) =? 2) l))
  = Z.of_nat (List.length l).
Proof.
  induction l as [|[A B] l IHl]; [reflexivity|].
  cbn [filter List.length fst snd]. rewrite !pair_stage_eqb.
  destruct (1 <? gcd64 A B); [|destruct (sieve_survives_scalar A B data)];
    cbn [Z.eqb Pos.eqb List.length]; rewrite ?Nat2Z.inj_succ; lia.
Qed.

(** X16 — The sieve test.  When [precompute_create] returns NULL the test
    exits with 1.  When it returns the tables, the test returns with 0 and
    the counters that it prints are, modulo 2^64: tested, the number of
    pairs of [1, A_max] x [1, B_max]; gcd_filtered, the number of them with
    gcd64 > 1; sieve_filtered, the number of the others that the scalar
    sieve rejects; survivors, the number that it keeps, which is the value
    of count_sieve_survivors on that box.  For a box of fewer than 2^64
    pairs, tested = A_max * B_max and
    gcd_filtered + sieve_filtered + survivors = tested. *)
Theorem test_sieve_counts (alloc_ok : bool) (x y z A_max B_max : Z) :
  U64.in_range A_max -> U64.in_range B_max ->
  (precompute_create alloc_ok x y z A_max B_max = Some None ->
   test_sieve alloc_ok x y z A_max B_max = Some (1, None))
  /\ (forall data,
        precompute_create alloc_ok x y z A_max B_max = Some (Some data) ->
        let As := zrange 1 A_max in
        let Bs := zrange 1 B_max in
        let st :=
          SieveTest.mk
            (U64.wrap (Z.of_nat (List.length (list_prod As Bs))))
            (U64.wrap (stage_count data 0 As Bs))
            (U64.wrap (stage_count data 1 As Bs))
            (U64.wrap (stage_count data 2 As Bs)) in
        test_sieve alloc_ok x y z A_max B_max = Some (0, Some st)
        /\ count_sieve_survivors 1 A_max 1 B_max data
           = Some (SieveTest.survivors st)
        /\ (A_max * B_max < U64.modulus ->
            SieveTest.tested st = A_max * B_max
            /\ SieveTest.gcd_filtered st = stage_count data 0 As Bs
            /\ SieveTest.sieve_filtered st = stage_count data 1 As Bs
            /\ SieveTest.survivors st = stage_count data 2 As Bs
            /\ SieveTest.gcd_filtered st + SieveTest.sieve_filtered st
               + SieveTest.survivors st = SieveTest.tested st)).
Proof.
  intros HA HB. unfold test_sieve. split.
  - intros Hpc. rewrite Hpc. reflexivity.
  - intros data Hpc. cbv zeta. rewrite Hpc.
    pose proof (precompute_create_tables _ _ _ _ _ _ data HA HB Hpc)
      as (_ & _ & _ & _ & _ & HAlt & HBlt & _).
    rewrite (nested_for_u64 (sieve_test_step data) A_max B_max
               (SieveTest.mk 0 0 0 0) HAlt HBlt).
    rewrite sieve_test_fold
      by (cbn [SieveTest.tested SieveTest.gcd_filtered
               SieveTest.sieve_filtered SieveTest.survivors];
          rewrite u64_modulus_eq; lia).
    cbn [SieveTest.tested SieveTest.gcd_filtered SieveTest.sieve_filtered
         SieveTest.survivors].
    rewrite !Z.add_0_l, !stage_filter_length.
    unfold U64.in_range, U64.max in *.
    set (As := zrange 1 A_max). set (Bs := zrange 1 B_max).
    split; [reflexivity|]. split.
    + rewrite count_sieve_survivors_spec by (unfold U64.max; lia).
      f_equal. f_equal. unfold coprime_survivors. fold As Bs.
      symmetry. apply stage_two_coprime.
      * apply Forall_forall. intros A HinA. apply in_zrange in HinA. lia.
      * apply Forall_forall. intros B HinB. apply in_zrange in HinB. lia.
    + intros Hfit.
      assert (Hlen : Z.of_nat (List.length (list_prod As Bs)) = A_max * B_max).
      { rewrite length_prod, Nat2Z.inj_mul. unfold As, Bs.
        rewrite !zrange_length. nia. }
      pose proof (stage_counts_split data (list_prod As Bs)) as Hsplit.
      rewrite !stage_filter_length in Hsplit.
      pose proof (stage_count_bound data 0 As Bs) as H0.
      pose proof (stage_count_bound data 1 As Bs) as H1.
      pose proof (stage_count_bound data 2 As Bs) as H2.
      rewrite !u64_wrap_small by lia.
      repeat split; try reflexivity; lia.
Qed.

Lemma test_sieve_counts_witness :
  exists st,
    test_sieve true 3 3 4 2 2 = Some (0, Some st)
    /\ SieveTest.tested st = 2 * 2
    /\ SieveTest.gcd_filtered st + SieveTest.sieve_filtered st
       + SieveTest.survivors st = SieveTest.tested st.
Proof.
  destruct (proj2 (test_sieve_counts true 3 3 4 2 2
                     ltac:(unfold U64.in_range, U64.modulus; lia)
                     ltac:(unfold U64.in_range, U64.modulus; lia))
                  sample_data sample_data_created)
    as (Hrun & _ & Hcounts).
  eexists. split; [exact Hrun|].
  destruct (Hcounts ltac:(unfold U64.modulus; lia))
    as (Ht & _ & _ & _ & Hsum).
  split; [exact Ht | exact Hsum].
Defined.

(** ** The counter partition *)

Lemma pair_body_counts (have_avx2 : bool) (params : SearchParams.t)
    (survives : bool) (A B : Z) (st : Iter.t) :
  let st' := pair_body have_avx2 params survives A B st in
  Iter.a_tested st' = U64.add (Iter.a_tested st) 1
  /\ ((1 < gcd64 A B
       /\ Iter.a_gcd st' = U64.add (Iter.a_gcd st) 1
       /\ Iter.a_mod st' = Iter.a_mod st
       /\ Iter.a_exact st' = Iter.a_exact st)
      \/ (gcd64 A B <= 1 /\ survives = false
          /\ Iter.a_gcd st' = Iter.a_gcd st
          /\ Iter.a_mod st' = U64.add (Iter.a_mod st) 1
          /\ Iter.a_exact st' = Iter.a_exact st)
      \/ (gcd64 A B <= 1 /\ survives = true
          /\ Iter.a_gcd st' = Iter.a_gcd st
          /\ Iter.a_mod st' = Iter.a_mod st
          /\ Iter.a_exact st' = U64.add (Iter.a_exact st) 1)).
Proof.
  cbv zeta.
  destruct (pair_body_cases have_avx2 params survives A B st)
    as [(Hg & ->)|[(Hg & Hs & ->)|[(Hg & Hs & _ & ->)|(Hg & Hs & _ & ->)]]].
  - split; [reflexivity|]. left. repeat split. exact Hg.
  - split; [reflexivity|]. right. left. repeat split; assumption.
  - split; [reflexivity|]. right. right. repeat split; assumption.
  - match goal with |- context [record_hit ?a ?h ?s] =>
      destruct (record_hit_cases a h s) as (Ht & Hgc & Hm & He & _) end.
    rewrite Ht, Hgc, Hm, He. split; [reflexivity|].
    right. right. repeat split; assumption.
Qed.

Lemma pair_stage_cases (data : PrecomputedData.t) (A B : Z) :
  (pair_stage data A B = 0 <-> 1 < gcd64 A B)
  /\ (pair_stage data A B = 1
      <-> gcd64 A B <= 1 /\ sieve_survives_scalar A B data = false)
  /\ (pair_stage data A B = 2
      <-> gcd64 A B <= 1 /\ sieve_survives_scalar A B data = true).
Proof.
  unfold pair_stage. destruct (Z.ltb_spec 1 (gcd64 A B));
    [|destruct (sieve_survives_scalar A B data)];
    repeat split; intros; try lia; try discriminate; try tauto;
    try (destruct H0; discriminate); try (destruct H0; lia).
Qed.


